(** * td_scanner: the crawl engine and its storage sink

    A shallow embedding of the Go packages [scanner] (credential pool,
    retry executor, worker pool, result sink), [database] (the [files]
    table, [BatchInsert] and the queries that read the table back) and
    [web] (the search handler).

    Conventions.
    - Go's fixed-width integers are [Z] with the wrap-around written out
      ([wrap32], [wrap64]); [%] is [Z.rem] (truncated, sign of the dividend).
    - A runtime panic (index out of range, division by zero, a bad [make])
      is [None], or the [panicked] flag of the global state.
    - Goroutines are interleaved by an explicit, executable step function
      over a global state; a schedule is a list of actions.
    - Everything the program asks of its environment (the upstream listing
      API, the rate limiter, the SQL engine, the clock, the ticker) is an
      oracle passed as an argument, so theorems quantify over it.

    The file has two parts: the embedding (modules [Go], [Drive],
    [Database], [Scanner], [Web], and the concrete inputs of [Scenario]),
    then the lemmas and theorems about it. *)

From stdpp Require Import gmap strings list fin_maps pretty sorting.
From Stdlib Require Import ZArith Lia Ascii.

Local Open Scope Z_scope.

(** ** Go runtime: fixed-width integers, slices, errors *)

Module Go.

Definition wrap32 (z : Z) : Z := (z + 2 ^ 31) mod 2 ^ 32 - 2 ^ 31.
Definition wrap64 (z : Z) : Z := (z + 2 ^ 63) mod 2 ^ 64 - 2 ^ 63.

(** [atomic.Int32.Add] and [atomic.Int64.Add]: the new value, wrapped. *)
Definition add32 (x d : Z) : Z := wrap32 (x + d).
Definition add64 (x d : Z) : Z := wrap64 (x + d).

(** [a * b] on [int] (64 bits). *)
Definition mul64 (a b : Z) : Z := wrap64 (a * b).

(** [a % b] on [int]; [None] is the division-by-zero panic. *)
Definition rem (a b : Z) : option Z :=
  if b =? 0 then None else Some (Z.rem a b).

(** [l[i]] for a slice [l] and an [int] index; [None] is the
    index-out-of-range panic. *)
Definition index {A} (l : list A) (i : Z) : option A :=
  if i <? 0 then None else l !! Z.to_nat i.

(** [len(l)] as an [int]. *)
Definition len {A} (l : list A) : Z := Z.of_nat (length l).

(** [make(chan T, size)] and [make([]T, 0, cap)] panic ("makechan: size
    out of range", "makeslice: cap out of range") when the size is negative
    or the buffer, [size] elements of [elemSize] bytes each, does not fit
    the largest allocation of the runtime: [maxAlloc] bytes, 2^48 on the
    64-bit platforms (where [int] has 64 bits, as it has throughout), less
    the bytes of its header for a channel (104 since Go 1.23). A buffer
    within that bound is taken to be granted: a process that runs out of
    memory is not modelled. *)
Definition maxAlloc : Z := 2 ^ 48.
Definition hchanSize : Z := 104.

Definition makechan_panics (elemSize size : Z) : bool :=
  (size <? 0) || (maxAlloc - hchanSize <? elemSize * size).

Definition makeslice_panics (elemSize cap : Z) : bool :=
  (cap <? 0) || (maxAlloc <? elemSize * cap).

(** [unsafe.Sizeof] of a [string] there: a pointer and a length. *)
Definition sizeof_string : Z := 16.

(** Go [error] values: a [*googleapi.Error] with its HTTP status code, or
    any other error, identified by its text. [nil] is [None] in an
    [option error]. *)
Inductive error :=
  | GoogleApiError (code : Z)
  | PlainError (msg : string).

(** [filepath.Ext(path)] on a Unix path: the suffix of [path] that starts at
    the last dot of its last element, empty when that element has no dot.
    The scan runs from the end of the path: [rpath] is what is left of it,
    read backwards, and [suffix] what has been passed. *)
Fixpoint Ext_scan (rpath suffix : list Ascii.ascii) : list Ascii.ascii :=
  match rpath with
  | [] => []
  | c :: rpath' =>
      if Ascii.eqb c "/"%char then []
      else if Ascii.eqb c "."%char then c :: suffix
      else Ext_scan rpath' (c :: suffix)
  end.

Definition Ext (path : string) : string :=
  String.string_of_list_ascii (Ext_scan (rev (String.list_ascii_of_string path)) []).

(** The integer nearest to [num / den], for [0 < den]; a tie goes to the
    even neighbour. *)
Definition round_half_even (num den : Z) : Z :=
  let q := num / den in
  let r := num mod den in
  if 2 * r <? den then q
  else if den <? 2 * r then q + 1
  else if Z.even q then q else q + 1.

(** [float64(z)] for an [int64] [z >= 0], as the exact value of the result:
    [z] rounded to 53 significant bits, ties to even. *)
Definition float64_of_int (z : Z) : Z :=
  let bits := Z.log2 z + 1 in
  if bits <=? 53 then z
  else
    let ulp := 2 ^ (bits - 53) in
    round_half_even z ulp * ulp.

(** [fmt.Sprintf("%d", z)] *)
Definition Sprintf_d (z : Z) : string := pretty z.

(** [fmt.Sprintf("%.2f", x)] for a float [x >= 0] whose exact value is
    [num / den]: the decimal expansion of [x], rounded to two decimals,
    ties to even. *)
Definition Sprintf_2f (num den : Z) : string :=
  let hundredths := round_half_even (100 * num) den in
  pretty (hundredths / 100) +:+ "."
    +:+ pretty (hundredths / 10 mod 10) +:+ pretty (hundredths mod 10).

(** [strconv.Atoi(s)]: an optional sign, then decimal digits, at least one,
    and nothing else; the value must fit an [int]. [None] stands for a
    returned error. *)
Definition digit (c : Ascii.ascii) : option Z :=
  let n := Z.of_N (N_of_ascii c) in
  if (48 <=? n) && (n <=? 57) then Some (n - 48) else None.

Fixpoint Atoi_digits (s : string) (acc : Z) : option Z :=
  match s with
  | EmptyString => Some acc
  | String c s' => d ← digit c; Atoi_digits s' (10 * acc + d)
  end.

Definition Atoi (s : string) : option Z :=
  let '(negative, digits) :=
    match s with
    | String "-" s' => (true, s')
    | String "+" s' => (false, s')
    | _ => (false, s)
    end in
  match digits with
  | EmptyString => None
  | _ =>
      n ← Atoi_digits digits 0;
      let n := if negative then - n else n in
      if (- 2 ^ 63 <=? n) && (n <? 2 ^ 63) then Some n else None
  end.

End Go.

(** ** The upstream listing API (package [drive]), as the scanner sees it *)

Module Drive.

(** The fields of [drive.File] that the listing requests:
    [files(id, name, size, modifiedTime, mimeType)]. *)
Record File := mkFile {
  Id : string;
  Name : string;
  Size : Z;                           (* int64 *)
  ModifiedTime : string;
  MimeType : string
}.

Record FileList := mkFileList {
  Files : list File;
  NextPageToken : string
}.

(** What one [call.Do()] returns: [(fileList, nil)] or [(nil, err)]. *)
Inductive outcome :=
  | Done (fl : FileList)
  | Failed (e : Go.error).

Definition folderMimeType : string := "application/vnd.google-apps.folder".

End Drive.

(** ** Package [database] *)

Module Database.

(** [unsafe.Sizeof(FileRecord{})] on a 64-bit platform: eight strings, two
    [int64], an [int], and a [bool] padded to a word. *)
Definition sizeof_FileRecord : Z := 8 * Go.sizeof_string + 4 * 8.

Record FileRecord := mkFileRecord {
  ID : string;
  Name : string;
  ParentID : string;
  TeamDriveID : string;
  TeamDriveName : string;
  Size : Z;                           (* int64 *)
  ModifiedTime : string;
  MimeType : string;
  IsFolder : bool;
  Path : string;
  TotalSize : Z;                      (* int64; not stored *)
  ChildCount : Z                      (* int; not stored *)
}.

(** A row of the [files] table. The columns carry the schema's names with a
    [col_] prefix; [col_id] is the primary key and is the key of the map that
    models the table. [col_created_at] is the column the schema fills by
    [DEFAULT CURRENT_TIMESTAMP]: [BatchInsert] never names it. *)
Record Row := mkRow {
  col_id : string;
  col_name : string;
  col_parent_id : string;
  col_teamdrive_id : string;
  col_teamdrive_name : string;
  col_size : Z;
  col_modified_time : string;
  col_mime_type : string;
  col_is_folder : bool;
  col_path : string;
  col_created_at : Z
}.

(** The [files] table: [id TEXT PRIMARY KEY ... WITHOUT ROWID]. *)
Abbreviation Table := (gmap string Row).

(** *** The schema that [InitDatabase] creates

    [CREATE TABLE IF NOT EXISTS files (...) WITHOUT ROWID], and the trigger
    [files_ai AFTER INSERT ON files], which copies the new row to the
    full-text index with
    [VALUES (new.rowid, new.id, new.name, new.path, new.teamdrive_name)]. *)
Definition files_columns : list string :=
  ["id"; "name"; "parent_id"; "teamdrive_id"; "teamdrive_name"; "size";
   "modified_time"; "mime_type"; "is_folder"; "path"; "created_at"].

Definition files_without_rowid : bool := true.

Definition files_ai_reads : list string :=
  ["rowid"; "id"; "name"; "path"; "teamdrive_name"].

(** A name is a column of [files]: one of the declared columns, or [rowid]
    on a table that has one. *)
Definition files_column (c : string) : bool :=
  existsb (String.eqb c) files_columns
  || (negb files_without_rowid && String.eqb c "rowid").

(** Preparing an [INSERT] on [files] compiles its insert trigger into the
    statement, which takes every column the trigger reads to be one of the
    table ("no such column: new.rowid" otherwise). *)
Definition insert_prepares : bool := forallb files_column files_ai_reads.

(** What the SQL engine does during one [BatchInsert]: whether
    [d.db.Begin()], [tx.Prepare(...)], the [i]-th [stmt.Exec(...)] of the
    batch and [tx.Commit()] return an error, and what [CURRENT_TIMESTAMP]
    reads.

    [exec_cancels i] tells whether the engine answered the failure of the
    [i]-th statement by rolling the whole transaction back, as SQLite may
    when the disk is full, on an I/O error or out of memory. The connection
    is then in autocommit mode: a later statement that succeeds is
    committed on its own, and [tx.Commit()] fails, no transaction being
    active. So [exec_cancels] is read only when [commit_err] is an error. *)
Record Engine := mkEngine {
  begin_err : option Go.error;
  prepare_err : option Go.error;
  exec_err : nat -> option Go.error;
  exec_cancels : nat -> bool;
  commit_err : option Go.error;
  current_timestamp : Z
}.

Inductive LogLine :=
  | InsertFailed (name : string) (e : Go.error)   (* "Insert failed for %s: %v" *)
  | Inserted (n : Z).                             (* "DB: Inserted %d records ..." *)

(** The row that
    [INSERT OR REPLACE INTO files (id, name, parent_id, teamdrive_id,
     teamdrive_name, size, modified_time, mime_type, is_folder, path)
     VALUES (?, ?, ?, ?, ?, ?, ?, ?, ?, ?)]
    stores for [record]. *)
Definition row_of (now : Z) (record : FileRecord) : Row :=
  {| col_id := ID record;
     col_name := Name record;
     col_parent_id := ParentID record;
     col_teamdrive_id := TeamDriveID record;
     col_teamdrive_name := TeamDriveName record;
     col_size := Size record;
     col_modified_time := ModifiedTime record;
     col_mime_type := MimeType record;
     col_is_folder := IsFolder record;
     col_path := Path record;
     col_created_at := now |}.

(** [INSERT OR REPLACE]: a row with the same primary key is replaced. *)
Definition insert_or_replace (now : Z) (record : FileRecord) (t : Table) : Table :=
  <[ID record := row_of now record]> t.

(** The [for _, record := range records] loop of [BatchInsert], from the
    [i]-th record on: a failing [stmt.Exec] is logged and the loop goes on. *)
Fixpoint exec_all (E : Engine) (i : nat) (records : list FileRecord)
    (t : Table) (log : list LogLine) : Table * list LogLine :=
  match records with
  | [] => (t, log)
  | record :: rest =>
      match exec_err E i with
      | None =>
          exec_all E (S i) rest (insert_or_replace (current_timestamp E) record t) log
      | Some err =>
          exec_all E (S i) rest t (log ++ [InsertFailed (Name record) err])
      end
  end.

(** What the same loop leaves in the table when the commit fails: nothing
    of what ran inside the transaction ([active]), and the rows of the
    statements that succeeded once the engine had cancelled it. *)
Fixpoint exec_autocommit (E : Engine) (i : nat) (records : list FileRecord)
    (active : bool) (t : Table) : Table :=
  match records with
  | [] => t
  | record :: rest =>
      match exec_err E i with
      | None =>
          exec_autocommit E (S i) rest active
            (if active then t
             else insert_or_replace (current_timestamp E) record t)
      | Some _ =>
          exec_autocommit E (S i) rest (active && negb (exec_cancels E i)) t
      end
  end.

Record Result := mkResult {
  table : Table;                      (* the [files] table afterwards *)
  err : option Go.error;              (* the returned [error] *)
  log : list LogLine                  (* what was printed *)
}.

(** [func (d *Database) BatchInsert(records []FileRecord) error]

    The mutex makes calls atomic with respect to each other. A transaction
    that is rolled back leaves the table as it was; so does one whose commit
    fails, unless the engine had cancelled it on the way. *)
Definition BatchInsert (E : Engine) (records : list FileRecord) (t : Table) : Result :=
  match begin_err E with
  | Some e => mkResult t (Some e) []
  | None =>
      match prepare_err E with
      | Some e => mkResult t (Some e) []            (* tx.Rollback() *)
      | None =>
          let '(tx, lg) := exec_all E 0 records t [] in
          match commit_err E with
          | Some e => mkResult (exec_autocommit E 0 records true t) (Some e) lg
          | None => mkResult tx None (lg ++ [Inserted (Go.len records)])
          end
      end
  end.

(** The stored rows as the package reads them back ([Search] and [scanRows]
    select the ten columns that [BatchInsert] writes). *)
Definition record_of (r : Row) : FileRecord :=
  {| ID := col_id r;
     Name := col_name r;
     ParentID := col_parent_id r;
     TeamDriveID := col_teamdrive_id r;
     TeamDriveName := col_teamdrive_name r;
     Size := col_size r;
     ModifiedTime := col_modified_time r;
     MimeType := col_mime_type r;
     IsFolder := col_is_folder r;
     Path := col_path r;
     TotalSize := 0;
     ChildCount := 0 |}.

Definition stored (t : Table) : gmap string FileRecord := record_of <$> t.

(** Views used to state what a batch did: the records of [records] whose
    [stmt.Exec] succeeded (resp. failed) on [E], the first record being the
    [i]-th of the batch. *)
Fixpoint executed (E : Engine) (i : nat) (records : list FileRecord)
  : list FileRecord :=
  match records with
  | [] => []
  | record :: rest =>
      match exec_err E i with
      | None => record :: executed E (S i) rest
      | Some _ => executed E (S i) rest
      end
  end.

Fixpoint rejected (E : Engine) (i : nat) (records : list FileRecord)
  : list LogLine :=
  match records with
  | [] => []
  | record :: rest =>
      match exec_err E i with
      | None => rejected E (S i) rest
      | Some err => InsertFailed (Name record) err :: rejected E (S i) rest
      end
  end.

(** The records that are committed on their own when the commit fails:
    those whose statement succeeded after the engine had cancelled the
    transaction. *)
Fixpoint autocommitted (E : Engine) (i : nat) (records : list FileRecord)
    (active : bool) : list FileRecord :=
  match records with
  | [] => []
  | record :: rest =>
      match exec_err E i with
      | None =>
          (if active then [] else [record]) ++ autocommitted E (S i) rest active
      | Some _ =>
          autocommitted E (S i) rest (active && negb (exec_cancels E i))
      end
  end.

(** The records of the batch whose rows a call leaves in the table. *)
Definition kept (E : Engine) (records : list FileRecord) : list FileRecord :=
  match begin_err E, prepare_err E, commit_err E with
  | None, None, None => executed E 0 records
  | None, None, Some _ => autocommitted E 0 records true
  | _, _, _ => []
  end.

(** Upserting a list of records, in order. *)
Definition upsert_all (now : Z) (records : list FileRecord) (t : Table) : Table :=
  foldl (fun t record => insert_or_replace now record t) t records.

(** The last record of [records] with id [k], if any. *)
Fixpoint last_with_id (k : string) (records : list FileRecord) : option FileRecord :=
  match records with
  | [] => None
  | r :: rest =>
      match last_with_id k rest with
      | Some r' => Some r'
      | None => if String.eqb (ID r) k then Some r else None
      end
  end.

(** The transaction as a whole goes through: [Begin], [Prepare] and [Commit]
    return no error. *)
Definition commits (E : Engine) : Prop :=
  begin_err E = None /\ prepare_err E = None /\ commit_err E = None.

(** An engine on the schema of [InitDatabase]: when the insert cannot be
    prepared, [tx.Prepare] returns an error. *)
Definition on_schema (E : Engine) : Prop :=
  insert_prepares = false -> begin_err E = None -> prepare_err E <> None.

(** An engine on which nothing fails. *)
Definition healthy (now : Z) : Engine :=
  {| begin_err := None; prepare_err := None; exec_err := fun _ => None;
     exec_cancels := fun _ => false;
     commit_err := None; current_timestamp := now |}.

(** Every statement of a batch succeeds, and so does the transaction. *)
Definition succeeds (E : Engine) : Prop :=
  commits E /\ forall i, exec_err E i = None.


(** *** Sizes for display ([formatBytes]) *)

(** The loop [for n := bytes / unit; n >= unit; n /= unit { div *= unit; exp++ }].
    Each pass divides [n] by 1024, so an [int64] ends it within seven
    passes; the fuel is the width of an [int64]. *)
Fixpoint formatBytes_loop (fuel : nat) (n div exp : Z) : Z * Z :=
  match fuel with
  | O => (div, exp)
  | S fuel' =>
      if n >=? 1024
      then formatBytes_loop fuel' (Z.quot n 1024) (Go.mul64 div 1024) (exp + 1)
      else (div, exp)
  end.

(** [func formatBytes(bytes int64) string]. [None] is the panic of the
    index expression ["KMGTPE"[exp]]. *)
Definition formatBytes (bytes : Z) : option string :=
  if bytes <? 1024 then Some (Go.Sprintf_d bytes +:+ " B")
  else
    let '(div, exp) := formatBytes_loop 64 (Z.quot bytes 1024) 1024 0 in
    c ← Go.index (String.list_ascii_of_string "KMGTPE") exp;
    Some (Go.Sprintf_2f (Go.float64_of_int bytes) div
            +:+ " " +:+ String c "B").

(** *** Reading the table ([Search], [scanRows], [GetFolderSize],
        [GetTeamDriveStats]) *)

Record SearchResult := mkSearchResult {
  Files : list FileRecord;
  TotalCount : Z                      (* int *)
}.

(** The single-row queries, whose [QueryRow(...).Scan(...)] error the code
    drops. *)
Inductive RowQuery :=
  | CountQuery                        (* the [COUNT] of [Search] *)
  | FolderSizeQuery (folderID : string)
  | FileStatsQuery                    (* files of a drive: count and size *)
  | FolderStatsQuery.                 (* folders of a drive: count *)

(** What the SQL engine contributes to a read: the error of [d.db.Query];
    the error of each single-row query (apart from an overflowing [SUM],
    which the data and the order of the rows decide); the order in which a
    scan of [files] meets its rows, which decides the order of rows that
    [ORDER BY] ranks equal; the order in which a single-row query meets the
    rows it aggregates, which decides where a [SUM] overflows; and the
    full-text index: the rows of [files] that match a query, by rank, and
    the number of index entries that match it. *)
Record Reader := mkReader {
  query_err : option Go.error;
  row_err : RowQuery -> option Go.error;
  scan : Table -> list Row;
  visit : RowQuery -> list Row -> list Row;
  fts_match : string -> Table -> list Row;
  fts_hits : string -> Table -> Z
}.

(** [COLLATE NOCASE]: the upper case letters of ASCII are folded to lower
    case, then the strings are compared byte by byte. *)
Definition fold_case (c : Ascii.ascii) : Ascii.ascii :=
  let n := N_of_ascii c in
  if ((65 <=? n) && (n <=? 90))%N then ascii_of_N (n + 32) else c.

Fixpoint nocase (s : string) : string :=
  match s with
  | EmptyString => EmptyString
  | String c s' => String (fold_case c) (nocase s')
  end.

(** [ORDER BY is_folder DESC, name ASC], [name] being declared
    [COLLATE NOCASE]: [r1] may come before [r2]. *)
Definition listing_order (r1 r2 : Row) : bool :=
  if Bool.eqb (col_is_folder r1) (col_is_folder r2)
  then String.leb (nocase (col_name r1)) (nocase (col_name r2))
  else col_is_folder r1.

(** The [WHERE] clause that the browsing branch of [Search] builds:
    [1=1], [AND teamdrive_id = ?] for a drive, then [AND parent_id = ?] for
    a parent, or else, for a drive, [AND parent_id = teamdrive_id]. *)
Definition list_where (teamDriveID parentID : string) (r : Row) : bool :=
  (if String.eqb teamDriveID "" then true
   else String.eqb (col_teamdrive_id r) teamDriveID)
  && (if negb (String.eqb parentID "") then String.eqb (col_parent_id r) parentID
      else if negb (String.eqb teamDriveID "")
      then String.eqb (col_parent_id r) (col_teamdrive_id r)
      else true).

(** What the full-text branch adds to [files_fts MATCH ?]: in the query for
    the rows, [AND f.teamdrive_id = ?] for a drive and [AND f.parent_id = ?]
    for a parent; in the query for the count, the drive only. *)
Definition search_where (teamDriveID parentID : string) (r : Row) : bool :=
  (if String.eqb teamDriveID "" then true
   else String.eqb (col_teamdrive_id r) teamDriveID)
  && (if String.eqb parentID "" then true
      else String.eqb (col_parent_id r) parentID).

Definition search_count_where (teamDriveID : string) (r : Row) : bool :=
  if String.eqb teamDriveID "" then true
  else String.eqb (col_teamdrive_id r) teamDriveID.

(** [LIMIT ? OFFSET ?]: a negative offset counts as 0, a negative limit as
    no limit. *)
Definition limit_offset {A} (limit offset : Z) (l : list A) : list A :=
  let l := drop (Z.to_nat offset) l in
  if limit <? 0 then l else take (Z.to_nat limit) l.

(** The rows of the table. *)
Definition rows_of (t : Table) : list Row := (map_to_list t).*2.

(** [SUM] over [int64] values: an overflow at any point of the
    computation is an error ([None]). *)
Fixpoint SUM (acc : Z) (values : list Z) : option Z :=
  match values with
  | [] => Some acc
  | v :: rest =>
      let acc' := acc + v in
      if (- 2 ^ 63 <=? acc') && (acc' <? 2 ^ 63) then SUM acc' rest else None
  end.

(** The sum of [values] as a number. *)
Definition total (values : list Z) : Z := foldr Z.add 0 values.

(** The rows with [parent_id = id]. *)
Definition children_of (rows : list Row) (id : string) : list Row :=
  filter (fun r => col_parent_id r = id) rows.

(** The recursive query of [GetFolderSize]:
    [folder_tree] starts from the rows [WHERE parent_id = ?] and adds, for
    every row [ft] it holds, the rows [f] with [f.parent_id = ft.id]
    ([UNION ALL]: nothing is merged). [level] is what the previous round
    added. The query ends when a round adds nothing, which takes at most as
    many rounds as the table has rows unless the rows form a cycle; [None]
    stands for a query that does not end. *)
Fixpoint folder_tree (fuel : nat) (rows : list Row) (level : list Row)
  : option (list Row) :=
  match level with
  | [] => Some []
  | _ :: _ =>
      match fuel with
      | O => None
      | S fuel' =>
          deeper ← folder_tree fuel' rows
                     (level ≫= (fun ft => children_of rows (col_id ft)));
          Some (level ++ deeper)
      end
  end.

(** The rows of [folder_tree] for [folderID]. *)
Definition folder_rows (t : Table) (folderID : string) : option (list Row) :=
  folder_tree (S (size t)) (rows_of t) (children_of (rows_of t) folderID).

(** [func (d *Database) GetFolderSize(folderID string) (int64, int)]:
    [SELECT COALESCE(SUM(size), 0), COUNT( * ) FROM folder_tree], over the
    rows of [folder_tree] in the order in which the engine meets them; when
    the query fails both results keep their zero value. *)
Definition GetFolderSize (R : Reader) (folderID : string) (t : Table)
  : option (Z * Z) :=
  tree ← folder_rows t folderID;
  let visited := visit R (FolderSizeQuery folderID) tree in
  Some (match row_err R (FolderSizeQuery folderID),
              SUM 0 (col_size <$> visited) with
        | None, Some totalSize => (totalSize, Go.len visited)
        | _, _ => (0, 0)
        end).

(** [func (d *Database) scanRows(rows *sql.Rows) []FileRecord], for rows as
    [BatchInsert] writes them (no [NULL], so that no [Scan] fails). *)
Definition scanRows (rows : list Row) : list FileRecord := record_of <$> rows.

(** The body of the loop [for i := range records] that ends [Search]. *)
Definition Search_totals (R : Reader) (t : Table) (record : FileRecord)
  : option FileRecord :=
  if IsFolder record then
    '(totalSize, childCount) ← GetFolderSize R (ID record) t;
    Some (mkFileRecord (ID record) (Name record) (ParentID record)
            (TeamDriveID record) (TeamDriveName record) (Size record)
            (ModifiedTime record) (MimeType record) (IsFolder record)
            (Path record) totalSize childCount)
  else
    Some (mkFileRecord (ID record) (Name record) (ParentID record)
            (TeamDriveID record) (TeamDriveName record) (Size record)
            (ModifiedTime record) (MimeType record) (IsFolder record)
            (Path record) (Size record) (ChildCount record)).

(** The two queries of [Search], for the rows of the page and for the
    count: by the full-text index when there is a [query], by browsing
    otherwise. *)
Definition Search_query (R : Reader) (query teamDriveID parentID : string)
    (limit offset : Z) (t : Table) : list Row * Z :=
  if negb (String.eqb query "") then
    (limit_offset limit offset
       (filter (fun r => search_where teamDriveID parentID r = true)
               (fts_match R query t)),
     if String.eqb teamDriveID "" then fts_hits R query t
     else Go.len (filter (fun r => search_count_where teamDriveID r = true)
                         (fts_match R query t)))
  else
    (limit_offset limit offset
       (merge_sort (fun r1 r2 => listing_order r1 r2)
          (filter (fun r => list_where teamDriveID parentID r = true)
                  (scan R t))),
     Go.len (filter (fun r => list_where teamDriveID parentID r = true)
                    (rows_of t))).

(** [func (d *Database) Search(query, teamDriveID, parentID string,
     limit, offset int) ( *SearchResult, error)]. [None] stands for a call
    that does not return. *)
Definition Search (R : Reader) (query teamDriveID parentID : string)
    (limit offset : Z) (t : Table) : option (Go.error + SearchResult) :=
  match query_err R with
  | Some err => Some (inl err)
  | None =>
      let '(rows, totalCount) :=
        Search_query R query teamDriveID parentID limit offset t in
      let totalCount :=
        match row_err R CountQuery with Some _ => 0 | None => totalCount end in
      records ← mapM (Search_totals R t) (scanRows rows);
      Some (inr (mkSearchResult records totalCount))
  end.

(** The values of the map that [GetTeamDriveStats] returns. *)
Inductive StatValue :=
  | IntStat (n : Z)
  | TextStat (s : string).

(** [func (d *Database) GetTeamDriveStats(teamDriveID string)
     map[string]interface{}]. [None] is a panic (of [formatBytes]). *)
Definition GetTeamDriveStats (R : Reader) (teamDriveID : string) (t : Table)
  : option (gmap string StatValue) :=
  let files :=
    visit R FileStatsQuery
      (filter (fun r => col_teamdrive_id r = teamDriveID /\ col_is_folder r = false)
              (rows_of t)) in
  let folders :=
    filter (fun r => col_teamdrive_id r = teamDriveID /\ col_is_folder r = true)
           (rows_of t) in
  let '(totalFiles, totalSize) :=
    match row_err R FileStatsQuery, SUM 0 (col_size <$> files) with
    | None, Some totalSize => (Go.len files, totalSize)
    | _, _ => (0, 0)
    end in
  let totalFolders :=
    match row_err R FolderStatsQuery with
    | None => Go.len folders
    | Some _ => 0
    end in
  human ← formatBytes totalSize;
  Some (<["total_files" := IntStat totalFiles]>
        (<["total_folders" := IntStat totalFolders]>
         (<["total_size" := IntStat totalSize]>
          (<["total_size_human" := TextStat human]> ∅)))).

(** The engine's scan meets every row of the table once. *)
Definition scans_table (R : Reader) : Prop :=
  forall t, scan R t ≡ₚ rows_of t.

(** A single-row query meets every row it aggregates once. *)
Definition visits_all (R : Reader) : Prop :=
  forall q rows, visit R q rows ≡ₚ rows.

(** The table is keyed by id, as [BatchInsert] keeps it. *)
Definition keyed (t : Table) : Prop :=
  forall k row, t !! k = Some row -> col_id row = k.

(** No row is its own ancestor: some rank decreases from parent to child. *)
Definition acyclic (t : Table) : Prop :=
  exists rank : string -> nat,
    forall k row, t !! k = Some row ->
      (rank (col_id row) < rank (col_parent_id row))%nat.

(** A reader on which nothing fails, which scans the table and meets the
    rows of a query in the order in which the map lists them, and whose
    full-text index is empty. *)
Definition plain_reader : Reader :=
  {| query_err := None;
     row_err := fun _ => None;
     scan := rows_of;
     visit := fun _ rows => rows;
     fts_match := fun _ _ => [];
     fts_hits := fun _ _ => 0 |}.

End Database.

(** ** Package [scanner] *)

Module Scanner.
Import Go.

(** *** The credential pool *)

(** [*drive.Service] and [*rate.Limiter] are opaque handles; a handle is
    identified by a number. *)
Definition Service := nat.
Definition Limiter := nat.

Record ServiceAccountPool := mkPool {
  services : list Service;
  limiters : list Limiter;
  current  : Z                        (* atomic.Int32 *)
}.

Record ScanConfig := mkScanConfig {
  TeamDriveID : string;
  TeamDriveName : string;
  WorkersPerAccount : Z;              (* int *)
  PageSize : Z;                       (* int64 *)
  BatchInsertSize : Z                 (* int *)
}.

(** The counters of [Stats] (all [atomic.Int64]); [TeamDriveName] and
    [StartTime] are only read when a snapshot is printed. *)
Record Stats := mkStats {
  FilesProcessed : Z;
  FoldersQueued : Z;
  APICallsTotal : Z;
  APICallsSuccess : Z;
  APICallsFailed : Z;
  DBInserts : Z
}.

Definition zero_stats : Stats := mkStats 0 0 0 0 0 0.

(** [counter.Add(d)] on each counter. *)
Definition add_FilesProcessed (d : Z) (st : Stats) : Stats :=
  mkStats (add64 (FilesProcessed st) d) (FoldersQueued st) (APICallsTotal st)
    (APICallsSuccess st) (APICallsFailed st) (DBInserts st).
Definition add_FoldersQueued (d : Z) (st : Stats) : Stats :=
  mkStats (FilesProcessed st) (add64 (FoldersQueued st) d) (APICallsTotal st)
    (APICallsSuccess st) (APICallsFailed st) (DBInserts st).
Definition add_APICallsTotal (d : Z) (st : Stats) : Stats :=
  mkStats (FilesProcessed st) (FoldersQueued st) (add64 (APICallsTotal st) d)
    (APICallsSuccess st) (APICallsFailed st) (DBInserts st).
Definition add_APICallsSuccess (d : Z) (st : Stats) : Stats :=
  mkStats (FilesProcessed st) (FoldersQueued st) (APICallsTotal st)
    (add64 (APICallsSuccess st) d) (APICallsFailed st) (DBInserts st).
Definition add_APICallsFailed (d : Z) (st : Stats) : Stats :=
  mkStats (FilesProcessed st) (FoldersQueued st) (APICallsTotal st)
    (APICallsSuccess st) (add64 (APICallsFailed st) d) (DBInserts st).
Definition add_DBInserts (d : Z) (st : Stats) : Stats :=
  mkStats (FilesProcessed st) (FoldersQueued st) (APICallsTotal st)
    (APICallsSuccess st) (APICallsFailed st) (add64 (DBInserts st) d).

(** [func (p *ServiceAccountPool) Count() int] *)
Definition Count (p : ServiceAccountPool) : Z := len (services p).

(** [ServiceAccountPool.getNext]:
    [idx := int(p.current.Add(1)) % len(p.services)], then
    [p.services[idx], p.limiters[idx]]. The cursor is bumped first; the
    result carries the pool with the new cursor. *)
Definition getNext (p : ServiceAccountPool)
  : option (Service * Limiter * ServiceAccountPool) :=
  let c := add32 (current p) 1 in
  idx ← rem c (len (services p));
  s ← index (services p) idx;
  l ← index (limiters p) idx;
  Some (s, l, mkPool (services p) (limiters p) c).

(** A pool as [InitServiceAccountPool] builds it and [getNext] keeps it:
    one limiter per service, at least one service, the cursor an [int32]. *)
Definition pool_ok (p : ServiceAccountPool) : Prop :=
  length (limiters p) = length (services p) /\
  (1 <= length (services p))%nat /\
  - 2 ^ 31 <= current p < 2 ^ 31.

(** *** The retry executor *)

(** [fmt.Errorf("max retries exceeded")] *)
Definition max_retries_exceeded : error := PlainError "max retries exceeded".

Definition maxRetries : nat := 5.
Definition second : Z := 1000000000.  (* time.Second, in nanoseconds *)
Definition baseDelay : Z := second.

(** [gerr, ok := err.( *googleapi.Error)] with [ok] and
    [gerr.Code == 403 || gerr.Code == 429]. *)
Definition rate_limited (e : error) : bool :=
  match e with
  | GoogleApiError code => (code =? 403) || (code =? 429)
  | PlainError _ => false
  end.

(** [baseDelay * time.Duration(1<<uint(attempt))], on [int64]. *)
Definition backoff (attempt : nat) : Z :=
  mul64 baseDelay (wrap64 (Z.shiftl 1 (Z.of_nat attempt))).

(** What a run of the executor did besides returning: how many times it
    invoked the call, the [time.Sleep] durations in order, and the delays
    it printed in "Rate limit, waiting ..." lines. *)
Record Effects := mkEffects {
  attempts : nat;
  sleeps : list Z;
  logged : list Z
}.

Definition no_effects : Effects := mkEffects 0 [] [].

Definition count_attempt (fx : Effects) : Effects :=
  mkEffects (S (attempts fx)) (sleeps fx) (logged fx).
Definition add_sleep (d : Z) (fx : Effects) : Effects :=
  mkEffects (attempts fx) (sleeps fx ++ [d]) (logged fx).
Definition add_log (d : Z) (fx : Effects) : Effects :=
  mkEffects (attempts fx) (sleeps fx) (logged fx ++ [d]).

(** The [for attempt := 0; attempt < maxRetries; attempt++] loop, entered
    with [attempt] and [remaining = maxRetries - attempt] iterations to go.
    [call k] is what the [k]-th invocation of [call.Do()] returns. *)
Fixpoint retry_loop (call : nat -> Drive.outcome) (remaining attempt : nat)
    (fx : Effects) : (error + Drive.FileList) * Effects :=
  match remaining with
  | O => (inl max_retries_exceeded, fx)
  | S remaining' =>
      let fx := count_attempt fx in
      match call attempt with
      | Drive.Done fileList => (inr fileList, fx)
      | Drive.Failed err =>
          if rate_limited err then
            let delay := backoff attempt in
            retry_loop call remaining' (S attempt) (add_sleep delay (add_log delay fx))
          else if (attempt <? maxRetries - 1)%nat then
            let delay := backoff attempt in
            retry_loop call remaining' (S attempt) (add_sleep delay fx)
          else (inl err, fx)
      end
  end.

(** [Worker.executeWithRetry] (its [limiter] argument is not used by the
    body). *)
Definition executeWithRetry (call : nat -> Drive.outcome)
  : (error + Drive.FileList) * Effects :=
  retry_loop call maxRetries 0 no_effects.

(** [err != nil] for what [call.Do()] returned. *)
Definition failed (o : Drive.outcome) : bool :=
  match o with
  | Drive.Done _ => false
  | Drive.Failed _ => true
  end.

(** The [k]-th invocation failed with a rate-limit-class error. *)
Definition limited_at (call : nat -> Drive.outcome) (k : nat) : bool :=
  match call k with
  | Drive.Done _ => false
  | Drive.Failed err => rate_limited err
  end.

(** *** Listing one folder *)

(** The upstream as an oracle. [respond req svc folder token k] is what the
    [k]-th [call.Do()] returns for the page request number [req] (counted
    over the whole crawl), issued through service [svc] for the page of
    [folder] at [token]. [wait_err req lim] is what [limiter.Wait(ctx)]
    returns before that request. *)
Record Upstream := mkUpstream {
  respond : nat -> Service -> string -> string -> nat -> Drive.outcome;
  wait_err : nat -> Limiter -> option error
}.

(** [isFolder := file.MimeType == "application/vnd.google-apps.folder"] *)
Definition isFolder (file : Drive.File) : bool :=
  String.eqb (Drive.MimeType file) Drive.folderMimeType.

(** The [database.FileRecord] literal built in [listFolder]. *)
Definition record_for (config : ScanConfig) (folderID : string) (file : Drive.File)
  : Database.FileRecord :=
  {| Database.ID := Drive.Id file;
     Database.Name := Drive.Name file;
     Database.ParentID := folderID;
     Database.TeamDriveID := TeamDriveID config;
     Database.TeamDriveName := TeamDriveName config;
     Database.Size := Drive.Size file;
     Database.ModifiedTime := Drive.ModifiedTime file;
     Database.MimeType := Drive.MimeType file;
     Database.IsFolder := isFolder file;
     Database.Path := Drive.Name file;
     Database.TotalSize := 0;
     Database.ChildCount := 0 |}.

(** The head of one iteration of [listFolder]'s page loop, up to and
    including [w.stats.APICallsSuccess.Add(1)]: wait for a token, count the
    call, run it through the executor. *)
Definition fetch_page (up : Upstream) (req : nat) (svc : Service) (lim : Limiter)
    (folderID pageToken : string) (st : Stats)
  : (error + Drive.FileList) * Stats * Effects :=
  match wait_err up req lim with
  | Some err => (inl err, st, no_effects)
  | None =>
      let st := add_APICallsTotal 1 st in
      match executeWithRetry (respond up req svc folderID pageToken) with
      | (inl err, fx) => (inl err, st, fx)
      | (inr fileList, fx) => (inr fileList, add_APICallsSuccess 1 st, fx)
      end
  end.

(** *** The result sink ([dbWriter]) *)

(** The sink's own variables: the pending [batch], the database it writes
    to, whether [done] has been closed; and, as history, the batches handed
    to [BatchInsert] with what each call returned. *)
Record Sink := mkSink {
  batch : list Database.FileRecord;
  db : Database.Table;
  done : bool;
  written : list (list Database.FileRecord * option error)
}.

(** The [flush] closure. The batch is emptied whether or not the write
    succeeded; [DBInserts] grows by the batch length when it did. *)
Definition flush (E : Database.Engine) (k : Stats * Sink) : Stats * Sink :=
  let '(st, k) := k in
  match batch k with
  | [] => (st, k)
  | _ :: _ =>
      let r := Database.BatchInsert E (batch k) (db k) in
      let st := match Database.err r with
                | Some _ => st
                | None => add_DBInserts (len (batch k)) st
                end in
      (st, mkSink [] (Database.table r) (done k)
                  (written k ++ [(batch k, Database.err r)]))
  end.

(** What the [select] of [dbWriter] can receive. *)
Inductive SinkEvent :=
  | Received (record : Database.FileRecord)   (* record, ok := <-resultQueue, ok *)
  | Closed                                    (* record, ok := <-resultQueue, !ok *)
  | Tick.                                     (* <-ticker.C *)

(** One iteration of the [for { select { ... } }] loop of [dbWriter], on an
    engine [E] for the [BatchInsert] it may call. Once [done] is closed the
    goroutine has returned and nothing happens any more. *)
Definition dbWriter_select (E : Database.Engine) (batchSize : Z) (ev : SinkEvent)
    (k : Stats * Sink) : Stats * Sink :=
  let '(st, snk) := k in
  if done snk then k
  else
    match ev with
    | Received record =>
        let snk := mkSink (batch snk ++ [record]) (db snk) (done snk) (written snk) in
        if len (batch snk) >=? batchSize then flush E (st, snk) else (st, snk)
    | Closed =>
        let '(st, snk) := flush E k in
        (st, mkSink (batch snk) (db snk) true (written snk))
    | Tick => flush E k
    end.

(** [dbWriter] over a sequence of events, each with the engine at that time. *)
Definition dbWriter (batchSize : Z) (events : list (SinkEvent * Database.Engine))
    (k : Stats * Sink) : Stats * Sink :=
  foldl (fun k ev => dbWriter_select ev.2 batchSize ev.1 k) k events.

Definition new_sink (t : Database.Table) : Sink := mkSink [] t false [].

(** The flush policy in the words of the design: the records pending once
    the event is taken, and whether a write is due for them (the threshold is
    reached, or the ticker fired, or the channel was closed), which needs
    something to write. *)
Definition pending_after (ev : SinkEvent) (batch : list Database.FileRecord)
  : list Database.FileRecord :=
  match ev with
  | Received record => batch ++ [record]
  | Closed | Tick => batch
  end.

Definition flush_due (batchSize : Z) (ev : SinkEvent)
    (pending : list Database.FileRecord) : bool :=
  match pending, ev with
  | [], _ => false
  | _ :: _, Received _ => batchSize <=? len pending
  | _ :: _, (Closed | Tick) => true
  end.

Definition closes (ev : SinkEvent) : bool :=
  match ev with Closed => true | Received _ | Tick => false end.

(** The records among [events], in order. *)
Definition received (events : list (SinkEvent * Database.Engine))
  : list Database.FileRecord :=
  omap (fun ev => match ev.1 with Received record => Some record | _ => None end)
       events.


(** *** The orchestrator ([ScanTeamDrive], [Worker.start], [Worker.listFolder]) *)

(** Where a worker goroutine stands. *)
Inductive WorkerState :=
  | Idle
      (* at [for folderID := range w.jobQueue], waiting for a job *)
  | Listing (folderID : string) (svc : Service) (lim : Limiter) (pageToken : string)
      (* in [listFolder], at the top of the page loop *)
  | Ranging (folderID : string) (svc : Service) (lim : Limiter)
            (files : list Drive.File) (nextPageToken : string)
      (* in [for _, file := range fileList.Files], [files] still to go *)
  | Exited.
      (* [start] has returned; the deferred [w.wg.Done()] has run *)

(** Where [ScanTeamDrive] stands, once it has started the sink, the workers
    and the reporter. *)
Inductive MainState :=
  | SendRoot          (* at [jobQueue <- config.TeamDriveID] *)
  | Waiting           (* at [wg.Wait()] *)
  | ClosingResults    (* at [close(resultQueue)] *)
  | JoiningSink       (* at [<-dbDone] *)
  | Returned.         (* [return nil] *)

Record State := mkState {
  pool : ServiceAccountPool;
  jobQueue : list string;             (* the channel's buffer, oldest first *)
  jobQueueClosed : bool;              (* no statement closes this channel *)
  resultQueue : list Database.FileRecord;
  resultQueueClosed : bool;
  wg : Z;                             (* the WaitGroup counter *)
  stats : Stats;
  workers : list WorkerState;         (* by worker id *)
  senders : list string;              (* the [go func(id) { w.jobQueue <- id }]
                                         goroutines that have not sent yet *)
  main : MainState;
  sink : Sink;
  panicked : bool;                    (* a goroutine panicked: the process died *)
  (* history, never read by the program *)
  enqueued : list string;             (* every id sent on [jobQueue], in order *)
  emitted : list Database.FileRecord; (* every record sent on [resultQueue] *)
  fetched : list (string * Drive.File); (* every item of every page returned,
                                           with the folder listed *)
  requests : nat                      (* page requests issued so far *)
}.

(** Field updates. *)
Definition set_pool (v : ServiceAccountPool) (s : State) : State :=
  mkState v (jobQueue s) (jobQueueClosed s) (resultQueue s) (resultQueueClosed s)
    (wg s) (stats s) (workers s) (senders s) (main s) (sink s) (panicked s)
    (enqueued s) (emitted s) (fetched s) (requests s).
Definition set_jobQueue (v : list string) (s : State) : State :=
  mkState (pool s) v (jobQueueClosed s) (resultQueue s) (resultQueueClosed s) (wg s)
    (stats s) (workers s) (senders s) (main s) (sink s) (panicked s) (enqueued s)
    (emitted s) (fetched s) (requests s).
Definition set_resultQueue (v : list Database.FileRecord) (s : State) : State :=
  mkState (pool s) (jobQueue s) (jobQueueClosed s) v (resultQueueClosed s) (wg s)
    (stats s) (workers s) (senders s) (main s) (sink s) (panicked s) (enqueued s)
    (emitted s) (fetched s) (requests s).
Definition set_resultQueueClosed (v : bool) (s : State) : State :=
  mkState (pool s) (jobQueue s) (jobQueueClosed s) (resultQueue s) v (wg s) (stats s)
    (workers s) (senders s) (main s) (sink s) (panicked s) (enqueued s) (emitted s)
    (fetched s) (requests s).
Definition set_wg (v : Z) (s : State) : State :=
  mkState (pool s) (jobQueue s) (jobQueueClosed s) (resultQueue s)
    (resultQueueClosed s) v (stats s) (workers s) (senders s) (main s) (sink s)
    (panicked s) (enqueued s) (emitted s) (fetched s) (requests s).
Definition set_stats (v : Stats) (s : State) : State :=
  mkState (pool s) (jobQueue s) (jobQueueClosed s) (resultQueue s)
    (resultQueueClosed s) (wg s) v (workers s) (senders s) (main s) (sink s)
    (panicked s) (enqueued s) (emitted s) (fetched s) (requests s).
Definition set_workers (v : list WorkerState) (s : State) : State :=
  mkState (pool s) (jobQueue s) (jobQueueClosed s) (resultQueue s)
    (resultQueueClosed s) (wg s) (stats s) v (senders s) (main s) (sink s)
    (panicked s) (enqueued s) (emitted s) (fetched s) (requests s).
Definition set_senders (v : list string) (s : State) : State :=
  mkState (pool s) (jobQueue s) (jobQueueClosed s) (resultQueue s)
    (resultQueueClosed s) (wg s) (stats s) (workers s) v (main s) (sink s)
    (panicked s) (enqueued s) (emitted s) (fetched s) (requests s).
Definition set_main (v : MainState) (s : State) : State :=
  mkState (pool s) (jobQueue s) (jobQueueClosed s) (resultQueue s)
    (resultQueueClosed s) (wg s) (stats s) (workers s) (senders s) v (sink s)
    (panicked s) (enqueued s) (emitted s) (fetched s) (requests s).
Definition set_sink (v : Sink) (s : State) : State :=
  mkState (pool s) (jobQueue s) (jobQueueClosed s) (resultQueue s)
    (resultQueueClosed s) (wg s) (stats s) (workers s) (senders s) (main s) v
    (panicked s) (enqueued s) (emitted s) (fetched s) (requests s).
Definition set_panicked (v : bool) (s : State) : State :=
  mkState (pool s) (jobQueue s) (jobQueueClosed s) (resultQueue s)
    (resultQueueClosed s) (wg s) (stats s) (workers s) (senders s) (main s) (sink s) v
    (enqueued s) (emitted s) (fetched s) (requests s).
Definition set_enqueued (v : list string) (s : State) : State :=
  mkState (pool s) (jobQueue s) (jobQueueClosed s) (resultQueue s)
    (resultQueueClosed s) (wg s) (stats s) (workers s) (senders s) (main s) (sink s)
    (panicked s) v (emitted s) (fetched s) (requests s).
Definition set_emitted (v : list Database.FileRecord) (s : State) : State :=
  mkState (pool s) (jobQueue s) (jobQueueClosed s) (resultQueue s)
    (resultQueueClosed s) (wg s) (stats s) (workers s) (senders s) (main s) (sink s)
    (panicked s) (enqueued s) v (fetched s) (requests s).
Definition set_fetched (v : list (string * Drive.File)) (s : State) : State :=
  mkState (pool s) (jobQueue s) (jobQueueClosed s) (resultQueue s)
    (resultQueueClosed s) (wg s) (stats s) (workers s) (senders s) (main s) (sink s)
    (panicked s) (enqueued s) (emitted s) v (requests s).
Definition set_requests (v : nat) (s : State) : State :=
  mkState (pool s) (jobQueue s) (jobQueueClosed s) (resultQueue s)
    (resultQueueClosed s) (wg s) (stats s) (workers s) (senders s) (main s) (sink s)
    (panicked s) (enqueued s) (emitted s) (fetched s) v.

(** [workers[w] = ws] *)
Definition set_worker (w : nat) (ws : WorkerState) (s : State) : State :=
  set_workers (<[w := ws]> (workers s)) s.

(** [totalWorkers := pool.Count() * config.WorkersPerAccount] *)
Definition totalWorkers (config : ScanConfig) (p : ServiceAccountPool) : Z :=
  mul64 (Count p) (WorkersPerAccount config).

(** [make(chan string, totalWorkers*10)] *)
Definition jobQueueCap (config : ScanConfig) (p : ServiceAccountPool) : Z :=
  mul64 (totalWorkers config p) 10.

(** [make(chan database.FileRecord, 100000)] *)
Definition resultQueueCap : Z := 100000.

(** The state once [ScanTeamDrive] has run up to [jobQueue <- config.TeamDriveID]:
    [wg.Add(1)] was called once per worker started. A [make] with a size
    out of range (the two channels, or the batch slice in [dbWriter])
    panics; within the range, the runtime is taken to have the memory for
    the channels and the goroutines. *)
Definition ScanTeamDrive_init (config : ScanConfig) (p : ServiceAccountPool)
    (t : Database.Table) : State :=
  let n := Z.to_nat (totalWorkers config p) in
  {| pool := p;
     jobQueue := []; jobQueueClosed := false;
     resultQueue := []; resultQueueClosed := false;
     wg := Z.of_nat n;
     stats := zero_stats;
     workers := replicate n Idle;
     senders := [];
     main := SendRoot;
     sink := new_sink t;
     panicked :=
       makechan_panics sizeof_string (jobQueueCap config p)
       || makechan_panics Database.sizeof_FileRecord resultQueueCap
       || makeslice_panics Database.sizeof_FileRecord (BatchInsertSize config);
     enqueued := []; emitted := []; fetched := []; requests := 0 |}.

(** What the scheduler and the environment can make happen next. *)
Inductive Action :=
  | MainSendRoot                     (* [jobQueue <- config.TeamDriveID] completes *)
  | MainWaitReturns                  (* [wg.Wait()] returns *)
  | MainCloseResults                 (* [close(resultQueue)] *)
  | MainReturn                       (* [<-dbDone] completes; [return nil] *)
  | WorkerTake (w : nat)             (* the [range] yields a job; [getNext] *)
  | WorkerExit (w : nat)             (* the [range] ends; [wg.Done()] *)
  | WorkerPage (w : nat)             (* one page request, retries included *)
  | WorkerEmit (w : nat)             (* one iteration over [fileList.Files],
                                        or the end of that loop *)
  | Dispatch (i : nat)               (* the [i]-th pending sender sends *)
  | SinkReceive (E : Database.Engine)     (* the sink takes a record *)
  | SinkSeesClosed (E : Database.Engine)  (* the sink finds [resultQueue] closed *)
  | SinkTick (E : Database.Engine).       (* the sink's ticker fires *)

Definition panic (s : State) : State := set_panicked true s.

(** [jobQueue <- id] on the open channel: blocks while the buffer is full. *)
Definition send_job (cap : Z) (id : string) (s : State) : option State :=
  if len (jobQueue s) <? cap
  then Some (set_enqueued (enqueued s ++ [id]) (set_jobQueue (jobQueue s ++ [id]) s))
  else None.

(** The body of the loop over [fileList.Files] for one [file], the result
    channel being open: blocks while its buffer is full. *)
Definition emit_file (config : ScanConfig) (folderID : string) (file : Drive.File)
    (s : State) : option State :=
  if len (resultQueue s) <? resultQueueCap then
    let record := record_for config folderID file in
    let s := set_resultQueue (resultQueue s ++ [record]) s in
    let s := set_emitted (emitted s ++ [record]) s in
    let s := set_stats (add_FilesProcessed 1 (stats s)) s in
    Some (if isFolder file then
            let s := set_stats (add_FoldersQueued 1 (stats s)) s in
            let s := set_wg (wg s + 1) s in
            set_senders (senders s ++ [Drive.Id file]) s
          else s)
  else None.

(** **** [ScanTeamDrive], one blocking statement at a time *)

(** [jobQueue <- config.TeamDriveID] *)
Definition ScanTeamDrive_send_root (config : ScanConfig) (cap : Z) (s : State)
  : option State :=
  match main s with
  | SendRoot =>
      if jobQueueClosed s then Some (panic s)       (* send on a closed channel *)
      else set_main Waiting <$> send_job cap (TeamDriveID config) s
  | _ => None
  end.

(** [wg.Wait()] returns once the counter is zero. *)
Definition ScanTeamDrive_wait (s : State) : option State :=
  match main s with
  | Waiting => if wg s =? 0 then Some (set_main ClosingResults s) else None
  | _ => None
  end.

(** [close(resultQueue)] *)
Definition ScanTeamDrive_close_results (s : State) : option State :=
  match main s with
  | ClosingResults => Some (set_main JoiningSink (set_resultQueueClosed true s))
  | _ => None
  end.

(** [<-dbDone], then [close(stopStats)], [printFinalStats] and [return nil]. *)
Definition ScanTeamDrive_return (s : State) : option State :=
  match main s with
  | JoiningSink => if done (sink s) then Some (set_main Returned s) else None
  | _ => None
  end.

(** **** [Worker.start] *)

(** [for folderID := range w.jobQueue] yields a job and [listFolder] is
    entered: [service, limiter := w.pool.getNext()], [pageToken := ""]. *)
Definition start_take (w : nat) (s : State) : option State :=
  match workers s !! w, jobQueue s with
  | Some Idle, folderID :: rest =>
      match getNext (pool s) with
      | None => Some (panic s)
      | Some (svc, lim, p) =>
          Some (set_worker w (Listing folderID svc lim "")
                  (set_pool p (set_jobQueue rest s)))
      end
  | _, _ => None
  end.

(** The [range] ends, which takes a closed and drained channel; the
    deferred [w.wg.Done()] runs. A negative counter panics. *)
Definition start_exit (w : nat) (s : State) : option State :=
  match workers s !! w, jobQueue s with
  | Some Idle, [] =>
      if jobQueueClosed s then
        if wg s - 1 <? 0 then Some (panic s)
        else Some (set_worker w Exited (set_wg (wg s - 1) s))
      else None
  | _, _ => None
  end.

(** **** [Worker.listFolder] *)

(** One pass through the head of the page loop. When the page cannot be
    had, [listFolder] returns the error and [start] logs it and runs
    [w.stats.APICallsFailed.Add(1)]. *)
Definition listFolder_page (up : Upstream) (w : nat) (s : State) : option State :=
  match workers s !! w with
  | Some (Listing folderID svc lim pageToken) =>
      let s' := set_requests (S (requests s)) s in
      match fetch_page up (requests s) svc lim folderID pageToken (stats s) with
      | (inl _, st, _) =>
          Some (set_worker w Idle (set_stats (add_APICallsFailed 1 st) s'))
      | (inr fileList, st, _) =>
          Some (set_worker w
                  (Ranging folderID svc lim (Drive.Files fileList)
                           (Drive.NextPageToken fileList))
                  (set_fetched
                     (fetched s ++ (pair folderID <$> Drive.Files fileList))
                     (set_stats st s')))
      end
  | _ => None
  end.

(** One iteration of [for _, file := range fileList.Files], or, at the end
    of the files, [pageToken = fileList.NextPageToken] and the test that
    ends the page loop. *)
Definition listFolder_range (config : ScanConfig) (w : nat) (s : State)
  : option State :=
  match workers s !! w with
  | Some (Ranging folderID svc lim (file :: rest) next) =>
      if resultQueueClosed s then Some (panic s)    (* send on a closed channel *)
      else set_worker w (Ranging folderID svc lim rest next)
             <$> emit_file config folderID file s
  | Some (Ranging folderID svc lim [] next) =>
      if String.eqb next ""
      then Some (set_worker w Idle s)
      else Some (set_worker w (Listing folderID svc lim next) s)
  | _ => None
  end.

(** The [i]-th pending [go func(id string) { w.jobQueue <- id }(file.Id)]
    completes its send. *)
Definition sender_send (cap : Z) (i : nat) (s : State) : option State :=
  match senders s !! i with
  | Some id =>
      if jobQueueClosed s then Some (panic s)       (* send on a closed channel *)
      else set_senders (delete i (senders s)) <$> send_job cap id s
  | None => None
  end.

(** **** The [dbWriter] goroutine *)

(** One iteration of its loop on event [ev]. *)
Definition dbWriter_step (config : ScanConfig) (E : Database.Engine) (ev : SinkEvent)
    (s : State) : option State :=
  if done (sink s) then None
  else
    let '(st, snk) := dbWriter_select E (BatchInsertSize config) ev (stats s, sink s) in
    Some (set_sink snk (set_stats st s)).

(** [record, ok := <-resultQueue] with a record in the buffer. *)
Definition dbWriter_receive (config : ScanConfig) (E : Database.Engine) (s : State)
  : option State :=
  match resultQueue s with
  | record :: rest => dbWriter_step config E (Received record) (set_resultQueue rest s)
  | [] => None
  end.

(** [record, ok := <-resultQueue] on the closed and drained channel. *)
Definition dbWriter_sees_closed (config : ScanConfig) (E : Database.Engine)
    (s : State) : option State :=
  match resultQueue s with
  | [] => if resultQueueClosed s then dbWriter_step config E Closed s else None
  | _ :: _ => None
  end.

(** **** The system *)

(** One step; [None] when the action is not enabled (the goroutine is
    elsewhere, or blocked), or the process has died. *)
Definition step (config : ScanConfig) (up : Upstream) (cap : Z) (a : Action)
    (s : State) : option State :=
  if panicked s then None else
  match a with
  | MainSendRoot => ScanTeamDrive_send_root config cap s
  | MainWaitReturns => ScanTeamDrive_wait s
  | MainCloseResults => ScanTeamDrive_close_results s
  | MainReturn => ScanTeamDrive_return s
  | WorkerTake w => start_take w s
  | WorkerExit w => start_exit w s
  | WorkerPage w => listFolder_page up w s
  | WorkerEmit w => listFolder_range config w s
  | Dispatch i => sender_send cap i s
  | SinkReceive E => dbWriter_receive config E s
  | SinkSeesClosed E => dbWriter_sees_closed config E s
  | SinkTick E => dbWriter_step config E Tick s
  end.

(** Running a schedule. *)
Fixpoint run (config : ScanConfig) (up : Upstream) (cap : Z) (schedule : list Action)
    (s : State) : option State :=
  match schedule with
  | [] => Some s
  | a :: rest => s' ← step config up cap a s; run config up cap rest s'
  end.

(** The states [ScanTeamDrive config db pool] can be in. *)
Definition reachable (config : ScanConfig) (up : Upstream) (p : ServiceAccountPool)
    (t : Database.Table) (s : State) : Prop :=
  exists schedule,
    run config up (jobQueueCap config p) schedule (ScanTeamDrive_init config p t)
    = Some s.

(** Nothing is left to crawl: the root has been sent, no job is queued or
    waiting to be sent, and every worker is back at its [range]. *)
Definition quiescent (s : State) : Prop :=
  main s = Waiting /\ jobQueue s = [] /\ senders s = [] /\
  Forall (fun ws => ws = Idle) (workers s).

(** The sane configurations: a non-negative number of workers per account,
    and a job queue capacity that fits an [int]. *)
Definition sane (config : ScanConfig) (p : ServiceAccountPool) : Prop :=
  0 <= WorkersPerAccount config /\
  Count p * WorkersPerAccount config * 10 < 2 ^ 63.

(** What stays true of [ScanTeamDrive] forever: nothing closes the job
    queue; [main] is still sending the root (and stays there when the queue
    has no capacity) or waiting on a WaitGroup whose counter is at least the
    number of workers, since [Done] is only called by a worker that leaves
    its [range], which needs the queue closed. *)
Definition stuck (config : ScanConfig) (p : ServiceAccountPool) (s : State)
  : Prop :=
  jobQueueClosed s = false /\
  resultQueueClosed s = false /\
  done (sink s) = false /\
  (main s = SendRoot \/ (main s = Waiting /\ 0 < jobQueueCap config p)) /\
  totalWorkers config p <= wg s /\
  length (workers s) = Z.to_nat (totalWorkers config p) /\
  Forall (fun ws => ws <> Exited) (workers s).

(** The ids of the folders among [records]. *)
Definition folder_ids (records : list Database.FileRecord) : list string :=
  Database.ID <$> filter (fun r => Database.IsFolder r = true) records.

(** The root id once [main] has sent it. *)
Definition root_sent (config : ScanConfig) (s : State) : list string :=
  match main s with
  | SendRoot => []
  | _ => [TeamDriveID config]
  end.

(** The records a worker still has to emit from the page it holds. *)
Definition unemitted (config : ScanConfig) (ws : WorkerState)
  : list Database.FileRecord :=
  match ws with
  | Ranging folderID _ _ files _ => record_for config folderID <$> files
  | _ => []
  end.

(** The record of every item of every page fetched so far. *)
Definition fetched_records (config : ScanConfig) (s : State)
  : list Database.FileRecord :=
  (fun item => record_for config item.1 item.2) <$> fetched s.

(** The bookkeeping that every step keeps, whatever the upstream returns:
    - [FilesProcessed] counts the records emitted, folders included;
    - [FoldersQueued] counts the folder records emitted;
    - the ids sent on the job queue, together with those still held by a
      pending sender, are the root (once sent) and one id per folder record
      emitted, as multisets;
    - every item of a fetched page has been emitted or is still held by the
      worker ranging over that page. *)
Definition accounted (config : ScanConfig) (s : State) : Prop :=
  FilesProcessed (stats s) = wrap64 (len (emitted s)) /\
  FoldersQueued (stats s) = wrap64 (len (folder_ids (emitted s))) /\
  enqueued s ++ senders s ≡ₚ root_sent config s ++ folder_ids (emitted s) /\
  fetched_records config s ≡ₚ emitted s ++ (workers s ≫= unemitted config).

(** *** What a crawl has yet to emit

    [rest folderID pageToken] stands for the records that listing
    [folderID] from the page at [pageToken] on will cause to be emitted:
    those of the items of that page, those of the subtree of every folder
    among them, and those of the pages that follow. A function [rest]
    with finite values that satisfies this equation ([describes]) exists
    exactly when the folder tree under the root is finite and acyclic. *)

Definition items_yield (config : ScanConfig)
    (rest : string -> string -> list Database.FileRecord)
    (folderID : string) (files : list Drive.File) : list Database.FileRecord :=
  files ≫= (fun file =>
    record_for config folderID file
      :: (if isFolder file then rest (Drive.Id file) "" else [])).

Definition page_yield (config : ScanConfig)
    (rest : string -> string -> list Database.FileRecord)
    (folderID : string) (files : list Drive.File) (next : string)
  : list Database.FileRecord :=
  items_yield config rest folderID files
    ++ (if String.eqb next "" then [] else rest folderID next).

Definition describes (config : ScanConfig) (up : Upstream)
    (rest : string -> string -> list Database.FileRecord) : Prop :=
  forall req svc lim folderID pageToken st,
    rest folderID pageToken
    = match (fetch_page up req svc lim folderID pageToken st).1.1 with
      | inl _ => []
      | inr fileList =>
          page_yield config rest folderID (Drive.Files fileList)
                     (Drive.NextPageToken fileList)
      end.

Definition worker_yield (config : ScanConfig)
    (rest : string -> string -> list Database.FileRecord) (ws : WorkerState)
  : list Database.FileRecord :=
  match ws with
  | Idle | Exited => []
  | Listing folderID _ _ pageToken => rest folderID pageToken
  | Ranging folderID _ _ files next => page_yield config rest folderID files next
  end.

Definition yet_to_come (config : ScanConfig)
    (rest : string -> string -> list Database.FileRecord) (s : State)
  : list Database.FileRecord :=
  match main s with
  | SendRoot => rest (TeamDriveID config) ""
  | _ => []
  end
  ++ (jobQueue s ≫= (fun id => rest id ""))
  ++ (senders s ≫= (fun id => rest id ""))
  ++ (workers s ≫= worker_yield config rest).

(** What is emitted and what is yet to come make up the records of the tree. *)
Definition conserved (config : ScanConfig)
    (rest : string -> string -> list Database.FileRecord) (s : State) : Prop :=
  emitted s ++ yet_to_come config rest s ≡ₚ rest (TeamDriveID config) "".

(** *** The credential pool in use *)

(** [k] calls of [getNext] in a row: the entries lent, in order, and the
    pool afterwards; [None] when one of the calls panics. *)
Fixpoint getNext_times (k : nat) (p : ServiceAccountPool)
  : option (list (Service * Limiter) * ServiceAccountPool) :=
  match k with
  | O => Some ([], p)
  | S k' =>
      '(s, l, p') ← getNext p;
      '(rest, p'') ← getNext_times k' p';
      Some ((s, l) :: rest, p'')
  end.

(** *** Building the pool ([InitServiceAccountPool]) *)

(** What [InitServiceAccountPool] asks of its host: the directory listing
    ([ioutil.ReadDir], entry names in the order returned), [filepath.Join],
    the content of a file ([ioutil.ReadFile]), a client for a set of
    credentials ([drive.NewService] with the read-only scope), and
    [rate.NewLimiter(rate.Limit(r), b)]. *)
Record Host := mkHost {
  ReadDir : string -> error + list string;
  Join : string -> string -> string;
  ReadFile : string -> error + string;
  NewService : string -> error + Service;
  NewLimiter : Z -> Z -> Limiter
}.

(** "Skipping %s: %v" *)
Inductive InitLogLine :=
  | Skipping (name : string) (e : error).

(** The two errors [InitServiceAccountPool] returns:
    "cannot read service accounts directory: %w" and
    "no valid service accounts found in %s". *)
Inductive InitError :=
  | CannotReadDirectory (e : error)
  | NoValidServiceAccounts (saDir : string).

(** The body of [for _, file := range files], on the pool and the log so
    far. *)
Definition InitServiceAccountPool_file (H : Host) (saDir : string)
    (ratePerAccount : Z) (acc : ServiceAccountPool * list InitLogLine)
    (name : string) : ServiceAccountPool * list InitLogLine :=
  let '(pool, lg) := acc in
  if negb (String.eqb (Ext name) ".json") then (pool, lg)
  else
    match ReadFile H (Join H saDir name) with
    | inl err => (pool, lg ++ [Skipping name err])
    | inr credentials =>
        match NewService H credentials with
        | inl err => (pool, lg ++ [Skipping name err])
        | inr service =>
            (mkPool (services pool ++ [service])
                    (limiters pool
                       ++ [NewLimiter H ratePerAccount (mul64 ratePerAccount 2)])
                    (current pool),
             lg)
        end
    end.

(** [func InitServiceAccountPool(saDir string, ratePerAccount int)
     ( *ServiceAccountPool, error)], with what it logged. *)
Definition InitServiceAccountPool (H : Host) (saDir : string) (ratePerAccount : Z)
  : (InitError + ServiceAccountPool) * list InitLogLine :=
  match ReadDir H saDir with
  | inl err => (inl (CannotReadDirectory err), [])
  | inr files =>
      let '(pool, lg) :=
        foldl (InitServiceAccountPool_file H saDir ratePerAccount)
              (mkPool [] [] 0, []) files in
      if len (services pool) =? 0
      then (inl (NoValidServiceAccounts saDir), lg)
      else (inr pool, lg)
  end.

(** The client that a directory entry yields, if it yields one: the entry
    has the extension ".json", its file can be read, and the client library
    accepts the content. *)
Definition usable (H : Host) (saDir name : string) : option Service :=
  if String.eqb (Ext name) ".json" then
    match ReadFile H (Join H saDir name) with
    | inl _ => None
    | inr credentials =>
        match NewService H credentials with
        | inl _ => None
        | inr service => Some service
        end
    end
  else None.

(** *** Views of the crawl used to state its invariants *)

(** Where the records sent on the result channel are: in a batch the sink
    has handed to [BatchInsert], in its pending batch, or still in the
    channel. *)
Definition handed_over (k : Sink) : list Database.FileRecord :=
  concat (written k).*1.

Definition in_pipeline (s : State) : list Database.FileRecord :=
  handed_over (sink s) ++ batch (sink s) ++ resultQueue s.

(** The folder a worker is listing, if it is listing one. *)
Definition listed_folder (ws : WorkerState) : list string :=
  match ws with
  | Listing folderID _ _ _ | Ranging folderID _ _ _ _ => [folderID]
  | Idle | Exited => []
  end.

(** Every folder id the crawl holds anywhere has been sent on the job queue
    before. *)
Definition from_queue (s : State) : Prop :=
  Forall (fun id => id ∈ enqueued s) (jobQueue s) /\
  Forall (fun ws => Forall (fun id => id ∈ enqueued s) (listed_folder ws))
         (workers s) /\
  Forall (fun item => item.1 ∈ enqueued s) (fetched s).

(** *** The shape of what a crawl emits *)

(** Every record has as parent the root or a folder whose record comes
    before it. *)
Definition parents_first (root : string) (records : list Database.FileRecord)
  : Prop :=
  forall before r after,
    records = before ++ r :: after ->
    Database.ParentID r = root \/
    exists r', r' ∈ before /\ Database.IsFolder r' = true /\
               Database.ID r' = Database.ParentID r.

(** The ids that hang under the root through folders of [records]. *)
Inductive hangs_under (root : string) (records : list Database.FileRecord)
  : string -> Prop :=
  | hangs_root : hangs_under root records root
  | hangs_below r :
      r ∈ records -> Database.IsFolder r = true ->
      hangs_under root records (Database.ParentID r) ->
      hangs_under root records (Database.ID r).

(** How far from the end of [ids] the first [id] is, counted from 1; 0 when
    there is none. *)
Fixpoint position_from_end (ids : list string) (id : string) : nat :=
  match ids with
  | [] => 0
  | x :: rest =>
      if String.eqb x id then S (length rest) else position_from_end rest id
  end.

(** A rank that falls from a parent to its children: the root comes first,
    then the records in the order of emission. *)
Definition emission_rank (root : string) (records : list Database.FileRecord)
    (id : string) : nat :=
  if String.eqb id root then S (length records)
  else position_from_end (Database.ID <$> records) id.

(** The actions of the sink goroutine, and the others. *)
Definition sink_action (a : Action) : bool :=
  match a with
  | SinkReceive _ | SinkSeesClosed _ | SinkTick _ => true
  | _ => false
  end.

(** The writes that an action of the sink may cause all succeed. *)
Definition writes_succeed (a : Action) : Prop :=
  match a with
  | SinkReceive E | SinkSeesClosed E | SinkTick E => Database.succeeds E
  | _ => True
  end.

(** While the writes succeed, the table holds, on top of the table [t] the
    crawl started with, the upserts of the batches handed over, and
    [DBInserts] counts their records. *)
Definition stored_so_far (t : Database.Table) (s : State) : Prop :=
  Database.stored (db (sink s))
  = Database.stored (Database.upsert_all 0 (handed_over (sink s)) t) /\
  DBInserts (stats s) = wrap64 (len (handed_over (sink s))).

Definition crawl_steps (schedule : list Action) : nat :=
  length (filter (fun a => sink_action a = false) schedule).

(** *** The counters of API calls during a page request

    The step relation takes one pass through the head of the page loop as
    one step ([listFolder_page]). The pass blocks twice, in
    [limiter.Wait] and in the attempts of [executeWithRetry], with
    [APICallsTotal.Add(1)] in between and [APICallsSuccess.Add(1)] or
    [APICallsFailed.Add(1)] at the end, and [logStats] reads the counters
    meanwhile. To follow them the pass is split here in its two halves:
    [in_flight] maps a worker that has been let through by the limiter,
    and whose call has not been counted as a success or a failure yet, to
    the number of its request. *)
Record Calls := mkCalls {
  crawl : State;
  in_flight : gmap nat nat
}.

Inductive CallAction :=
  | Crawl (a : Action)     (* a step of the crawl; for [WorkerPage w],
                              [limiter.Wait] returns in worker [w] *)
  | CallReturns (w : nat). (* [executeWithRetry] returns in worker [w] *)

(** [limiter.Wait(w.ctx)] returns. On an error [listFolder] returns it, and
    [start] logs it and runs [w.stats.APICallsFailed.Add(1)]; otherwise
    [w.stats.APICallsTotal.Add(1)] runs and the call is built and handed to
    [executeWithRetry]. *)
Definition listFolder_wait (up : Upstream) (w : nat) (c : Calls) : option Calls :=
  let s := crawl c in
  match workers s !! w, in_flight c !! w with
  | Some (Listing folderID svc lim pageToken), None =>
      let s' := set_requests (S (requests s)) s in
      match wait_err up (requests s) lim with
      | Some _ =>
          Some (mkCalls
                  (set_worker w Idle (set_stats (add_APICallsFailed 1 (stats s)) s'))
                  (in_flight c))
      | None =>
          Some (mkCalls (set_stats (add_APICallsTotal 1 (stats s)) s')
                        (<[w := requests s]> (in_flight c)))
      end
  | _, _ => None
  end.

(** [w.executeWithRetry(call, limiter)] returns. On an error [listFolder]
    returns it, and [start] logs it and runs [w.stats.APICallsFailed.Add(1)];
    otherwise [w.stats.APICallsSuccess.Add(1)] runs and the loop over the
    files of the page is entered. *)
Definition listFolder_call (up : Upstream) (w : nat) (c : Calls) : option Calls :=
  let s := crawl c in
  match workers s !! w, in_flight c !! w with
  | Some (Listing folderID svc lim pageToken), Some req =>
      match executeWithRetry (respond up req svc folderID pageToken) with
      | (inl _, _) =>
          Some (mkCalls
                  (set_worker w Idle (set_stats (add_APICallsFailed 1 (stats s)) s))
                  (delete w (in_flight c)))
      | (inr fileList, _) =>
          Some (mkCalls
                  (set_worker w
                     (Ranging folderID svc lim (Drive.Files fileList)
                              (Drive.NextPageToken fileList))
                     (set_fetched
                        (fetched s ++ (pair folderID <$> Drive.Files fileList))
                        (set_stats (add_APICallsSuccess 1 (stats s)) s)))
                  (delete w (in_flight c)))
      end
  | _, _ => None
  end.

Definition call_step (config : ScanConfig) (up : Upstream) (cap : Z)
    (a : CallAction) (c : Calls) : option Calls :=
  if panicked (crawl c) then None else
  match a with
  | Crawl (WorkerPage w) => listFolder_wait up w c
  | Crawl a =>
      s' ← step config up cap a (crawl c); Some (mkCalls s' (in_flight c))
  | CallReturns w => listFolder_call up w c
  end.

Fixpoint call_run (config : ScanConfig) (up : Upstream) (cap : Z)
    (schedule : list CallAction) (c : Calls) : option Calls :=
  match schedule with
  | [] => Some c
  | a :: rest => c' ← call_step config up cap a c; call_run config up cap rest c'
  end.

Definition call_reachable (config : ScanConfig) (up : Upstream)
    (p : ServiceAccountPool) (t : Database.Table) (c : Calls) : Prop :=
  exists schedule,
    call_run config up (jobQueueCap config p) schedule
             (mkCalls (ScanTeamDrive_init config p t) ∅)
    = Some c.

(** *** A bound on the work of a crawl

    [cost folderID pageToken] bounds the number of steps that listing
    [folderID] from the page at [pageToken] on can cause: the request for
    that page; then, for a page that comes back, one step per item, four
    more and the cost of its listing for every folder among them (its id is
    handed to a sender, sent, taken by a worker, which then returns to its
    [range]), one step for the end of the page, and the cost of the pages
    that follow. A function [cost]
    that satisfies these inequalities ([bounds]) exists when the folder
    tree is finite and acyclic and every listing has finitely many pages. *)

Definition page_cost (cost : string -> string -> nat) (folderID : string)
    (files : list Drive.File) (next : string) : nat :=
  foldr (fun file n =>
           (1 + (if isFolder file then 4 + cost (Drive.Id file) "" else 0) + n)%nat)
        (1 + (if String.eqb next "" then 0 else 1 + cost folderID next))%nat
        files.

Definition bounds (up : Upstream) (cost : string -> string -> nat) : Prop :=
  forall req svc lim folderID pageToken st,
    match (fetch_page up req svc lim folderID pageToken st).1.1 with
    | inl _ => True
    | inr fileList =>
        (page_cost cost folderID (Drive.Files fileList)
                   (Drive.NextPageToken fileList)
         <= cost folderID pageToken)%nat
    end.

(** The steps that a goroutine can still cause. *)
Definition worker_cost (cost : string -> string -> nat) (ws : WorkerState) : nat :=
  match ws with
  | Exited => 0
  | Idle => 1
  | Listing folderID _ _ pageToken => 2 + cost folderID pageToken
  | Ranging folderID _ _ files next => 1 + page_cost cost folderID files next
  end.

Definition main_cost (cost : string -> string -> nat) (config : ScanConfig)
    (m : MainState) : nat :=
  match m with
  | SendRoot => 7 + cost (TeamDriveID config) ""
  | Waiting => 3
  | ClosingResults => 2
  | JoiningSink => 1
  | Returned => 0
  end.

Definition sum_nat (l : list nat) : nat := foldr Nat.add 0%nat l.

Definition potential (cost : string -> string -> nat) (config : ScanConfig)
    (s : State) : nat :=
  ((if panicked s then 0 else 1)
   + main_cost cost config (main s)
   + sum_nat ((fun id => 3 + cost id "") <$> jobQueue s)
   + sum_nat ((fun id => 4 + cost id "") <$> senders s)
   + sum_nat (worker_cost cost <$> workers s))%nat.

End Scanner.

(** ** Package [web]: the search handler

    The handler [search] of the server that parses [limit] and [offset]
    with [strconv.Atoi] and clamps them. (The repository holds a second
    server, whose handler takes them from [c.QueryInt] as they come; it is
    not modelled here.) *)

Module Web.
Import Go.

(** [c.Query(key, defaultValue)] on the parameters of the request: the
    default stands in for a parameter that is missing or empty. *)
Definition Query (args : gmap string string) (key defaultValue : string) : string :=
  match args !! key with
  | Some value => if String.eqb value "" then defaultValue else value
  | None => defaultValue
  end.

(** What a handler answers: [c.JSON(result)], or
    [c.Status(500).JSON(fiber.Map{"error": "Search failed: " + err.Error()})]. *)
Inductive Response :=
  | JSON (result : Database.SearchResult)
  | SearchFailed (status : Z) (err : error).

(** [limit, err := strconv.Atoi(c.Query("limit", "100"))], then
    [if err != nil || limit <= 0 || limit > 1000 { limit = 100 }]. *)
Definition search_limit (args : gmap string string) : Z :=
  match Atoi (Query args "limit" "100") with
  | Some limit => if (limit <=? 0) || (1000 <? limit) then 100 else limit
  | None => 100
  end.

(** [offset, err := strconv.Atoi(c.Query("offset", "0"))], then
    [if err != nil || offset < 0 { offset = 0 }]. *)
Definition search_offset (args : gmap string string) : Z :=
  match Atoi (Query args "offset" "0") with
  | Some offset => if offset <? 0 then 0 else offset
  | None => 0
  end.

(** [func (s *Server) search(c *fiber.Ctx) error]; [None] when
    [s.db.Search] does not return. *)
Definition search (R : Database.Reader) (args : gmap string string)
    (t : Database.Table) : option Response :=
  let query := Query args "q" "" in
  let teamDriveID := Query args "teamdrive" "" in
  let parentID := Query args "parent" "" in
  let limit := search_limit args in
  let offset := search_offset args in
  match Database.Search R query teamDriveID parentID limit offset t with
  | None => None
  | Some (inl err) => Some (SearchFailed 500 err)
  | Some (inr result) => Some (JSON result)
  end.

End Web.

(** ** Concrete inputs used by the examples and scenarios *)

Module Scenario.
Import Go Scanner.

(** An upstream call that fails the same way at every attempt. *)
Definition always_fails (e : error) : nat -> Drive.outcome :=
  fun _ => Drive.Failed e.

(** An upstream call that fails with the listed errors, one per attempt, and
    returns [fl] from then on. *)
Definition fails_then (errors : list error) (fl : Drive.FileList)
  : nat -> Drive.outcome :=
  fun k => match errors !! k with
           | Some e => Drive.Failed e
           | None => Drive.Done fl
           end.

(** Decimal digits of [n], most significant first. *)
Fixpoint decimal_go (fuel n : nat) (acc : string) : string :=
  match fuel with
  | O => acc
  | S fuel' =>
      let acc' := String (Ascii.ascii_of_nat (48 + n mod 10)) acc in
      if (n / 10 =? 0)%nat then acc' else decimal_go fuel' (n / 10) acc'
  end.

Definition decimal (n : nat) : string := decimal_go (S n) n "".

(** The [i]-th of a run of distinct file records, all children of "A". *)
Definition numbered_record (i : nat) : Database.FileRecord :=
  {| Database.ID := "id-" +:+ decimal i;
     Database.Name := "file-" +:+ decimal i;
     Database.ParentID := "A";
     Database.TeamDriveID := "A";
     Database.TeamDriveName := "drive";
     Database.Size := Z.of_nat i;
     Database.ModifiedTime := "2024-01-01T00:00:00Z";
     Database.MimeType := "text/plain";
     Database.IsFolder := false;
     Database.Path := "file-" +:+ decimal i;
     Database.TotalSize := 0;
     Database.ChildCount := 0 |}.

Definition numbered (from n : nat) : list Database.FileRecord :=
  numbered_record <$> seq from n.

Definition arrivals (records : list Database.FileRecord)
  : list (SinkEvent * Database.Engine) :=
  (fun record => (Received record, Database.healthy 0)) <$> records.

(** 250 records in a row, then the channel is closed. *)
Definition fast_intake : list (SinkEvent * Database.Engine) :=
  arrivals (numbered 0 250) ++ [(Closed, Database.healthy 0)].

(** The same 250 records, but the ticker fires once after the first 50. *)
Definition slow_intake : list (SinkEvent * Database.Engine) :=
  arrivals (numbered 0 50) ++ [(Tick, Database.healthy 0)]
    ++ arrivals (numbered 50 200) ++ [(Closed, Database.healthy 0)].

(** **** A small drive: root "A" holds two files and the folder "B", which
    holds one file. *)

Definition file1 : Drive.File :=
  Drive.mkFile "f1" "one.txt" 10 "2024-01-01T00:00:00Z" "text/plain".
Definition file2 : Drive.File :=
  Drive.mkFile "f2" "two.txt" 20 "2024-01-02T00:00:00Z" "text/plain".
Definition folderB : Drive.File :=
  Drive.mkFile "B" "B" 0 "2024-01-03T00:00:00Z" Drive.folderMimeType.
Definition file3 : Drive.File :=
  Drive.mkFile "f3" "three.txt" 30 "2024-01-04T00:00:00Z" "text/plain".

Definition children (folderID : string) : list Drive.File :=
  if String.eqb folderID "A" then [file1; file2; folderB]
  else if String.eqb folderID "B" then [file3]
  else [].

(** Every listing fits one page and succeeds at the first attempt. *)
Definition small_drive : Upstream :=
  {| respond := fun _ _ folderID _ _ =>
       Drive.Done (Drive.mkFileList (children folderID) "");
     wait_err := fun _ _ => None |}.

Definition drive_config (workersPerAccount : Z) : ScanConfig :=
  mkScanConfig "A" "drive" workersPerAccount 1000 100.

Definition one_account : ServiceAccountPool := mkPool [0%nat] [0%nat] 0.

(** The records of the small drive, with their parents. *)
Definition small_drive_records (config : ScanConfig) : list Database.FileRecord :=
  [record_for config "A" file1; record_for config "A" file2;
   record_for config "A" folderB; record_for config "B" file3].

(** What listing a folder of the small drive brings, its subtree included. *)
Definition small_drive_rest (config : ScanConfig) (folderID pageToken : string)
  : list Database.FileRecord :=
  if String.eqb folderID "A" then small_drive_records config
  else if String.eqb folderID "B" then [record_for config "B" file3]
  else [].

(** One worker crawls the small drive to the end. *)
Definition crawl_small_drive : list Action :=
  [MainSendRoot; WorkerTake 0; WorkerPage 0;
   WorkerEmit 0; WorkerEmit 0; WorkerEmit 0; WorkerEmit 0;
   Dispatch 0; WorkerTake 0; WorkerPage 0; WorkerEmit 0; WorkerEmit 0].

(** The same crawl up to the moment its worker has been let through by the
    limiter for the first page. *)
Definition call_in_flight : list CallAction :=
  [Crawl MainSendRoot; Crawl (WorkerTake 0); Crawl (WorkerPage 0)].

(** **** A listing that reports the folder "B" on both of its pages. *)
Definition repeating_drive : Upstream :=
  {| respond := fun _ _ folderID pageToken _ =>
       if String.eqb folderID "A" then
         if String.eqb pageToken ""
         then Drive.Done (Drive.mkFileList [folderB] "page2")
         else Drive.Done (Drive.mkFileList [folderB] "")
       else Drive.Done (Drive.mkFileList [] "");
     wait_err := fun _ _ => None |}.

Definition crawl_repeating_drive : list Action :=
  [MainSendRoot; WorkerTake 0; WorkerPage 0; WorkerEmit 0; WorkerEmit 0;
   WorkerPage 0; WorkerEmit 0; WorkerEmit 0; Dispatch 0; Dispatch 0].

(** **** A listing of "X" that is rate limited twice, then succeeds. *)
Definition flaky_drive : Upstream :=
  {| respond := fun _ _ _ _ =>
       fails_then [GoogleApiError 429; GoogleApiError 403]
                  (Drive.mkFileList [file1] "");
     wait_err := fun _ _ => None |}.

Definition flaky_config : ScanConfig := mkScanConfig "X" "drive" 1 1000 100.

(** An engine on which the statement for the second record of a batch
    fails, and nothing else. *)
Definition second_insert_fails : Database.Engine :=
  {| Database.begin_err := None;
     Database.prepare_err := None;
     Database.exec_err := fun i => if (i =? 1)%nat
                                   then Some (PlainError "database is locked")
                                   else None;
     Database.exec_cancels := fun _ => false;
     Database.commit_err := None;
     Database.current_timestamp := 0 |}.

(** An engine whose disk is full at the second statement of a batch: the
    engine cancels the transaction, later statements succeed on their own,
    and the commit fails. *)
Definition disk_full_at_second : Database.Engine :=
  {| Database.begin_err := None;
     Database.prepare_err := None;
     Database.exec_err := fun i => if (i =? 1)%nat
                                   then Some (PlainError "database or disk is full")
                                   else None;
     Database.exec_cancels := fun i => (i =? 1)%nat;
     Database.commit_err :=
       Some (PlainError "cannot commit - no transaction is active");
     Database.current_timestamp := 0 |}.

(** An engine on the schema of [InitDatabase]. *)
Definition as_shipped : Database.Engine :=
  {| Database.begin_err := None;
     Database.prepare_err := Some (PlainError "no such column: new.rowid");
     Database.exec_err := fun _ => None;
     Database.exec_cancels := fun _ => false;
     Database.commit_err := None;
     Database.current_timestamp := 0 |}.

(** The crawl of "X" once a worker has taken the root and is about to
    request its first page. *)
Definition flaky_listing : State :=
  default (ScanTeamDrive_init flaky_config one_account ∅)
          (run flaky_config flaky_drive (jobQueueCap flaky_config one_account)
               [MainSendRoot; WorkerTake 0]
               (ScanTeamDrive_init flaky_config one_account ∅)).

(** The crawl of the small drive by one worker, at its end. *)
Definition small_drive_end : State :=
  default (ScanTeamDrive_init (drive_config 1) one_account ∅)
          (run (drive_config 1) small_drive
               (jobQueueCap (drive_config 1) one_account)
               crawl_small_drive
               (ScanTeamDrive_init (drive_config 1) one_account ∅)).

(** The same crawl, after which the sink takes the four records and its
    ticker fires. *)
Definition store_small_drive : list Action :=
  crawl_small_drive
    ++ [SinkReceive (Database.healthy 1); SinkReceive (Database.healthy 1);
        SinkReceive (Database.healthy 1); SinkReceive (Database.healthy 1);
        SinkTick (Database.healthy 2)].

Definition small_drive_stored : State :=
  default (ScanTeamDrive_init (drive_config 1) one_account ∅)
          (run (drive_config 1) small_drive
               (jobQueueCap (drive_config 1) one_account)
               store_small_drive
               (ScanTeamDrive_init (drive_config 1) one_account ∅)).

(** The table once the records of the small drive are written. *)
Definition small_drive_table : Database.Table :=
  Database.upsert_all 0 (small_drive_records (drive_config 1)) ∅.

(** A bound on the work of listing a folder of the small drive. *)
Definition small_drive_cost (folderID pageToken : string) : nat :=
  if String.eqb folderID "A" then 10%nat else 2%nat.

(** **** A directory of service account keys: two good keys, a file that
    is not a key, and a key that cannot be read. *)
Definition key_directory : Host :=
  {| ReadDir := fun dir =>
       if String.eqb dir "keys"
       then inr ["a.json"; "notes.txt"; "b.json"; "c.json"]
       else inl (PlainError "no such directory");
     Join := fun dir name => dir +:+ "/" +:+ name;
     ReadFile := fun path =>
       if String.eqb path "keys/b.json"
       then inl (PlainError "permission denied")
       else inr path;
     NewService := fun credentials =>
       if String.eqb credentials "keys/a.json" then inr 1%nat
       else if String.eqb credentials "keys/c.json" then inr 3%nat
       else inl (PlainError "invalid credentials");
     NewLimiter := fun r b => Z.to_nat (r + b) |}.

End Scenario.

(** * Part II: lemmas and theorems *)

Import Go Scanner.

(** ** Fixed-width arithmetic *)

Lemma wrap32_id z : - 2 ^ 31 <= z < 2 ^ 31 -> wrap32 z = z.
Proof. intros H. unfold wrap32. rewrite Z.mod_small; lia. Qed.

Lemma wrap64_id z : - 2 ^ 63 <= z < 2 ^ 63 -> wrap64 z = z.
Proof. intros H. unfold wrap64. rewrite Z.mod_small; lia. Qed.

Lemma wrap64_add_l a b : wrap64 (wrap64 a + b) = wrap64 (a + b).
Proof.
  unfold wrap64.
  replace ((a + 2 ^ 63) mod 2 ^ 64 - 2 ^ 63 + b + 2 ^ 63)
    with ((a + 2 ^ 63) mod 2 ^ 64 + b) by lia.
  rewrite Zplus_mod_idemp_l. f_equal. f_equal. lia.
Qed.

Lemma add64_wrap a b : add64 (wrap64 a) b = wrap64 (a + b).
Proof. apply wrap64_add_l. Qed.

Lemma index_in_range {A} (l : list A) i :
  0 <= i < len l -> exists x, index l i = Some x /\ x ∈ l.
Proof.
  intros H. unfold index, len in *.
  destruct (Z.ltb_spec i 0); [lia|].
  destruct (lookup_lt_is_Some_2 l (Z.to_nat i)) as [x Hx]; [lia|].
  exists x. split; [done|]. by eapply list_elem_of_lookup_2.
Qed.

Lemma index_negative {A} (l : list A) i : i < 0 -> index l i = None.
Proof. intros H. unfold index. destruct (Z.ltb_spec i 0); [done|lia]. Qed.

(** ** The credential pool *)

(** While the cursor has not reached the top of [int32], [getNext] lends an
    entry of the pool and leaves the pool well formed. *)
Lemma getNext_before_wrap (p : ServiceAccountPool) :
  pool_ok p -> 0 <= current p + 1 < 2 ^ 31 ->
  exists s l p', getNext p = Some (s, l, p') /\ s ∈ services p /\ l ∈ limiters p /\
                 pool_ok p' /\ current p' = current p + 1.
Proof.
  intros (Hlen & Hpos & Hcur) Hc.
  unfold getNext, add32, rem. rewrite wrap32_id by lia.
  assert (Hn : 0 < len (services p)) by (unfold len; lia).
  destruct (Z.eqb_spec (len (services p)) 0) as [E|_]; [lia|]. simpl.
  pose proof (Z.rem_bound_pos (current p + 1) (len (services p)) ltac:(lia) Hn) as Hb.
  destruct (index_in_range (services p) _ Hb) as (s & -> & Hs).
  assert (Hb' : 0 <= Z.rem (current p + 1) (len (services p)) < len (limiters p))
    by (unfold len in *; rewrite Hlen; lia).
  destruct (index_in_range (limiters p) _ Hb') as (l & -> & Hl).
  simpl. exists s, l, (mkPool (services p) (limiters p) (current p + 1)).
  repeat split; simpl; auto; lia.
Qed.

(** The cursor at the top of [int32] wraps to [-2^31]. *)
Lemma add32_top : add32 (2 ^ 31 - 1) 1 = - 2 ^ 31.
Proof. reflexivity. Qed.

(** A negative cursor that the pool size does not divide gives a negative
    index, and the indexing panics. *)
Lemma getNext_negative_index (p : ServiceAccountPool) :
  add32 (current p) 1 < 0 ->
  Z.rem (add32 (current p) 1) (len (services p)) <> 0 ->
  getNext p = None.
Proof.
  intros Hneg Hrem. unfold getNext, rem.
  destruct (Z.eqb_spec (len (services p)) 0) as [E|Hn]; simpl; [done|].
  rewrite (index_negative (services p)); [done|].
  pose proof (Z.rem_nonpos (add32 (current p) 1) (len (services p)) Hn). lia.
Qed.

(** C9 (the code breaks it): in a pool of two or more entries whose cursor
    has reached the top of [int32], [getNext] panics on an out-of-range
    index within the next two calls: the wrapped cursor is negative, and Go's
    [%] keeps the sign of the dividend. *)
Theorem getNext_panics_after_wrap (p : ServiceAccountPool) :
  pool_ok p -> (2 <= length (services p))%nat -> current p = 2 ^ 31 - 1 ->
  getNext p = None \/
  exists s l p', getNext p = Some (s, l, p') /\ getNext p' = None.
Proof.
  intros (Hlen & Hpos & Hcur) Hn Hc.
  set (n := len (services p)).
  assert (Hn2 : 2 <= n) by (unfold n, len; lia).
  destruct (Z.eq_dec (Z.rem (- 2 ^ 31) n) 0) as [Hdiv|Hnd].
  - right. unfold getNext at 1. rewrite Hc, add32_top. unfold rem.
    fold n. destruct (Z.eqb_spec n 0) as [E|_]; [lia|]. simpl. rewrite Hdiv.
    destruct (index_in_range (services p) 0) as (s & -> & _); [fold n; lia|].
    destruct (index_in_range (limiters p) 0) as (l & -> & _);
      [unfold len; rewrite Hlen; fold (len (services p)); fold n; lia|].
    simpl. eexists _, _, _. split; [reflexivity|].
    apply getNext_negative_index; simpl.
    + reflexivity.
    + fold n. change (add32 (- 2 ^ 31) 1) with (- (2 ^ 31 - 1)).
      rewrite Z.rem_opp_l by lia. intros H0.
      assert (H1 : Z.rem (2 ^ 31 - 1) n = 0) by lia.
      rewrite Z.rem_opp_l in Hdiv by lia.
      assert (H2 : Z.rem (2 ^ 31) n = 0) by lia.
      rewrite Z.rem_mod_nonneg in H1, H2 by lia.
      apply Z.mod_divide in H1; [|lia]. apply Z.mod_divide in H2; [|lia].
      assert (Hd : (n | 1)).
      { replace 1 with (2 ^ 31 - (2 ^ 31 - 1)) by lia. by apply Z.divide_sub_r. }
      apply Z.divide_1_r_nonneg in Hd; lia.
  - left. apply getNext_negative_index; rewrite Hc, add32_top; [lia|done].
Qed.

(** The theorem at a pool of three credentials: the very next call panics
    ([-2147483648 % 3 = -2]). *)
Lemma getNext_panics_after_wrap_witness :
  getNext (mkPool [0%nat; 1%nat; 2%nat] [0%nat; 1%nat; 2%nat] (2 ^ 31 - 1)) = None.
Proof.
  destruct (getNext_panics_after_wrap
              (mkPool [0%nat; 1%nat; 2%nat] [0%nat; 1%nat; 2%nat] (2 ^ 31 - 1)))
    as [H|(s & l & p' & H & _)].
  - unfold pool_ok; simpl; lia.
  - simpl; lia.
  - reflexivity.
  - exact H.
  - vm_compute in H. discriminate H.
Defined.

(** ** The retry executor *)

Lemma backoff_value k : (k < 5)%nat -> backoff k = baseDelay * 2 ^ Z.of_nat k.
Proof.
  intros H. do 5 (destruct k as [|k]; [reflexivity|]). lia.
Qed.

Section RetryLoop.
Variable call : nat -> Drive.outcome.

(** The loop only adds to what was done before it was entered. *)
Lemma retry_loop_extends remaining attempt fx :
  (attempts fx <= attempts (retry_loop call remaining attempt fx).2
                <= attempts fx + remaining)%nat /\
  sleeps fx `prefix_of` sleeps (retry_loop call remaining attempt fx).2.
Proof.
  revert attempt fx. induction remaining as [|n IH]; intros attempt fx; simpl.
  - split; [lia|done].
  - destruct (call attempt) as [fl|e]; simpl.
    + split; [lia|done].
    + destruct (rate_limited e).
      * destruct (IH (S attempt) (add_sleep (backoff attempt)
                                    (add_log (backoff attempt) (count_attempt fx))))
          as [Ha Hs]; simpl in *.
        split; [lia|]. etrans; [|exact Hs]. by apply prefix_app_r.
      * destruct (attempt <? _)%nat; simpl.
        -- destruct (IH (S attempt) (add_sleep (backoff attempt) (count_attempt fx)))
             as [Ha Hs]; simpl in *.
           split; [lia|]. etrans; [|exact Hs]. by apply prefix_app_r.
        -- split; [lia|done].
Qed.

(** The first success ends the loop at once: one attempt per failure before
    it plus the successful one, one sleep per failure, each of the scheduled
    length. *)
Lemma retry_loop_success remaining attempt fx k fl :
  (attempt + remaining = maxRetries)%nat ->
  (attempt <= k < maxRetries)%nat ->
  (forall j, (attempt <= j < k)%nat -> failed (call j) = true) ->
  call k = Drive.Done fl ->
  (retry_loop call remaining attempt fx).1 = inr fl /\
  attempts (retry_loop call remaining attempt fx).2
    = (attempts fx + (k - attempt) + 1)%nat /\
  sleeps (retry_loop call remaining attempt fx).2
    = sleeps fx ++ map backoff (seq attempt (k - attempt)).
Proof.
  revert attempt fx.
  induction remaining as [|n IH]; intros attempt fx Hsum Hk Hfail Hdone.
  - lia.
  - simpl. destruct (decide (attempt = k)) as [->|Hne].
    + rewrite Hdone. simpl. rewrite Nat.sub_diag. simpl.
      rewrite app_nil_r. repeat split; lia.
    + pose proof (Hfail attempt ltac:(lia)) as Hf.
      destruct (call attempt) as [?|e]; [discriminate|].
      assert (Hlt : (attempt <? 4)%nat = true)
        by (apply Nat.ltb_lt; unfold maxRetries in *; lia).
      replace (k - attempt)%nat with (S (k - S attempt)) by lia.
      destruct (rate_limited e); [|rewrite Hlt];
        (edestruct (IH (S attempt)) as (Hr & Ha & Hs);
         [lia | lia | intros; apply Hfail; lia | exact Hdone |];
         rewrite Hr, Ha, Hs; simpl; rewrite <- app_assoc; simpl;
         repeat split; lia).
Qed.

(** When every attempt fails the loop makes them all; the last failure
    decides what is returned and whether a last sleep is taken. *)
Lemma retry_loop_exhausted remaining attempt fx e :
  (attempt + remaining = maxRetries)%nat -> (1 <= remaining)%nat ->
  (forall j, (attempt <= j < maxRetries)%nat -> failed (call j) = true) ->
  call (maxRetries - 1)%nat = Drive.Failed e ->
  (retry_loop call remaining attempt fx).1
    = inl (if rate_limited e then max_retries_exceeded else e) /\
  attempts (retry_loop call remaining attempt fx).2 = (attempts fx + remaining)%nat /\
  sleeps (retry_loop call remaining attempt fx).2
    = sleeps fx ++ map backoff (seq attempt (remaining - 1))
        ++ (if rate_limited e then [backoff (maxRetries - 1)] else []).
Proof.
  revert attempt fx.
  induction remaining as [|n IH]; intros attempt fx Hsum Hrem Hfail Hlast; [lia|].
  simpl. destruct n as [|n].
  - assert (attempt = maxRetries - 1)%nat as -> by (unfold maxRetries in *; lia).
    rewrite Hlast. simpl. destruct (rate_limited e); simpl.
    + repeat split; first [lia|done].
    + rewrite app_nil_r. repeat split; first [lia|done].
  - pose proof (Hfail attempt ltac:(unfold maxRetries in *; lia)) as Hf.
    destruct (call attempt) as [?|e']; [discriminate|].
    assert (Hlt : (attempt <? 4)%nat = true)
      by (apply Nat.ltb_lt; unfold maxRetries in *; lia).
    destruct (rate_limited e'); [|rewrite Hlt];
      (edestruct (IH (S attempt)) as (Hr & Ha & Hs);
       [lia | lia | intros; apply Hfail; lia | exact Hlast |];
       rewrite Hr, Ha, Hs; simpl; rewrite <- app_assoc; simpl;
       rewrite Nat.sub_0_r; repeat split; lia).
Qed.

(** After a failed attempt [k] that is not the last one, the loop sleeps for
    the [k]-th scheduled delay, whatever the class of the error. *)
Lemma retry_loop_sleep_at remaining attempt fx k :
  (attempt + remaining = maxRetries)%nat ->
  (attempt <= k < maxRetries - 1)%nat ->
  (forall j, (attempt <= j <= k)%nat -> failed (call j) = true) ->
  sleeps (retry_loop call remaining attempt fx).2
    !! (length (sleeps fx) + (k - attempt))%nat = Some (backoff k).
Proof.
  revert attempt fx.
  induction remaining as [|n IH]; intros attempt fx Hsum Hk Hfail.
  - unfold maxRetries in *; lia.
  - simpl. pose proof (Hfail attempt ltac:(lia)) as Hf.
    destruct (call attempt) as [?|e]; [discriminate|].
    assert (Hlt : (attempt <? 4)%nat = true)
      by (apply Nat.ltb_lt; unfold maxRetries in *; lia).
    assert (Hgo : forall fx',
      sleeps fx' = sleeps fx ++ [backoff attempt] ->
      sleeps (retry_loop call n (S attempt) fx').2
        !! (length (sleeps fx) + (k - attempt))%nat = Some (backoff k)).
    { intros fx' Hfx'. destruct (decide (attempt = k)) as [->|Hne].
      - destruct (retry_loop_extends n (S k) fx') as [_ Hp].
        eapply prefix_lookup_Some; [|exact Hp].
        rewrite Hfx', Nat.sub_diag, Nat.add_0_r.
        by rewrite lookup_app_r, Nat.sub_diag by lia.
      - specialize (IH (S attempt) fx' ltac:(lia) ltac:(lia)
                       ltac:(intros; apply Hfail; lia)).
        rewrite Hfx', length_app in IH. simpl in IH.
        rewrite <- IH. f_equal. lia. }
    destruct (rate_limited e); [|rewrite Hlt]; by apply Hgo.
Qed.

(** A delay is logged exactly for the sleeps that follow a rate-limit-class
    failure. *)
Lemma retry_loop_logged remaining attempt fx :
  let r := retry_loop call remaining attempt fx in
  exists m,
    length (sleeps r.2) = (length (sleeps fx) + m)%nat /\
    logged r.2
    = logged fx ++ (backoff <$> filter (fun k => limited_at call k = true)
                                       (seq attempt m)).
Proof.
  revert attempt fx. induction remaining as [|n IH]; intros attempt fx; simpl.
  - exists 0%nat. simpl. by rewrite Nat.add_0_r, app_nil_r.
  - unfold limited_at in *. destruct (call attempt) as [fl|e] eqn:Hc; simpl.
    + exists 0%nat. simpl. by rewrite Nat.add_0_r, app_nil_r.
    + destruct (rate_limited e) eqn:Hrl.
      * destruct (IH (S attempt) (add_sleep (backoff attempt)
                                    (add_log (backoff attempt) (count_attempt fx))))
          as (m & Hlen & Hlog). simpl in *.
        exists (S m). rewrite Hlen, Hlog, length_app. simpl.
        split; [lia|]. rewrite filter_cons, Hc, Hrl.
        case_decide; [|done]. simpl. by rewrite <- app_assoc.
      * destruct (attempt <? _)%nat; simpl.
        -- destruct (IH (S attempt) (add_sleep (backoff attempt) (count_attempt fx)))
             as (m & Hlen & Hlog). simpl in *.
           exists (S m). rewrite Hlen, Hlog, length_app. simpl.
           split; [lia|]. rewrite filter_cons, Hc, Hrl.
           case_decide; [done|]. done.
        -- exists 0%nat. simpl. by rewrite Nat.add_0_r, app_nil_r.
Qed.

End RetryLoop.

(** C3, where the code departs from it: five failures that are not of the
    rate-limit class come back as the last call's own error, not as
    "max retries exceeded". *)
Lemma executeWithRetry_returns_last_error :
  (forall k, failed (Scenario.always_fails (GoogleApiError 500) k) = true) /\
  (executeWithRetry (Scenario.always_fails (GoogleApiError 500))).1
    = inl (GoogleApiError 500) /\
  (executeWithRetry (Scenario.always_fails (GoogleApiError 500))).1
    <> inl max_retries_exceeded.
Proof. repeat split; discriminate. Qed.

(** C3, as the code has it: at most five attempts; the first success is
    returned at once (no further attempt, no sleep after it); when all five
    attempts fail, the result is "max retries exceeded" if the fifth failure
    is of the rate-limit class (403 or 429) and the fifth call's own error
    otherwise. *)
Theorem executeWithRetry_contract (call : nat -> Drive.outcome) :
  (attempts (executeWithRetry call).2 <= 5)%nat /\
  (forall k fl,
      (k < 5)%nat -> (forall j, (j < k)%nat -> failed (call j) = true) ->
      call k = Drive.Done fl ->
      (executeWithRetry call).1 = inr fl /\
      attempts (executeWithRetry call).2 = S k /\
      length (sleeps (executeWithRetry call).2) = k) /\
  (forall e,
      (forall j, (j < 5)%nat -> failed (call j) = true) ->
      call 4%nat = Drive.Failed e ->
      attempts (executeWithRetry call).2 = 5%nat /\
      (executeWithRetry call).1
        = inl (if rate_limited e then max_retries_exceeded else e)).
Proof.
  unfold executeWithRetry. split; [|split].
  - destruct (retry_loop_extends call maxRetries 0 no_effects) as [[_ H] _].
    exact H.
  - intros k fl Hk Hfail Hdone.
    destruct (retry_loop_success call maxRetries 0 no_effects k fl)
      as (Hr & Ha & Hs); [done | unfold maxRetries; lia | | done |].
    { intros j Hj. apply Hfail. lia. }
    rewrite Hr, Ha, Hs. simpl. rewrite length_map, length_seq.
    repeat split; lia.
  - intros e Hfail Hlast.
    destruct (retry_loop_exhausted call maxRetries 0 no_effects e)
      as (Hr & Ha & _); [done | unfold maxRetries; lia | | done |].
    { intros j Hj. apply Hfail. unfold maxRetries in Hj. lia. }
    rewrite Hr, Ha. done.
Qed.

(** C4, where the code departs from it: after a fifth failure the class of
    the error decides whether the loop sleeps once more (16 s) and which
    error it returns, so the class changes more than the log. *)
Lemma rate_limit_class_changes_last_attempt :
  sleeps (executeWithRetry (Scenario.always_fails (GoogleApiError 429))).2
    = [1 * second; 2 * second; 4 * second; 8 * second; 16 * second] /\
  sleeps (executeWithRetry (Scenario.always_fails (GoogleApiError 500))).2
    = [1 * second; 2 * second; 4 * second; 8 * second] /\
  (executeWithRetry (Scenario.always_fails (GoogleApiError 429))).1
    = inl max_retries_exceeded /\
  (executeWithRetry (Scenario.always_fails (GoogleApiError 500))).1
    = inl (GoogleApiError 500) /\
  sleeps (executeWithRetry (Scenario.always_fails (GoogleApiError 429))).2
    <> sleeps (executeWithRetry (Scenario.always_fails (GoogleApiError 500))).2.
Proof. repeat split; discriminate. Qed.

(** C4, as the code has it: after failed attempt [k] with [k < 4] the wait
    is [baseDelay * 2^k] whatever the class of the error; after a fifth
    failure ([k = 4]) a rate-limit-class error is followed by one more sleep
    of [baseDelay * 2^4] and "max retries exceeded", any other error by no
    sleep and that error itself; a delay is logged for exactly those sleeps
    that follow a rate-limit-class failure. *)
Theorem backoff_schedule (call : nat -> Drive.outcome) :
  (forall k,
      (k < 4)%nat -> (forall j, (j <= k)%nat -> failed (call j) = true) ->
      sleeps (executeWithRetry call).2 !! k = Some (baseDelay * 2 ^ Z.of_nat k)) /\
  (forall e,
      (forall j, (j < 5)%nat -> failed (call j) = true) ->
      call 4%nat = Drive.Failed e ->
      sleeps (executeWithRetry call).2
        = [baseDelay; baseDelay * 2; baseDelay * 4; baseDelay * 8]
            ++ (if rate_limited e then [baseDelay * 16] else []) /\
      (executeWithRetry call).1
        = inl (if rate_limited e then max_retries_exceeded else e)) /\
  logged (executeWithRetry call).2
    = backoff <$> filter (fun k => limited_at call k = true)
                         (seq 0 (length (sleeps (executeWithRetry call).2))).
Proof.
  unfold executeWithRetry. split; [|split].
  - intros k Hk Hfail.
    rewrite <- (backoff_value k) by lia.
    pose proof (retry_loop_sleep_at call maxRetries 0 no_effects k) as H.
    simpl in H. rewrite Nat.sub_0_r in H. apply H; [done | lia |].
    intros j Hj. apply Hfail. lia.
  - intros e Hfail Hlast.
    destruct (retry_loop_exhausted call maxRetries 0 no_effects e)
      as (Hr & _ & Hs); [done | unfold maxRetries; lia | | done |].
    { intros j Hj. apply Hfail. unfold maxRetries in Hj. lia. }
    rewrite Hr, Hs. split; [|done]. by destruct (rate_limited e).
  - destruct (retry_loop_logged call maxRetries 0 no_effects) as (m & Hlen & Hlog).
    rewrite Hlog, Hlen. reflexivity.
Qed.

(** ** The [files] table and [BatchInsert] *)

Section BatchInsert.
Import Database.

Lemma exec_all_spec E i records (t : Table) lg :
  exec_all E i records t lg
  = (upsert_all (current_timestamp E) (executed E i records) t,
     lg ++ rejected E i records).
Proof.
  revert i t lg. induction records as [|r rs IH]; intros i t lg; simpl.
  - by rewrite app_nil_r.
  - destruct (exec_err E i); rewrite IH; [|done].
    by rewrite <- app_assoc.
Qed.

Lemma executed_all E i records :
  (forall j, exec_err E j = None) -> executed E i records = records.
Proof.
  intros H. revert i. induction records as [|r rs IH]; intros i; simpl; [done|].
  by rewrite H, IH.
Qed.

(** When the transaction goes through, the table holds the upserts of the
    records whose statement succeeded, the failures are in the log, and
    [nil] comes back. *)
Lemma BatchInsert_commits E records (t : Table) :
  commits E ->
  BatchInsert E records t
  = mkResult (upsert_all (current_timestamp E) (executed E 0 records) t) None
             (rejected E 0 records ++ [Inserted (len records)]).
Proof.
  intros (Hb & Hp & Hc). unfold BatchInsert.
  by rewrite Hb, Hp, exec_all_spec, Hc.
Qed.

(** What the commit of a cancelled transaction leaves behind. *)
Lemma exec_autocommit_spec E i records active (t : Table) :
  exec_autocommit E i records active t
  = upsert_all (current_timestamp E) (autocommitted E i records active) t.
Proof.
  revert i active t. induction records as [|r rs IH]; intros i active t; simpl;
    [done|].
  destruct (exec_err E i); rewrite IH; [done|].
  by destruct active.
Qed.

Lemma autocommitted_none E i records :
  (forall j, exec_err E j <> None -> exec_cancels E j = false) ->
  autocommitted E i records true = [].
Proof.
  intros H. revert i. induction records as [|r rs IH]; intros i; simpl; [done|].
  destruct (exec_err E i) eqn:He; [|apply IH].
  rewrite H by (by rewrite He). apply IH.
Qed.

(** When it does not, the error comes back; the table is as before, but for
    the rows of the statements that ran once the engine had cancelled the
    transaction. *)
Lemma BatchInsert_fails E records (t : Table) :
  ~ commits E ->
  table (BatchInsert E records t)
  = match begin_err E, prepare_err E with
    | None, None =>
        upsert_all (current_timestamp E) (autocommitted E 0 records true) t
    | _, _ => t
    end /\
  is_Some (err (BatchInsert E records t)).
Proof.
  intros H. unfold BatchInsert, commits in *.
  destruct (begin_err E); [by eauto|].
  destruct (prepare_err E); [by eauto|].
  rewrite exec_all_spec.
  destruct (commit_err E); [|by destruct H].
  simpl. rewrite exec_autocommit_spec. by eauto.
Qed.

(** The table is keyed by id: after upserting [records], the row under [k]
    is that of the last record with id [k], or the old row if there is none. *)
Lemma lookup_upsert_all now records (t : Table) k :
  upsert_all now records t !! k
  = match last_with_id k records with
    | Some r => Some (row_of now r)
    | None => t !! k
    end.
Proof.
  revert t. induction records as [|r rs IH]; intros t; simpl; [done|].
  unfold upsert_all in *. simpl. rewrite IH.
  destruct (last_with_id k rs); [done|].
  unfold insert_or_replace.
  destruct (String.eqb_spec (ID r) k) as [->|Hne].
  - by rewrite lookup_insert_eq.
  - by rewrite lookup_insert_ne.
Qed.

(** Whatever fails, the table afterwards is the table before with the
    records kept upserted in order. *)
Lemma BatchInsert_table E records (t : Table) :
  table (BatchInsert E records t)
  = upsert_all (current_timestamp E) (kept E records) t.
Proof.
  unfold BatchInsert, kept.
  destruct (begin_err E); [done|]. destruct (prepare_err E); [done|].
  rewrite exec_all_spec. destruct (commit_err E); [|done].
  simpl. apply exec_autocommit_spec.
Qed.

Lemma executed_sublist E i records : executed E i records `sublist_of` records.
Proof.
  revert i. induction records as [|r rs IH]; intros i; simpl; [done|].
  destruct (exec_err E i); [by apply sublist_cons|by apply sublist_skip].
Qed.

Lemma autocommitted_sublist E i records active :
  autocommitted E i records active `sublist_of` records.
Proof.
  revert i active. induction records as [|r rs IH]; intros i active; simpl;
    [done|].
  destruct (exec_err E i); [by apply sublist_cons|].
  destruct active; simpl; [by apply sublist_cons|by apply sublist_skip].
Qed.

Lemma kept_sublist E records : kept E records `sublist_of` records.
Proof.
  unfold kept.
  destruct (begin_err E); [apply sublist_nil_l|].
  destruct (prepare_err E); [apply sublist_nil_l|].
  destruct (commit_err E);
    [apply autocommitted_sublist|apply executed_sublist].
Qed.

Lemma last_with_id_Some k records r :
  last_with_id k records = Some r -> r ∈ records /\ ID r = k.
Proof.
  induction records as [|r0 rs IH]; [done|]. simpl.
  destruct (last_with_id k rs) as [r'|].
  - intros [= <-]. destruct (IH eq_refl) as [Hin Hid]. split; [by right|done].
  - destruct (String.eqb_spec (ID r0) k); [|done].
    intros [= <-]. split; [by left|done].
Qed.

Lemma dom_upsert_all now records (t : Table) :
  dom t ⊆ dom (upsert_all now records t).
Proof.
  intros k Hk. apply elem_of_dom in Hk as [row Hk]. apply elem_of_dom.
  rewrite lookup_upsert_all. destruct (last_with_id k records); by eauto.
Qed.

(** Upserts keep the table keyed by id. *)
Lemma upsert_all_keyed now records (t : Table) :
  keyed t -> keyed (upsert_all now records t).
Proof.
  intros Hk k row. rewrite lookup_upsert_all.
  destruct (last_with_id k records) as [r|] eqn:Hlast; [|apply Hk].
  intros [= <-]. simpl.
  clear -Hlast. induction records as [|r0 rs IH]; [done|]. simpl in Hlast.
  destruct (last_with_id k rs); [by apply IH|].
  destruct (String.eqb_spec (ID r0) k); [|done]. by injection Hlast as <-.
Qed.

(** Upserting the same records again changes no stored record and adds no
    row; only [created_at] is stamped anew. *)
Lemma upsert_all_twice now now' records (t : Table) :
  stored (upsert_all now' records (upsert_all now records t))
    = stored (upsert_all now records t) /\
  dom (upsert_all now' records (upsert_all now records t))
    = dom (upsert_all now records t).
Proof.
  split.
  - apply map_eq. intros k. unfold stored.
    rewrite !lookup_fmap, !lookup_upsert_all.
    by destruct (last_with_id k records).
  - apply set_eq. intros k. rewrite !elem_of_dom, !lookup_upsert_all.
    by destruct (last_with_id k records).
Qed.

Lemma upsert_all_twice_same_time now records (t : Table) :
  upsert_all now records (upsert_all now records t) = upsert_all now records t.
Proof.
  apply map_eq. intros k. rewrite !lookup_upsert_all.
  by destruct (last_with_id k records).
Qed.

Lemma rejected_elem E j records i r e :
  records !! i = Some r -> exec_err E (j + i) = Some e ->
  InsertFailed (Name r) e ∈ rejected E j records.
Proof.
  revert j i. induction records as [|r0 rs IH]; intros j i Hi He; [done|].
  destruct i as [|i]; simpl in *.
  - injection Hi as ->. rewrite Nat.add_0_r in He. rewrite He. by left.
  - assert (InsertFailed (Name r) e ∈ rejected E (S j) rs).
    { apply (IH (S j) i); [done|]. by rewrite <- He; f_equal; lia. }
    destruct (exec_err E j); [by right|done].
Qed.

(** On the schema of [InitDatabase] the insert does not prepare: its trigger
    reads [new.rowid], and [files] is declared [WITHOUT ROWID]. *)
Lemma insert_does_not_prepare : insert_prepares = false.
Proof. reflexivity. Qed.



(** C10: [BatchInsert] returns an error exactly when [Begin], [Prepare] or
    [Commit] fails. When they succeed, a record whose statement fails is
    logged and skipped, the others are committed, [nil] is returned, and
    the sink's [flush] adds the whole batch length to [DBInserts]. *)
Theorem BatchInsert_error_only_from_transaction E (records : list FileRecord)
    (t : Table) :
  (is_Some (err (BatchInsert E records t)) <-> ~ commits E) /\
  (commits E ->
     err (BatchInsert E records t) = None /\
     table (BatchInsert E records t)
       = upsert_all (current_timestamp E) (executed E 0 records) t /\
     (forall i r e, records !! i = Some r -> exec_err E i = Some e ->
        InsertFailed (Name r) e ∈ log (BatchInsert E records t))) /\
  (commits E -> forall st k,
     batch k = records -> db k = t -> records <> [] ->
     DBInserts (flush E (st, k)).1 = add64 (DBInserts st) (len records) /\
     batch (flush E (st, k)).2 = []).
Proof.
  split; [|split].
  - split.
    + intros Hsome HC. rewrite BatchInsert_commits in Hsome by done.
      simpl in Hsome. by destruct Hsome.
    + intros HC. by apply BatchInsert_fails.
  - intros HC. rewrite BatchInsert_commits by done. simpl.
    split; [done|]. split; [done|].
    intros i r e Hi He. apply elem_of_app. left.
    by apply (rejected_elem E 0 records i).
  - intros HC st k Hb Hd Hne. unfold flush. rewrite Hb, Hd.
    destruct records as [|r rs]; [done|].
    rewrite BatchInsert_commits by done. done.
Qed.

End BatchInsert.

(** ** The result sink *)

Section Sink.
Import Database.

(** One iteration of the sink's loop, in terms of the flush policy. *)
Lemma dbWriter_select_spec E batchSize ev st k :
  done k = false ->
  dbWriter_select E batchSize ev (st, k)
  = let pending := pending_after ev (batch k) in
    if flush_due batchSize ev pending then
      let r := BatchInsert E pending (db k) in
      (match err r with
       | Some _ => st
       | None => add_DBInserts (len pending) st
       end,
       mkSink [] (table r) (closes ev) (written k ++ [(pending, err r)]))
    else (st, mkSink pending (db k) (closes ev) (written k)).
Proof.
  intros Hd. unfold dbWriter_select. rewrite Hd.
  destruct k as [b d dn wr]; simpl in *; subst dn.
  destruct ev as [r| |]; simpl.
  - unfold flush_due. destruct (b ++ [r]) as [|x l] eqn:Hb.
    { by destruct b. }
    rewrite <- Hb. rewrite Z.geb_leb.
    destruct (batchSize <=? len (b ++ [r])); [|done].
    unfold flush; simpl. by rewrite Hb.
  - unfold flush, flush_due; simpl. by destruct b.
  - unfold flush, flush_due; simpl. by destruct b.
Qed.

Lemma dbWriter_app batchSize evs1 evs2 k :
  dbWriter batchSize (evs1 ++ evs2) k
  = dbWriter batchSize evs2 (dbWriter batchSize evs1 k).
Proof. apply foldl_app. Qed.

Lemma dbWriter_cons batchSize ev evs k :
  dbWriter batchSize (ev :: evs) k
  = dbWriter batchSize evs (dbWriter_select ev.2 batchSize ev.1 k).
Proof. reflexivity. Qed.

Lemma dbWriter_single batchSize ev k :
  dbWriter batchSize [ev] k = dbWriter_select ev.2 batchSize ev.1 k.
Proof. reflexivity. Qed.

(** Records that do not fill the batch are only buffered. *)
Lemma dbWriter_buffers batchSize events rs st k :
  events.*1 = Received <$> rs -> done k = false ->
  len (batch k) + len rs < batchSize ->
  dbWriter batchSize events (st, k)
  = (st, mkSink (batch k ++ rs) (db k) false (written k)).
Proof.
  revert rs k. induction events as [|[ev E] evs IH]; intros rs k Hev Hd Hlen.
  - destruct rs; [|done]. rewrite app_nil_r. by destruct k; simpl in *; subst.
  - destruct rs as [|r rs]; [done|]. simpl in Hev. injection Hev as -> Hev.
    rewrite dbWriter_cons, dbWriter_select_spec by done. simpl.
    unfold len in *. rewrite length_cons in Hlen.
    replace (flush_due batchSize (Received r) (batch k ++ [r])) with false.
    + rewrite (IH rs); simpl; [by rewrite <- app_assoc | done | done |].
      rewrite length_app. simpl. lia.
    + unfold flush_due. destruct (batch k ++ [r]) eqn:Hb; [done|].
      rewrite <- Hb. symmetry. apply Z.leb_gt.
      unfold len. rewrite length_app. simpl. lia.
Qed.

(** Records that fill an empty batch exactly are written in one call. *)
Lemma dbWriter_fills batchSize events rs st k :
  events.*1 = Received <$> rs -> Forall (fun ev => commits ev.2) events ->
  done k = false -> batch k = [] -> len rs = batchSize -> 0 < batchSize ->
  exists t,
    dbWriter batchSize events (st, k)
    = (add_DBInserts batchSize st, mkSink [] t false (written k ++ [(rs, None)])).
Proof.
  intros Hev HE Hd Hb Hlen Hpos.
  destruct (decide (rs = [])) as [->|Hne]; [unfold len in *; simpl in *; lia|].
  destruct (exists_last Hne) as (rs0 & r & ->).
  assert (Hl : length events = length (rs0 ++ [r])).
  { rewrite <- (length_fmap fst events), Hev. by rewrite length_fmap. }
  rewrite length_app in Hl. simpl in Hl.
  destruct (decide (events = [])) as [->|Hne']; [simpl in *; lia|].
  destruct (exists_last Hne') as (evs0 & [ev E] & ->).
  rewrite fmap_app in Hev. simpl in Hev. rewrite fmap_app in Hev.
  apply app_inj_tail in Hev as [Hev0 Hev]. simpl in *. subst ev.
  apply Forall_app in HE as [_ HE]. rewrite Forall_singleton in HE. simpl in HE.
  rewrite dbWriter_app.
  unfold len in *. rewrite length_app in Hlen. simpl in Hlen.
  rewrite (dbWriter_buffers batchSize evs0 rs0)
    by (rewrite ?Hb; unfold len; simpl; done || lia).
  rewrite Hb, app_nil_l.
  rewrite dbWriter_single, dbWriter_select_spec by done. simpl.
  replace (flush_due batchSize (Received r) (rs0 ++ [r])) with true.
  - rewrite BatchInsert_commits by done. simpl.
    eexists. f_equal. f_equal. unfold len. rewrite length_app. simpl. f_equal. lia.
  - unfold flush_due. destruct (rs0 ++ [r]) eqn:Hb'; [by destruct rs0|].
    rewrite <- Hb'. symmetry. apply Z.leb_le.
    unfold len. rewrite length_app. simpl. lia.
Qed.

(** While the channel is open and writes succeed: the pending batch stays
    below the threshold, every record received is in a written batch or in
    the pending one, in arrival order, no written batch exceeds the
    threshold, and [DBInserts] counts the written records. *)
Lemma dbWriter_invariant batchSize t events :
  0 < batchSize -> Closed ∉ events.*1 ->
  Forall (fun ev => commits ev.2) events ->
  let r := dbWriter batchSize events (zero_stats, new_sink t) in
  done r.2 = false /\
  len (batch r.2) < batchSize /\
  Forall (fun w => w.2 = None /\ len w.1 <= batchSize) (written r.2) /\
  concat (written r.2).*1 ++ batch r.2 = received events /\
  DBInserts r.1 = wrap64 (len (concat (written r.2).*1)).
Proof.
  intros Hpos. induction events as [|[ev E] evs IH] using rev_ind; intros Hnc HE.
  - simpl. unfold len. simpl. repeat split; try done; lia.
  - rewrite fmap_app, not_elem_of_app in Hnc. destruct Hnc as [Hnc Hev].
    apply Forall_app in HE as [HE HE1]. rewrite Forall_singleton in HE1.
    specialize (IH Hnc HE). simpl in IH, HE1, Hev.
    rewrite dbWriter_app, dbWriter_single.
    destruct (dbWriter batchSize evs (zero_stats, new_sink t)) as [st k].
    simpl in IH. destruct IH as (Hd & Hb & Hw & Hc & Hn).
    cbv zeta. cbn [fst snd]. rewrite dbWriter_select_spec by done. cbv zeta.
    unfold received in *. rewrite omap_app.
    assert (Hpend : len (pending_after ev (batch k)) <= batchSize).
    { destruct ev; simpl; unfold len in *; rewrite ?length_app; simpl; lia. }
    assert (Hrec : pending_after ev (batch k)
                   = batch k ++ omap (fun ev : SinkEvent * Engine =>
                        match ev.1 with Received r => Some r | _ => None end)
                       [(ev, E)]).
    { destruct ev; simpl; by rewrite ?app_nil_r. }
    assert (Hcl : closes ev = false).
    { destruct ev; try done. exfalso. apply Hev. by left. }
    destruct (flush_due batchSize ev (pending_after ev (batch k))) eqn:Hdue.
    + rewrite BatchInsert_commits by done. simpl. rewrite Hcl.
      split; [done|]. split; [unfold len; simpl; lia|].
      rewrite fmap_app, concat_app. simpl. rewrite !app_nil_r.
      split; [apply Forall_app; split; [done|]; by apply Forall_singleton|].
      simpl in Hrec.
      split; [by rewrite Hrec, app_assoc, Hc|].
      rewrite Hn. unfold len. rewrite length_app, add64_wrap. f_equal. lia.
    + simpl. rewrite Hcl. split; [done|]. split.
      { unfold flush_due in Hdue.
        destruct (pending_after ev (batch k)) eqn:Hp; [unfold len; simpl; lia|].
        rewrite <- Hp in *. destruct ev; try done. apply Z.leb_gt in Hdue. lia. }
      split; [done|]. split; [|done].
      simpl in Hrec. by rewrite Hrec, app_assoc, Hc.
Qed.

(** 250 records arriving with no tick in between, threshold 100. *)
Lemma dbWriter_250_no_tick t records events E :
  length records = 250%nat ->
  events.*1 = Received <$> records ->
  Forall (fun ev => commits ev.2) events -> commits E ->
  let r := dbWriter 100 (events ++ [(Closed, E)]) (zero_stats, new_sink t) in
  written r.2 = [(take 100 records, None); (take 100 (drop 100 records), None);
                 (drop 200 records, None)] /\
  DBInserts r.1 = 250 /\ done r.2 = true /\ batch r.2 = [].
Proof.
  intros Hlen Hev HE HC.
  assert (Hevlen : length events = 250%nat).
  { by rewrite <- (length_fmap fst events), Hev, length_fmap. }
  assert (Hrun : exists t3,
    dbWriter 100 (events ++ [(Closed, E)]) (zero_stats, new_sink t)
    = (add_DBInserts 50 (add_DBInserts 100 (add_DBInserts 100 zero_stats)),
       mkSink [] t3 true
         [(take 100 records, None); (take 100 (drop 100 records), None);
          (drop 200 records, None)])).
  { assert (Hsplit : events = take 100 events ++ take 100 (drop 100 events)
                               ++ drop 200 events).
    { change 200%nat with (100 + 100)%nat. by rewrite <- drop_drop, !take_drop. }
    remember (events ++ [(Closed, E)]) as evs eqn:Hevs.
    rewrite Hsplit, <- !app_assoc in Hevs. subst evs.
    rewrite !dbWriter_app.
    destruct (dbWriter_fills 100 (take 100 events) (take 100 records)
                zero_stats (new_sink t)) as [t1 ->];
      [by rewrite fmap_take, Hev, fmap_take | by apply Forall_take | done | done
      | unfold len; rewrite length_take; lia | lia |].
    cbn [written new_sink app].
    destruct (dbWriter_fills 100 (take 100 (drop 100 events))
                (take 100 (drop 100 records))
                (add_DBInserts 100 zero_stats)
                (mkSink [] t1 false [(take 100 records, None)])) as [t2 ->];
      [by rewrite fmap_take, fmap_drop, Hev, fmap_take, fmap_drop
      | by apply Forall_take, Forall_drop | done | done
      | unfold len; rewrite length_take, length_drop; lia | lia |].
    rewrite (dbWriter_buffers 100 (drop 200 events) (drop 200 records));
      [| by rewrite fmap_drop, Hev, fmap_drop | done
       | unfold len; simpl; rewrite length_drop; lia].
    rewrite dbWriter_single, dbWriter_select_spec by done. simpl.
    assert (Hne : drop 200 records <> []).
    { intros H0. apply (f_equal length) in H0. rewrite length_drop in H0.
      simpl in H0. lia. }
    unfold flush_due. destruct (drop 200 records) as [|x l] eqn:Hd; [done|].
    rewrite <- Hd. rewrite BatchInsert_commits by done. simpl.
    eexists. f_equal. f_equal. unfold len. rewrite length_drop, Hlen. reflexivity. }
  destruct Hrun as [t3 ->]. simpl. done.
Qed.

(** C7, where the code departs from it: when the ticker fires during the
    intake (here after the first 50 of the 250 records), the flushes are
    50, 100 and 100, and the flush at channel closure writes nothing. *)
Lemma dbWriter_tick_splits_batches :
  length (received Scenario.slow_intake) = 250%nat /\
  map (fun w => length w.1)
      (written (dbWriter 100 Scenario.slow_intake (zero_stats, new_sink ∅)).2)
    = [50; 100; 100]%nat /\
  map (fun w => length w.1)
      (written (dbWriter 100 Scenario.slow_intake (zero_stats, new_sink ∅)).2)
    <> [100; 100; 50]%nat.
Proof.
  assert (H : map (fun w => length w.1)
      (written (dbWriter 100 Scenario.slow_intake (zero_stats, new_sink ∅)).2)
    = [50; 100; 100]%nat) by (vm_compute; reflexivity).
  split; [vm_compute; reflexivity|]. split; [exact H|].
  rewrite H. discriminate.
Qed.

(** Whatever the ticker does during the intake, once the channel is closed
    every record received has been written, in order, in batches no longer
    than the threshold, and [DBInserts] counts them all. *)
Lemma dbWriter_drains batchSize t events E :
  0 < batchSize -> Closed ∉ events.*1 ->
  Forall (fun ev => commits ev.2) events -> commits E ->
  len (received events) < 2 ^ 63 ->
  let r := dbWriter batchSize (events ++ [(Closed, E)]) (zero_stats, new_sink t) in
  done r.2 = true /\ batch r.2 = [] /\
  concat (written r.2).*1 = received events /\
  Forall (fun w => w.2 = None /\ len w.1 <= batchSize) (written r.2) /\
  DBInserts r.1 = len (received events).
Proof.
  intros Hpos Hnc HE HC Hsmall. cbv zeta.
  destruct (dbWriter_invariant batchSize t events Hpos Hnc HE)
    as (Hd & Hb & Hw & Hc & Hn).
  rewrite dbWriter_app, dbWriter_single.
  destruct (dbWriter batchSize events (zero_stats, new_sink t)) as [st k].
  cbn [fst snd] in *. rewrite dbWriter_select_spec by done. cbv zeta.
  cbn [pending_after closes].
  assert (Hwrap : forall n, 0 <= n < 2 ^ 63 -> wrap64 n = n)
    by (intros; apply wrap64_id; lia).
  unfold flush_due. destruct (batch k) as [|x l] eqn:Hbk.
  - simpl. rewrite app_nil_r in Hc. repeat split; try done.
    rewrite Hn, Hc. apply Hwrap. unfold len in *. lia.
  - rewrite <- Hbk in *. rewrite BatchInsert_commits by done. simpl.
    rewrite fmap_app, concat_app. simpl. rewrite app_nil_r.
    repeat split; try done.
    + apply Forall_app. split; [done|]. apply Forall_singleton. simpl.
      split; [done|lia].
    + rewrite Hn, add64_wrap, <- Hc. unfold len in *.
      rewrite <- Nat2Z.inj_add, <- length_app. apply Hwrap.
      rewrite Hc. lia.
Qed.

(** C7, as the code has it: on every event the sink writes the pending
    records exactly when the flush policy says a write is due (threshold
    reached on arrival, ticker fired, or channel closed, with something to
    write), and then empties the batch; on closure it flushes and only then
    closes [done]; 250 records with threshold 100 and succeeding writes
    give [DBInserts = 250] whatever the ticker does, and give flushes of
    100, 100 and 50 when no tick falls within the intake. *)
Theorem dbWriter_flush_policy :
  (forall E batchSize ev st k,
      done k = false ->
      dbWriter_select E batchSize ev (st, k)
      = let pending := pending_after ev (batch k) in
        if flush_due batchSize ev pending then
          let r := BatchInsert E pending (db k) in
          (match err r with
           | Some _ => st
           | None => add_DBInserts (len pending) st
           end,
           mkSink [] (table r) (closes ev) (written k ++ [(pending, err r)]))
        else (st, mkSink pending (db k) (closes ev) (written k))) /\
  (forall E batchSize st k,
      done k = false ->
      done (dbWriter_select E batchSize Closed (st, k)).2 = true /\
      batch (dbWriter_select E batchSize Closed (st, k)).2 = [] /\
      (batch k <> [] ->
       written (dbWriter_select E batchSize Closed (st, k)).2
       = written k ++ [(batch k, err (BatchInsert E (batch k) (db k)))])) /\
  (forall t records events E,
      length records = 250%nat ->
      events.*1 = Received <$> records ->
      Forall (fun ev => commits ev.2) events -> commits E ->
      let r := dbWriter 100 (events ++ [(Closed, E)]) (zero_stats, new_sink t) in
      written r.2 = [(take 100 records, None); (take 100 (drop 100 records), None);
                     (drop 200 records, None)] /\
      DBInserts r.1 = 250 /\ done r.2 = true /\ batch r.2 = []) /\
  (forall t events E,
      length (received events) = 250%nat -> Closed ∉ events.*1 ->
      Forall (fun ev => commits ev.2) events -> commits E ->
      let r := dbWriter 100 (events ++ [(Closed, E)]) (zero_stats, new_sink t) in
      concat (written r.2).*1 = received events /\
      Forall (fun w => w.2 = None /\ (length w.1 <= 100)%nat) (written r.2) /\
      DBInserts r.1 = 250 /\ done r.2 = true /\ batch r.2 = []).
Proof.
  split; [|split; [|split]].
  - intros. by apply dbWriter_select_spec.
  - intros E batchSize st k Hd. rewrite dbWriter_select_spec by done. simpl.
    unfold flush_due. destruct (batch k) as [|x l]; simpl; by repeat split.
  - intros. by apply dbWriter_250_no_tick.
  - intros t events E Hlen Hnc HE HC.
    destruct (dbWriter_drains 100 t events E) as (Hd & Hb & Hc & Hw & Hn);
      [lia | done | done | done | unfold len; rewrite Hlen; lia |].
    cbv zeta. repeat split; try done.
    + eapply Forall_impl; [exact Hw|]. intros w [? ?]. unfold len in *. split; [done|lia].
    + rewrite Hn. unfold len. by rewrite Hlen.
Qed.

End Sink.

(** ** The orchestrator *)

(** Induction over schedules: a property of the initial state that every
    step preserves holds in every reachable state. *)
Lemma reachable_ind config up p t (Inv : State -> Prop) :
  Inv (ScanTeamDrive_init config p t) ->
  (forall a s s', Inv s -> step config up (jobQueueCap config p) a s = Some s' ->
                  Inv s') ->
  forall s, reachable config up p t s -> Inv s.
Proof.
  intros Hinit Hstep s [schedule Hrun]. revert Hrun Hinit.
  generalize (ScanTeamDrive_init config p t). revert s.
  induction schedule as [|a rest IH]; intros s s0 Hrun H0; simpl in Hrun.
  - by injection Hrun as <-.
  - destruct (step config up (jobQueueCap config p) a s0) as [s1|] eqn:Hs;
      [|discriminate].
    simpl in Hrun. eapply IH; [exact Hrun|]. by eapply Hstep.
Qed.

(** Case analysis on a step: unfolds the step function on a hypothesis
    [H : step ... a s = Some s'] and leaves one goal per way the action can
    fire, with [s'] replaced by its value. *)
Ltac step_cases H :=
  unfold step, ScanTeamDrive_send_root, ScanTeamDrive_wait,
    ScanTeamDrive_close_results, ScanTeamDrive_return, start_take, start_exit,
    listFolder_page, listFolder_range, sender_send, dbWriter_receive,
    dbWriter_sees_closed, dbWriter_step, send_job, emit_file in H;
  repeat match type of H with
         | (if ?b then _ else _) = Some _ => destruct b eqn:?
         | match ?x with _ => _ end = Some _ => destruct x eqn:?
         | _ <$> (if ?b then _ else _) = Some _ => destruct b eqn:?
         | _ <$> match ?x with _ => _ end = Some _ => destruct x eqn:?
         | None = Some _ => discriminate H
         | _ <$> None = Some _ => discriminate H
         | _ <$> Some _ = Some _ => simpl in H
         | (let '(_, _) := ?x in _) = Some _ => destruct x eqn:?
         | context [if isFolder ?f then _ else _] => destruct (isFolder f) eqn:?
         end;
  try discriminate H;
  try (injection H as <-).

(** Boolean tests on [Z] in the hypotheses, as propositions. *)
Ltac tests_to_props :=
  repeat match goal with
         | H : (_ <? _) = true |- _ => apply Z.ltb_lt in H
         | H : (_ <? _) = false |- _ => apply Z.ltb_ge in H
         | H : (_ =? _) = true |- _ => apply Z.eqb_eq in H
         | H : (_ =? _) = false |- _ => apply Z.eqb_neq in H
         end.

(** A page request only touches the API-call counters. *)
Lemma fetch_page_frame up req svc lim folderID pageToken st r st' fx :
  fetch_page up req svc lim folderID pageToken st = (r, st', fx) ->
  FilesProcessed st' = FilesProcessed st /\
  FoldersQueued st' = FoldersQueued st /\
  APICallsFailed st' = APICallsFailed st /\
  DBInserts st' = DBInserts st.
Proof.
  unfold fetch_page. destruct (wait_err up req lim); [by intros [= <- <- <-]|].
  destruct (executeWithRetry _) as [[e|fl] fx']; by intros [= <- <- <-].
Qed.

(** The sink only touches [DBInserts], and closes [done] only on [Closed]. *)
Lemma dbWriter_select_frame E batchSize ev st k st' k' :
  dbWriter_select E batchSize ev (st, k) = (st', k') ->
  FilesProcessed st' = FilesProcessed st /\
  FoldersQueued st' = FoldersQueued st /\
  APICallsTotal st' = APICallsTotal st /\
  APICallsSuccess st' = APICallsSuccess st /\
  APICallsFailed st' = APICallsFailed st /\
  (done k = false -> done k' = closes ev).
Proof.
  destruct (done k) eqn:Hd.
  - unfold dbWriter_select. rewrite Hd. intros [= <- <-]. by repeat split.
  - rewrite dbWriter_select_spec by done. cbv zeta.
    destruct (flush_due _ _ _); [|by intros [= <- <-]].
    destruct (Database.err _); intros [= <- <-]; by repeat split.
Qed.

Lemma sane_totalWorkers config p :
  sane config p ->
  totalWorkers config p = Count p * WorkersPerAccount config /\
  jobQueueCap config p = totalWorkers config p * 10 /\
  0 <= totalWorkers config p.
Proof.
  intros [Hw Hc]. unfold jobQueueCap, totalWorkers, mul64.
  assert (0 <= Count p) by (unfold Count, len; lia).
  assert (0 <= Count p * WorkersPerAccount config) by lia.
  rewrite (wrap64_id (Count p * _)) by lia.
  rewrite wrap64_id by lia. lia.
Qed.

Section NeverReturns.
Variables (config : ScanConfig) (up : Upstream) (p : ServiceAccountPool)
          (t : Database.Table).
Hypothesis Hsane : sane config p.

Lemma stuck_init : stuck config p (ScanTeamDrive_init config p t).
Proof.
  destruct (sane_totalWorkers config p Hsane) as (Htw & Hcap & Hpos).
  unfold stuck, ScanTeamDrive_init; simpl. repeat split; auto.
  - lia.
  - by rewrite length_replicate.
  - apply Forall_replicate. done.
Qed.

Lemma stuck_step a s s' :
  stuck config p s -> step config up (jobQueueCap config p) a s = Some s' ->
  stuck config p s'.
Proof.
  destruct (sane_totalWorkers config p Hsane) as (Htw & Hcap & Hpos).
  intros (Hjc & Hrc & Hd & Hm & Hwg & Hlen & Hex) H.
  step_cases H; unfold stuck; simpl.
  all: try congruence.
  all: try (destruct Hm as [Hm|[Hm Hc]]; congruence).
  all: try match goal with
           | Hs : dbWriter_select _ _ ?ev _ = _, Hopen : done (sink _) = false |- _ =>
               apply dbWriter_select_frame in Hs;
               destruct Hs as (_ & _ & _ & _ & _ & Hs); specialize (Hs Hopen)
           end.
  all: tests_to_props.
  all: repeat split; rewrite ?length_insert; auto.
  all: try (apply Forall_insert; [done|discriminate]).
  all: try (unfold len in *; lia).
  all: try match goal with Hs : done _ = closes _ |- _ => by rewrite Hs end.
  - right. split; [done|]. unfold len in *. lia.
  - exfalso. destruct Hm as [?|[_ ?]]; [congruence|lia].
Qed.

Lemma reachable_stuck s : reachable config up p t s -> stuck config p s.
Proof.
  revert s. apply reachable_ind; [apply stuck_init|].
  intros a s s' Hs Hstep. by eapply stuck_step.
Qed.

(** X14: once nothing is left to crawl, only the sink can still move (it
    drains the result channel and flushes on its ticker): [main] stays at
    [wg.Wait()] and the workers at their [range], for ever. *)
Lemma quiescent_only_sink_moves a s s' :
  reachable config up p t s -> quiescent s ->
  step config up (jobQueueCap config p) a s = Some s' ->
  (exists E, a = SinkReceive E \/ a = SinkTick E) /\ quiescent s'.
Proof.
  destruct (sane_totalWorkers config p Hsane) as (Htw & Hcap & Hpos).
  intros Hr (Hm & Hq & Hs & Hw) H.
  destruct (reachable_stuck s Hr) as (Hjc & Hrc & Hd & Hm' & Hwg & _).
  unfold quiescent. step_cases H; simpl.
  all: try congruence.
  all: try match goal with
           | Hl : workers _ !! _ = Some _ |- _ =>
               apply (Forall_lookup_1 _ _ _ _ Hw) in Hl; discriminate Hl
           | Hl : senders _ !! _ = Some _ |- _ =>
               rewrite Hs in Hl; discriminate Hl
           end.
  all: tests_to_props.
  all: try (exfalso; destruct Hm' as [?|[_ ?]]; [congruence|lia]).
  all: split; [eauto|by repeat split].
Qed.

(** C1 (the code breaks it): for every sane configuration, every upstream
    and every schedule, [ScanTeamDrive] never gets past [wg.Wait()]: the
    WaitGroup counter never drops below the number of workers, the job
    queue is never closed, no worker exits, the result channel is never
    closed, the sink never signals done, and [ScanTeamDrive] never returns. *)
Theorem ScanTeamDrive_never_returns s :
  reachable config up p t s ->
  totalWorkers config p <= wg s /\
  jobQueueClosed s = false /\
  Forall (fun ws => ws <> Exited) (workers s) /\
  resultQueueClosed s = false /\
  done (sink s) = false /\
  main s <> Returned.
Proof.
  intros Hr.
  destruct (reachable_stuck s Hr) as (Hjc & Hrc & Hd & Hm & Hwg & _ & Hex).
  repeat split; auto. destruct Hm as [->|[-> _]]; discriminate.
Qed.

End NeverReturns.

(** Replacing the state of worker [w]: what the other workers contribute to
    a sum over the workers is unchanged. *)
Lemma worker_swap {B} (f : WorkerState -> list B) ws w old :
  ws !! w = Some old ->
  exists others, ws ≫= f ≡ₚ f old ++ others /\
                 forall new, <[w:=new]> ws ≫= f ≡ₚ f new ++ others.
Proof.
  intros Hw. exists ((take w ws ≫= f) ++ (drop (S w) ws ≫= f)). split.
  - rewrite <- (take_drop_middle ws w old Hw) at 1.
    rewrite bind_app, bind_cons. solve_Permutation.
  - intros new. rewrite insert_take_drop by (by eapply lookup_lt_Some).
    rewrite bind_app, bind_cons. solve_Permutation.
Qed.

Lemma folder_ids_app rs1 rs2 : folder_ids (rs1 ++ rs2) = folder_ids rs1 ++ folder_ids rs2.
Proof. unfold folder_ids. by rewrite filter_app, fmap_app. Qed.

Lemma folder_ids_record config folderID file :
  folder_ids [record_for config folderID file]
  = if isFolder file then [Drive.Id file] else [].
Proof.
  unfold folder_ids. rewrite filter_cons. simpl.
  destruct (isFolder file); by case_decide.
Qed.

Section Accounting.
Variables (config : ScanConfig) (up : Upstream) (p : ServiceAccountPool)
          (t : Database.Table).

Lemma accounted_init : accounted config (ScanTeamDrive_init config p t).
Proof.
  unfold accounted, ScanTeamDrive_init, fetched_records; simpl.
  repeat split; try done.
  induction (Z.to_nat (totalWorkers config p)); [done|]. simpl. done.
Qed.

Lemma accounted_step a s s' :
  accounted config s -> step config up (jobQueueCap config p) a s = Some s' ->
  accounted config s'.
Proof.
  intros (Hfp & Hfq & Henq & Hfet) H.
  unfold accounted, fetched_records, root_sent in *.
  step_cases H; simpl.
  all: try match goal with
           | Hs : dbWriter_select _ _ _ _ = _ |- _ =>
               apply dbWriter_select_frame in Hs;
               destruct Hs as (-> & -> & _)
           | Hs : fetch_page _ _ _ _ _ _ _ = _ |- _ =>
               apply fetch_page_frame in Hs;
               destruct Hs as (-> & -> & _)
           end.
  all: try match goal with
           | Hw : workers ?s !! ?w = Some ?old |- _ =>
               let others := fresh "others" in
               let Hold := fresh "Hold" in
               let Hnew := fresh "Hnew" in
               destruct (worker_swap (unemitted config) (workers s) w old Hw)
                 as (others & Hold & Hnew);
               rewrite ?Hnew, ?Hold; rewrite Hold in Hfet; simpl in *
           end.
  all: rewrite ?folder_ids_app, ?folder_ids_record, ?fmap_app.
  all: repeat match goal with H : isFolder _ = _ |- _ => rewrite H; clear H end.
  all: repeat match goal with H : main _ = _ |- _ => rewrite H end.
  all: rewrite ?app_nil_r; simpl in Henq.
  all: repeat split; auto.
  all: try (rewrite ?Hfp, ?Hfq, ?add64_wrap; f_equal; unfold len;
            rewrite ?length_app; simpl; lia).
  all: try match goal with
           | Hi : senders _ !! _ = Some _ |- _ =>
               rewrite (delete_Permutation _ _ _ Hi) in Henq
           end.
  all: try (rewrite <- Henq; solve_Permutation).
  all: try (rewrite !app_assoc; by apply Permutation_app_tail).
  all: try (rewrite Hfet; solve_Permutation).
  all: try (rewrite Hfet, <- list_fmap_compose; solve_Permutation).
Qed.

Lemma reachable_accounted s : reachable config up p t s -> accounted config s.
Proof.
  revert s. apply reachable_ind; [apply accounted_init|].
  intros a s s' Hs Hstep. by eapply accounted_step.
Qed.

(** C2, as the code has it: the ids sent on the job queue (or still held by
    a pending sender) are the root, sent once by [main], and one id per
    folder record emitted, that is one per occurrence of a folder in a
    fetched page; every item of a fetched page has been emitted or is still
    held by the worker ranging over that page; so when the root and the
    folders reported by the fetched pages are pairwise distinct, no id has
    been enqueued twice. *)
Theorem job_queue_accounting s :
  reachable config up p t s ->
  enqueued s ++ senders s ≡ₚ root_sent config s ++ folder_ids (emitted s) /\
  fetched_records config s ≡ₚ emitted s ++ (workers s ≫= unemitted config) /\
  (NoDup (TeamDriveID config :: folder_ids (fetched_records config s)) ->
   NoDup (enqueued s)).
Proof.
  intros Hr. destruct (reachable_accounted s Hr) as (_ & _ & Henq & Hfet).
  split; [done|]. split; [done|].
  intros Hnd.
  assert (Hids : folder_ids (fetched_records config s)
                 ≡ₚ folder_ids (emitted s)
                    ++ folder_ids (workers s ≫= unemitted config)).
  { unfold folder_ids. by rewrite Hfet, filter_app, fmap_app. }
  rewrite Hids in Hnd.
  assert (Hnd' : NoDup (root_sent config s ++ folder_ids (emitted s))).
  { eapply sublist_NoDup; [exact Hnd|].
    change (TeamDriveID config :: ?l) with ([TeamDriveID config] ++ l).
    apply sublist_app; [|by apply sublist_inserts_r].
    unfold root_sent. destruct (main s); try done. apply sublist_nil_l. }
  rewrite <- Henq in Hnd'. by apply NoDup_app in Hnd' as [? _].
Qed.

End Accounting.

(** *** Conservation: what is emitted plus what is yet to come *)

Lemma page_yield_cons config rest folderID file files next :
  page_yield config rest folderID (file :: files) next
  = record_for config folderID file
      :: (if isFolder file then rest (Drive.Id file) "" else [])
      ++ page_yield config rest folderID files next.
Proof.
  unfold page_yield, items_yield. rewrite bind_cons. simpl.
  by rewrite <- app_assoc.
Qed.

Lemma page_yield_nil config rest folderID next :
  page_yield config rest folderID [] next
  = if String.eqb next "" then [] else rest folderID next.
Proof. reflexivity. Qed.

Lemma idle_workers_yield {B} (f : WorkerState -> list B) n :
  f Idle = [] -> replicate n Idle ≫= f = [].
Proof.
  intros Hf. induction n as [|n IH]; [done|].
  change (replicate (S n) Idle) with (Idle :: replicate n Idle).
  by rewrite bind_cons, Hf, IH.
Qed.

Section Conservation.
Variables (config : ScanConfig) (up : Upstream) (p : ServiceAccountPool)
          (t : Database.Table)
          (rest : string -> string -> list Database.FileRecord).
Hypothesis Hrest : describes config up rest.

Lemma conserved_init : conserved config rest (ScanTeamDrive_init config p t).
Proof.
  unfold conserved, yet_to_come, ScanTeamDrive_init. simpl.
  rewrite idle_workers_yield by done. by rewrite app_nil_r.
Qed.

Lemma conserved_step a s s' :
  conserved config rest s -> step config up (jobQueueCap config p) a s = Some s' ->
  conserved config rest s'.
Proof.
  unfold conserved, yet_to_come. intros Hc H.
  step_cases H; simpl.
  all: try match goal with
           | Hw : workers ?s !! ?w = Some ?old |- _ =>
               let others := fresh "others" in
               let Hold := fresh "Hold" in
               let Hnew := fresh "Hnew" in
               destruct (worker_swap (worker_yield config rest) (workers s) w old Hw)
                 as (others & Hold & Hnew);
               rewrite ?Hnew, ?Hold; rewrite Hold in Hc;
               cbn [worker_yield] in Hc |- *
           end.
  all: repeat match goal with
              | H : jobQueue _ = _ |- _ => rewrite H
              | H : main _ = _ |- _ => rewrite H
              end.
  all: try match goal with
           | Hs : fetch_page _ ?req ?svc ?lim ?f ?tok ?st = _ |- _ =>
               let Hr := fresh "Hr" in
               pose proof (Hrest req svc lim f tok st) as Hr;
               rewrite Hs in Hr; simpl in Hr; rewrite Hr in Hc
           end.
  all: try exact Hc.
  all: try match goal with
           | Hi : senders _ !! _ = Some _ |- _ =>
               rewrite (delete_Permutation _ _ _ Hi) in Hc
           end.
  all: rewrite ?page_yield_cons, ?page_yield_nil in Hc.
  all: rewrite ?bind_app, ?bind_singleton, ?bind_cons.
  all: rewrite ?bind_app, ?bind_singleton, ?bind_cons in Hc.
  all: repeat match goal with H : isFolder _ = _ |- _ => rewrite H in *; clear H end.
  all: repeat match goal with
              | H : main _ = _ |- _ => rewrite H
              | H : String.eqb _ "" = _ |- _ => rewrite H in Hc; clear H
              end.
  all: simpl.
  all: try (exact Hc).
  all: try (etrans; [|exact Hc]; solve_Permutation).
Qed.

(** For a finite, acyclic tree, the records emitted so far and those yet
    to come are, together, the records of the tree: nothing is lost and
    nothing is emitted twice. *)
Lemma reachable_conserved s :
  reachable config up p t s -> conserved config rest s.
Proof.
  revert s. apply reachable_ind; [apply conserved_init|].
  intros a s s' Hs Hstep. by eapply conserved_step.
Qed.

(** Once nothing is left to crawl, exactly the records of the tree have
    been emitted. *)
Lemma quiescent_emitted s :
  reachable config up p t s -> quiescent s ->
  emitted s ≡ₚ rest (TeamDriveID config) "".
Proof.
  intros Hr (Hm & Hq & Hs & Hw). pose proof (reachable_conserved s Hr) as Hc.
  unfold conserved, yet_to_come in Hc. rewrite Hm, Hq, Hs in Hc.
  assert (Hidle : workers s ≫= worker_yield config rest = []).
  { clear Hc. induction Hw as [|ws l -> _ IH]; [done|].
    by rewrite bind_cons, IH. }
  rewrite Hidle in Hc. simpl in Hc. by rewrite app_nil_r in Hc.
Qed.

End Conservation.

(** *** The scenarios *)

Section Scenarios.
Import Scenario.

Lemma small_drive_described n :
  describes (drive_config n) small_drive (small_drive_rest (drive_config n)).
Proof.
  intros req svc lim folderID pageToken st.
  unfold fetch_page, small_drive_rest, small_drive, children. simpl.
  destruct (String.eqb_spec folderID "A") as [->|HA]; [reflexivity|].
  destruct (String.eqb_spec folderID "B") as [->|HB]; [|reflexivity].
  unfold page_yield, items_yield. simpl.
  destruct (String.eqb_spec "B" "A"); [discriminate|reflexivity].
Qed.

Lemma folder_ids_Permutation rs1 rs2 :
  rs1 ≡ₚ rs2 -> folder_ids rs1 ≡ₚ folder_ids rs2.
Proof. intros H. unfold folder_ids. by rewrite H. Qed.

(** C6, where the code departs from it: one worker crawling the small drive
    to the end leaves [FilesProcessed] at 4, not 3, and has emitted 4
    records, the one for the folder "B" among them. *)
Lemma small_drive_counts_folder_as_file :
  exists s,
    run (drive_config 1) small_drive (jobQueueCap (drive_config 1) one_account)
        crawl_small_drive (ScanTeamDrive_init (drive_config 1) one_account ∅)
    = Some s /\
    quiescent s /\
    FilesProcessed (stats s) = 4 /\ FoldersQueued (stats s) = 1 /\
    emitted s = small_drive_records (drive_config 1) /\
    length (emitted s) = 4%nat /\
    FilesProcessed (stats s) <> 3.
Proof.
  eexists. split; [vm_compute; reflexivity|].
  split; [|by repeat split].
  unfold quiescent. simpl. repeat split; auto.
Qed.

(** C6, as the code has it: [FilesProcessed] is incremented for every
    listed item, folders included, and [FoldersQueued] for every folder
    among them; whatever the number of workers and the schedule, a crawl of
    the small drive that has nothing left to do has emitted its 4 records
    (3 files and the folder "B", each with its parent's id), with
    [FilesProcessed = 4] and [FoldersQueued = 1]. *)
Theorem files_processed_counts_every_item :
  (forall config up p t s,
      reachable config up p t s ->
      FilesProcessed (stats s) = wrap64 (len (emitted s)) /\
      FoldersQueued (stats s) = wrap64 (len (folder_ids (emitted s)))) /\
  (forall n p t s,
      reachable (drive_config n) small_drive p t s -> quiescent s ->
      emitted s ≡ₚ small_drive_records (drive_config n) /\
      FilesProcessed (stats s) = 4 /\ FoldersQueued (stats s) = 1).
Proof.
  split.
  - intros config up p t s Hr.
    destruct (reachable_accounted config up p t s Hr) as (Hfp & Hfq & _).
    by split.
  - intros n p t s Hr Hq.
    destruct (reachable_accounted _ _ _ _ s Hr) as (Hfp & Hfq & _).
    pose proof (quiescent_emitted _ _ _ _ _ (small_drive_described n) s Hr Hq) as He.
    change (small_drive_rest (drive_config n) (TeamDriveID (drive_config n)) "")
      with (small_drive_records (drive_config n)) in He.
    split; [exact He|]. split.
    + rewrite Hfp. unfold len. by rewrite (Permutation_length He).
    + rewrite Hfq. unfold len.
      by rewrite (Permutation_length (folder_ids_Permutation _ _ He)).
Qed.

(** C2, where the code departs from it: the upstream reports the folder "B"
    on both pages of the listing of the root, and "B" is sent on the job
    queue twice. *)
Lemma repeated_folder_enqueued_twice :
  exists s,
    run (drive_config 1) repeating_drive (jobQueueCap (drive_config 1) one_account)
        crawl_repeating_drive (ScanTeamDrive_init (drive_config 1) one_account ∅)
    = Some s /\
    enqueued s = ["A"; "B"; "B"] /\
    ~ NoDup (enqueued s).
Proof.
  eexists. split; [vm_compute; reflexivity|]. split; [reflexivity|].
  simpl. intros Hnd. apply NoDup_cons in Hnd as [_ Hnd].
  apply NoDup_cons in Hnd as [Hin _]. apply Hin. by left.
Qed.

(** C5, where the code departs from it: a page that is rate limited twice
    and then succeeds takes three attempts but adds one to [APICallsTotal],
    which is counted per page request, outside the retry loop. *)
Lemma api_calls_total_counts_page_requests :
  attempts (executeWithRetry (respond flaky_drive 0 0%nat "X" "")).2 = 3%nat /\
  (fun s => (APICallsTotal (stats s), APICallsSuccess (stats s),
             APICallsFailed (stats s)))
    <$> run flaky_config flaky_drive (jobQueueCap flaky_config one_account)
            [MainSendRoot; WorkerTake 0; WorkerPage 0]
            (ScanTeamDrive_init flaky_config one_account ∅)
  = Some (1, 1, 0) /\
  1 <> 0 + 3.
Proof. split; [reflexivity|]. split; [vm_compute; reflexivity|lia]. Qed.

End Scenarios.

(** C5, as the code has it: when a page request is answered by a
    rate-limit-class error twice and then succeeds, the executor makes three
    attempts and sleeps twice ([baseDelay], then [2 * baseDelay]);
    [APICallsTotal] grows by one (it counts page requests, not attempts),
    [APICallsSuccess] grows by one, [APICallsFailed] is unchanged, and the
    worker goes on to the items of the page. *)
Theorem rate_limited_twice_then_success config up cap s w folderID svc lim
    pageToken e1 e2 fileList :
  panicked s = false ->
  workers s !! w = Some (Listing folderID svc lim pageToken) ->
  wait_err up (requests s) lim = None ->
  respond up (requests s) svc folderID pageToken 0 = Drive.Failed e1 ->
  rate_limited e1 = true ->
  respond up (requests s) svc folderID pageToken 1 = Drive.Failed e2 ->
  rate_limited e2 = true ->
  respond up (requests s) svc folderID pageToken 2 = Drive.Done fileList ->
  (fetch_page up (requests s) svc lim folderID pageToken (stats s)).2
    = mkEffects 3 [baseDelay; baseDelay * 2] [baseDelay; baseDelay * 2] /\
  exists s',
    step config up cap (WorkerPage w) s = Some s' /\
    APICallsTotal (stats s') = add64 (APICallsTotal (stats s)) 1 /\
    APICallsSuccess (stats s') = add64 (APICallsSuccess (stats s)) 1 /\
    APICallsFailed (stats s') = APICallsFailed (stats s) /\
    workers s' !! w = Some (Ranging folderID svc lim (Drive.Files fileList)
                                    (Drive.NextPageToken fileList)).
Proof.
  intros Hp Hw Hwait H0 Hr0 H1 Hr1 H2.
  assert (Hfetch :
    fetch_page up (requests s) svc lim folderID pageToken (stats s)
    = (inr fileList, add_APICallsSuccess 1 (add_APICallsTotal 1 (stats s)),
       mkEffects 3 [baseDelay; baseDelay * 2] [baseDelay; baseDelay * 2])).
  { unfold fetch_page, executeWithRetry. rewrite Hwait. simpl.
    rewrite H0, Hr0. simpl. rewrite H1, Hr1. simpl. rewrite H2. reflexivity. }
  split; [by rewrite Hfetch|].
  unfold step, listFolder_page. rewrite Hp, Hw, Hfetch.
  eexists. split; [reflexivity|].
  simpl. repeat split.
  apply list_lookup_insert_eq. by eapply lookup_lt_Some.
Qed.

(** The theorem at the flaky listing of "X". *)
Lemma rate_limited_twice_then_success_witness :
  exists s',
    step Scenario.flaky_config Scenario.flaky_drive
         (jobQueueCap Scenario.flaky_config Scenario.one_account)
         (WorkerPage 0) Scenario.flaky_listing = Some s' /\
    APICallsTotal (stats s') = 1 /\ APICallsSuccess (stats s') = 1 /\
    APICallsFailed (stats s') = 0.
Proof.
  destruct (rate_limited_twice_then_success Scenario.flaky_config
              Scenario.flaky_drive
              (jobQueueCap Scenario.flaky_config Scenario.one_account)
              Scenario.flaky_listing 0%nat "X" 0%nat 0%nat ""
              (GoogleApiError 429) (GoogleApiError 403)
              (Drive.mkFileList [Scenario.file1] ""))
    as (_ & s' & Hs & Ht & Hok & Hf & _); [reflexivity..|].
  exists s'. split; [exact Hs|]. rewrite Ht, Hok, Hf. by repeat split.
Defined.

(** *** The theorems at the scenarios *)

Lemma small_drive_end_reachable :
  reachable (Scenario.drive_config 1) Scenario.small_drive Scenario.one_account ∅
            Scenario.small_drive_end.
Proof. exists Scenario.crawl_small_drive. vm_compute. reflexivity. Defined.

Lemma small_drive_sane : sane (Scenario.drive_config 1) Scenario.one_account.
Proof. split; vm_compute; [discriminate|reflexivity]. Defined.

(** One worker crawls the small drive to the end: all four records are
    emitted, no job is left, and [ScanTeamDrive] still sits at [wg.Wait()]
    with the counter at 2 (the worker, and the job for "B"). *)
Lemma ScanTeamDrive_never_returns_witness :
  quiescent Scenario.small_drive_end /\
  wg Scenario.small_drive_end = 2 /\
  main Scenario.small_drive_end <> Returned.
Proof.
  split; [|split; [reflexivity|]].
  - unfold quiescent. vm_compute. repeat split; auto.
  - apply (ScanTeamDrive_never_returns (Scenario.drive_config 1)
             Scenario.small_drive Scenario.one_account ∅ small_drive_sane
             Scenario.small_drive_end small_drive_end_reachable).
Defined.

Lemma job_queue_accounting_witness :
  enqueued Scenario.small_drive_end = ["A"; "B"] /\
  NoDup (enqueued Scenario.small_drive_end).
Proof.
  split; [reflexivity|].
  apply (job_queue_accounting (Scenario.drive_config 1) Scenario.small_drive
           Scenario.one_account ∅ Scenario.small_drive_end
           small_drive_end_reachable).
  vm_compute. apply NoDup_cons. split; [|apply NoDup_singleton].
  intros H. apply list_elem_of_singleton in H. discriminate H.
Defined.


Lemma executeWithRetry_contract_witness :
  (executeWithRetry
     (Scenario.fails_then [GoogleApiError 429; GoogleApiError 500]
        (Drive.mkFileList [Scenario.file1] ""))).1
  = inr (Drive.mkFileList [Scenario.file1] "") /\
  attempts
    (executeWithRetry
       (Scenario.fails_then [GoogleApiError 429; GoogleApiError 500]
          (Drive.mkFileList [Scenario.file1] ""))).2 = 3%nat.
Proof.
  destruct (executeWithRetry_contract
              (Scenario.fails_then [GoogleApiError 429; GoogleApiError 500]
                 (Drive.mkFileList [Scenario.file1] ""))) as (_ & H & _).
  destruct (H 2%nat (Drive.mkFileList [Scenario.file1] "")) as (Hr & Ha & _).
  - lia.
  - intros j Hj. destruct j as [|[|j]]; [reflexivity|reflexivity|lia].
  - reflexivity.
  - by split.
Defined.

Lemma backoff_schedule_witness :
  sleeps (executeWithRetry (Scenario.always_fails (PlainError "timeout"))).2
    !! 3%nat = Some (8 * second).
Proof.
  destruct (backoff_schedule (Scenario.always_fails (PlainError "timeout")))
    as (H & _).
  apply (H 3%nat); [lia|]. intros j _. reflexivity.
Defined.

Lemma files_processed_counts_every_item_witness :
  FilesProcessed (stats Scenario.small_drive_end) = 4 /\
  FoldersQueued (stats Scenario.small_drive_end) = 1.
Proof.
  destruct files_processed_counts_every_item as (_ & H).
  destruct (H 1 Scenario.one_account ∅ Scenario.small_drive_end
              small_drive_end_reachable) as (_ & Hfp & Hfq).
  - unfold quiescent. vm_compute. repeat split; auto.
  - by split.
Defined.

Lemma arrivals_events records :
  (Scenario.arrivals records).*1 = Received <$> records /\
  Forall (fun ev => Database.commits ev.2) (Scenario.arrivals records).
Proof.
  unfold Scenario.arrivals. split.
  - rewrite <- list_fmap_compose. by apply list_fmap_ext.
  - apply Forall_fmap, Forall_forall. intros r _. by repeat split.
Defined.

Lemma dbWriter_flush_policy_witness :
  written (dbWriter 100 Scenario.fast_intake (zero_stats, new_sink ∅)).2
  = [(Scenario.numbered 0 100, None); (Scenario.numbered 100 100, None);
     (Scenario.numbered 200 50, None)] /\
  DBInserts (dbWriter 100 Scenario.fast_intake (zero_stats, new_sink ∅)).1 = 250.
Proof.
  destruct dbWriter_flush_policy as (_ & _ & H & _).
  destruct (arrivals_events (Scenario.numbered 0 250)) as (Hev & HE).
  destruct (H ∅ (Scenario.numbered 0 250)
              (Scenario.arrivals (Scenario.numbered 0 250)) (Database.healthy 0))
    as (Hw & Hn & _); [reflexivity | exact Hev | exact HE | by repeat split |].
  split; [|exact Hn]. exact Hw.
Defined.

Lemma BatchInsert_error_only_from_transaction_witness :
  Database.err
    (Database.BatchInsert Scenario.second_insert_fails (Scenario.numbered 0 3) ∅)
  = None /\
  dom (Database.table
         (Database.BatchInsert Scenario.second_insert_fails
            (Scenario.numbered 0 3) ∅))
  = {["id-0"; "id-2"]} /\
  DBInserts
    (flush Scenario.second_insert_fails
       (zero_stats, mkSink (Scenario.numbered 0 3) ∅ false [])).1 = 3.
Proof.
  destruct (BatchInsert_error_only_from_transaction Scenario.second_insert_fails
              (Scenario.numbered 0 3) ∅) as (_ & H & Hflush).
  destruct H as (Herr & Htable & _); [by repeat split|].
  split; [exact Herr|]. split.
  - rewrite Htable. vm_compute. reflexivity.
  - destruct (Hflush ltac:(by repeat split) zero_stats
                (mkSink (Scenario.numbered 0 3) ∅ false [])) as (Hn & _);
      [reflexivity | reflexivity | discriminate |].
    rewrite Hn. reflexivity.
Defined.
(** ** The credential pool in use *)

(** One call, while the cursor is below the top of [int32]: the entry lent
    is the one at the new cursor modulo the pool size, the same index for
    the service and for the limiter. *)
Lemma getNext_value (p : ServiceAccountPool) :
  pool_ok p -> 0 <= current p + 1 < 2 ^ 31 ->
  exists s l,
    getNext p = Some (s, l, mkPool (services p) (limiters p) (current p + 1)) /\
    services p !! (Z.to_nat (current p + 1) mod length (services p))%nat = Some s /\
    limiters p !! (Z.to_nat (current p + 1) mod length (services p))%nat = Some l.
Proof.
  intros (Hlen & Hpos & Hcur) Hc.
  unfold getNext, add32, rem. rewrite wrap32_id by lia.
  assert (Hn : 0 < len (services p)) by (unfold len; lia).
  destruct (Z.eqb_spec (len (services p)) 0) as [E|_]; [lia|]. cbn [mbind option_bind].
  pose proof (Z.rem_bound_pos (current p + 1) (len (services p)) ltac:(lia) Hn) as Hb.
  assert (Hidx : Z.to_nat (Z.rem (current p + 1) (len (services p)))
                 = (Z.to_nat (current p + 1) mod length (services p))%nat).
  { rewrite Z.rem_mod_nonneg by lia. unfold len.
    rewrite <- (Z2Nat.id (current p + 1)) at 1 by lia.
    rewrite <- Nat2Z.inj_mod. apply Nat2Z.id. }
  unfold index. destruct (Z.ltb_spec (Z.rem (current p + 1) (len (services p))) 0);
    [lia|].
  rewrite Hidx.
  assert (Hlt : (Z.to_nat (current p + 1) mod length (services p)
                 < length (services p))%nat) by (apply Nat.mod_upper_bound; lia).
  destruct (lookup_lt_is_Some_2 (services p) _ Hlt) as [s Hs].
  destruct (lookup_lt_is_Some_2 (limiters p)
              (Z.to_nat (current p + 1) mod length (services p))%nat) as [l Hl];
    [lia|].
  rewrite Hs, Hl. simpl. by exists s, l.
Qed.

(** [k] calls in a row, while the cursor stays below the top of [int32]. *)
Lemma getNext_times_value (p : ServiceAccountPool) (k : nat) :
  pool_ok p -> 0 <= current p -> current p + Z.of_nat k < 2 ^ 31 ->
  exists out,
    getNext_times k p
    = Some (out, mkPool (services p) (limiters p) (current p + Z.of_nat k)) /\
    length out = k /\
    (forall i, (i < k)%nat ->
       exists s l,
         out !! i = Some (s, l) /\
         services p !! ((Z.to_nat (current p) + 1 + i) mod length (services p))%nat
           = Some s /\
         limiters p !! ((Z.to_nat (current p) + 1 + i) mod length (services p))%nat
           = Some l).
Proof.
  revert p. induction k as [|k IH]; intros p Hok Hc Hk.
  - exists []. simpl. rewrite Z.add_0_r. split; [by destruct p|].
    split; [done|]. intros i Hi. lia.
  - destruct (getNext_value p Hok ltac:(lia)) as (s & l & Hg & Hs & Hl).
    set (p' := mkPool (services p) (limiters p) (current p + 1)) in *.
    assert (Hok' : pool_ok p').
    { destruct Hok as (? & ? & ?). unfold pool_ok, p'. simpl. repeat split; auto; lia. }
    destruct (IH p' Hok' ltac:(simpl; lia) ltac:(simpl; lia))
      as (out & Hrun & Hlen & Hout).
    exists ((s, l) :: out). cbn [getNext_times]. rewrite Hg.
    cbn [mbind option_bind]. rewrite Hrun. cbn [mbind option_bind].
    split; [simpl; do 3 f_equal; lia|]. split; [simpl; lia|].
    intros [|i] Hi.
    + exists s, l. split; [done|].
      replace (Z.to_nat (current p) + 1 + 0)%nat with (Z.to_nat (current p + 1))
        by lia. done.
    + destruct (Hout i ltac:(lia)) as (s' & l' & Ho & Hs' & Hl').
      exists s', l'. split; [done|]. simpl in Hs', Hl'.
      replace (Z.to_nat (current p) + 1 + S i)%nat
        with (Z.to_nat (current p + 1) + 1 + i)%nat by lia. done.
Qed.

(** X1: round robin. While the cursor stays below the top of [int32], [k]
    calls of [getNext] all succeed; the [i]-th of them lends the service
    and the limiter at index [(cursor + 1 + i) mod n] of a pool of [n]
    accounts, so a service always comes with its own limiter; and [n] calls
    in a row lend every account exactly once, in the pool's order, starting
    after the cursor. *)
Theorem getNext_round_robin (p : ServiceAccountPool) (k : nat) :
  pool_ok p -> 0 <= current p -> current p + Z.of_nat k < 2 ^ 31 ->
  exists out,
    getNext_times k p
    = Some (out, mkPool (services p) (limiters p) (current p + Z.of_nat k)) /\
    length out = k /\
    (forall i, (i < k)%nat ->
       exists s l,
         out !! i = Some (s, l) /\
         services p !! ((Z.to_nat (current p) + 1 + i) mod length (services p))%nat
           = Some s /\
         limiters p !! ((Z.to_nat (current p) + 1 + i) mod length (services p))%nat
           = Some l) /\
    (k = length (services p) ->
       out = rotate (Z.to_nat (current p) + 1) (zip (services p) (limiters p)) /\
       out ≡ₚ zip (services p) (limiters p)).
Proof.
  intros Hok Hc Hk.
  destruct (getNext_times_value p k Hok Hc Hk) as (out & Hrun & Hlen & Hout).
  exists out. split; [done|]. split; [done|]. split; [done|].
  intros ->.
  assert (Heq : out = rotate (Z.to_nat (current p) + 1)
                        (zip (services p) (limiters p))).
  { destruct Hok as (Hl & Hpos & _).
    assert (Hz : length (zip (services p) (limiters p)) = length (services p)).
    { rewrite length_zip_with. lia. }
    apply list_eq. intros i.
    destruct (decide (i < length (services p))%nat) as [Hi|Hi].
    - destruct (Hout i Hi) as (s & l & Ho & Hs & Hl').
      rewrite Ho, lookup_rotate_r by lia. rewrite Hz.
      unfold rotate_nat_add.
      replace (Z.to_nat ((Z.of_nat (Z.to_nat (current p) + 1) + Z.of_nat i)
                         `mod` Z.of_nat (length (services p))))
        with ((Z.to_nat (current p) + 1 + i) mod length (services p))%nat.
      + symmetry. apply lookup_zip_with_Some. by exists s, l.
      + rewrite <- Nat2Z.inj_add, <- Nat2Z.inj_mod. by rewrite Nat2Z.id.
    - rewrite !lookup_ge_None_2; [done| |lia].
      rewrite length_rotate. lia. }
  split; [done|]. rewrite Heq. unfold rotate.
  rewrite Permutation_app_comm. by rewrite take_drop.
Qed.

(** The theorem at a pool of three accounts with the cursor at 4: three
    calls lend the accounts 2, 0 and 1. *)
Lemma getNext_round_robin_witness :
  exists out,
    getNext_times 3 (mkPool [10; 11; 12]%nat [20; 21; 22]%nat 4)
    = Some (out, mkPool [10; 11; 12]%nat [20; 21; 22]%nat 7) /\
    out = [(12, 22); (10, 20); (11, 21)]%nat.
Proof.
  destruct (getNext_round_robin (mkPool [10; 11; 12]%nat [20; 21; 22]%nat 4) 3)
    as (out & Hrun & _ & _ & Hrot).
  - unfold pool_ok; simpl; lia.
  - simpl; lia.
  - simpl; lia.
  - exists out. split; [exact Hrun|]. destruct (Hrot eq_refl) as [-> _]. reflexivity.
Defined.

(** X2: a pool of exactly one account never panics, whatever the cursor and
    however many calls are made, the wrap of the cursor included: every call
    lends that one account. *)
Theorem getNext_single_account (s : Service) (l : Limiter) (c : Z) (k : nat) :
  - 2 ^ 31 <= c < 2 ^ 31 ->
  exists c',
    getNext_times k (mkPool [s] [l] c) = Some (replicate k (s, l), mkPool [s] [l] c') /\
    - 2 ^ 31 <= c' < 2 ^ 31.
Proof.
  revert c. induction k as [|k IH]; intros c Hc.
  - exists c. by split.
  - assert (Hw : - 2 ^ 31 <= add32 c 1 < 2 ^ 31).
    { unfold add32, wrap32.
      pose proof (Z.mod_pos_bound (c + 1 + 2 ^ 31) (2 ^ 32) ltac:(lia)). lia. }
    destruct (IH (add32 c 1) Hw) as (c' & Hrun & Hc').
    exists c'. split; [|done].
    cbn [getNext_times]. unfold getNext at 1. cbn [services limiters current].
    unfold rem, len. cbn [length]. change (Z.of_nat 1 =? 0) with false.
    cbn [mbind option_bind]. rewrite Z.rem_1_r.
    unfold index. simpl. rewrite Hrun. done.
Qed.

(** The theorem at the cursor that makes larger pools panic. *)
Lemma getNext_single_account_witness :
  exists c',
    getNext_times 3 (mkPool [7%nat] [8%nat] (2 ^ 31 - 1))
    = Some ([(7, 8); (7, 8); (7, 8)]%nat, mkPool [7%nat] [8%nat] c').
Proof.
  destruct (getNext_single_account 7%nat 8%nat (2 ^ 31 - 1) 3) as (c' & H & _).
  - lia.
  - exists c'. exact H.
Defined.
(** ** Building the pool *)

Lemma list_ascii_of_string_app (a b : string) :
  String.list_ascii_of_string (a +:+ b)
  = String.list_ascii_of_string a ++ String.list_ascii_of_string b.
Proof. induction a as [|c a IH]; simpl; [done|]. by rewrite IH. Qed.

(** When the scan stops at a dot, what it returns is the dot and what it
    has passed, none of which is a dot or a separator. *)
Lemma Ext_scan_dot rpath suffix ext :
  Ext_scan rpath suffix = "."%char :: ext ->
  exists passed rest,
    rpath = passed ++ "."%char :: rest /\ ext = rev passed ++ suffix.
Proof.
  revert suffix. induction rpath as [|c rpath IH]; intros suffix H; [done|].
  simpl in H. destruct (Ascii.eqb_spec c "/"); [done|].
  destruct (Ascii.eqb_spec c ".") as [->|Hd].
  - injection H as <-. by exists [], rpath.
  - destruct (IH _ H) as (passed & rest & -> & ->).
    exists (c :: passed), rest. split; [done|]. simpl. by rewrite <- app_assoc.
Qed.

(** X3: the test [filepath.Ext(file.Name()) != ".json"] of
    [InitServiceAccountPool] lets through exactly the names that end in
    ".json" (in lower case; the name ".json" itself included). *)
Theorem Ext_json (name : string) :
  Ext name = ".json" <-> exists stem, name = stem +:+ ".json".
Proof.
  unfold Ext. split.
  - intros H. apply (f_equal String.list_ascii_of_string) in H.
    rewrite String.list_ascii_of_string_of_list_ascii in H. simpl in H.
    destruct (Ext_scan_dot _ _ _ H) as (passed & rest & Hrev & Hext).
    rewrite app_nil_r in Hext.
    apply (f_equal (@rev _)) in Hext. rewrite rev_involutive in Hext.
    simpl in Hext. subst passed.
    apply (f_equal (@rev _)) in Hrev. rewrite rev_involutive in Hrev.
    simpl in Hrev. rewrite <- !app_assoc in Hrev. simpl in Hrev.
    exists (String.string_of_list_ascii (rev rest)).
    rewrite <- (String.string_of_list_ascii_of_string name), Hrev.
    generalize (rev rest). clear. intros l.
    induction l as [|c l IH]; simpl; [done|]. by rewrite IH.
  - intros [stem ->]. rewrite list_ascii_of_string_app, rev_app_distr. reflexivity.
Qed.

(** The loop over the directory entries appends one client per usable
    entry, each with a limiter of the configured rate, and leaves the
    cursor alone. *)
Lemma InitServiceAccountPool_loop H saDir ratePerAccount files pool lg :
  let r := foldl (InitServiceAccountPool_file H saDir ratePerAccount) (pool, lg)
                 files in
  services r.1 = services pool ++ omap (usable H saDir) files /\
  limiters r.1
  = limiters pool
      ++ replicate (length (omap (usable H saDir) files))
           (NewLimiter H ratePerAccount (mul64 ratePerAccount 2)) /\
  current r.1 = current pool.
Proof.
  revert pool lg. induction files as [|name files IH]; intros pool lg.
  - simpl. by rewrite !app_nil_r.
  - cbv zeta in *. cbn [foldl omap].
    assert (Hstep :
      InitServiceAccountPool_file H saDir ratePerAccount (pool, lg) name
      = match usable H saDir name with
        | Some service =>
            (mkPool (services pool ++ [service])
               (limiters pool
                  ++ [NewLimiter H ratePerAccount (mul64 ratePerAccount 2)])
               (current pool), lg)
        | None =>
            (pool, (InitServiceAccountPool_file H saDir ratePerAccount
                      (pool, lg) name).2)
        end).
    { unfold usable, InitServiceAccountPool_file.
      destruct (String.eqb (Ext name) ".json"); simpl; [|done].
      destruct (ReadFile H (Join H saDir name)) as [e|credentials]; [done|].
      by destruct (NewService H credentials) as [e|service]. }
    rewrite Hstep. destruct (usable H saDir name) as [service|] eqn:Hu.
    + destruct (IH (mkPool (services pool ++ [service])
                    (limiters pool
                       ++ [NewLimiter H ratePerAccount (mul64 ratePerAccount 2)])
                    (current pool)) lg) as (Hs & Hl & Hc).
      rewrite Hs, Hl, Hc. simpl. rewrite Hu. simpl. by rewrite <- !app_assoc.
    + simpl. rewrite Hu. apply IH.
Qed.

(** X4: [InitServiceAccountPool] fails exactly when the directory cannot be
    read or none of its entries is usable (a name ending in ".json" whose
    file can be read and whose content the client library accepts);
    otherwise the pool holds, in directory order, one client per usable
    entry and as many limiters, all of rate [ratePerAccount] and burst
    [ratePerAccount * 2], with the cursor at 0. Unusable entries are
    skipped, never fatal. *)
Theorem InitServiceAccountPool_spec H saDir ratePerAccount :
  (InitServiceAccountPool H saDir ratePerAccount).1
  = match ReadDir H saDir with
    | inl err => inl (CannotReadDirectory err)
    | inr files =>
        match omap (usable H saDir) files with
        | [] => inl (NoValidServiceAccounts saDir)
        | svcs =>
            inr (mkPool svcs
                   (replicate (length svcs)
                      (NewLimiter H ratePerAccount (mul64 ratePerAccount 2)))
                   0)
        end
    end.
Proof.
  unfold InitServiceAccountPool. destruct (ReadDir H saDir) as [e|files]; [done|].
  pose proof (InitServiceAccountPool_loop H saDir ratePerAccount files
                (mkPool [] [] 0) []) as Hloop.
  destruct (foldl _ _ files) as [pool lg]. simpl in Hloop.
  destruct Hloop as (Hs & Hl & Hc). unfold len. rewrite Hs.
  destruct (omap (usable H saDir) files) as [|svc svcs] eqn:Hu; simpl; [done|].
  destruct pool as [ss ls c]. simpl in *. by subst.
Qed.

(** X5: a pool that [InitServiceAccountPool] returns is never empty and has
    one limiter per service, so [getNext] cannot divide by zero or index
    past the limiters: its first [2^31 - 1] calls all succeed. *)
Theorem InitServiceAccountPool_pool_ok H saDir ratePerAccount pool lg :
  InitServiceAccountPool H saDir ratePerAccount = (inr pool, lg) ->
  pool_ok pool /\ 1 <= Count pool /\ current pool = 0 /\
  forall k, Z.of_nat k < 2 ^ 31 -> is_Some (getNext_times k pool).
Proof.
  unfold InitServiceAccountPool.
  destruct (ReadDir H saDir) as [e|files]; [done|].
  pose proof (InitServiceAccountPool_loop H saDir ratePerAccount files
                (mkPool [] [] 0) []) as Hloop.
  destruct (foldl _ _ files) as [pool' lg']. simpl in Hloop.
  destruct Hloop as (Hs & Hl & Hp).
  destruct (Z.eqb_spec (len (services pool')) 0) as [|Hne]; [done|].
  intros [= <- <-].
  assert (Hok : pool_ok pool').
  { unfold pool_ok, len in *. rewrite Hl, Hs, length_replicate, Hp.
    repeat split; try lia. destruct (omap _ files); simpl in *; [|lia].
    rewrite Hs in Hne. done. }
  split; [exact Hok|]. split; [destruct Hok as (_ & ? & _); unfold Count, len; lia|].
  split; [done|].
  intros k Hk.
  destruct (getNext_times_value pool' k Hok ltac:(lia) ltac:(lia))
    as (out & -> & _). by eexists.
Qed.

(** The theorem at a directory with two good keys among four entries. *)
Lemma InitServiceAccountPool_pool_ok_witness :
  InitServiceAccountPool Scenario.key_directory "keys" 10
  = (inr (mkPool [1; 3]%nat [30; 30]%nat 0),
     [Skipping "b.json" (PlainError "permission denied")]) /\
  pool_ok (mkPool [1; 3]%nat [30; 30]%nat 0).
Proof.
  split; [reflexivity|].
  apply (InitServiceAccountPool_pool_ok Scenario.key_directory "keys" 10
           (mkPool [1; 3]%nat [30; 30]%nat 0)
           [Skipping "b.json" (PlainError "permission denied")]).
  reflexivity.
Defined.
(** ** The retry executor: how long it can take *)

(** The sleeps of the loop are the scheduled delays of consecutive
    attempts, one per attempt that was followed by another pass (or by the
    fall out of the loop). *)
Lemma retry_loop_sleeps call remaining attempt fx :
  exists m,
    (m <= remaining)%nat /\
    sleeps (retry_loop call remaining attempt fx).2
    = sleeps fx ++ (backoff <$> seq attempt m) /\
    (attempts fx + m <= attempts (retry_loop call remaining attempt fx).2
                     <= attempts fx + m + 1)%nat.
Proof.
  revert attempt fx. induction remaining as [|n IH]; intros attempt fx; simpl.
  - exists 0%nat. simpl. rewrite app_nil_r. repeat split; lia.
  - destruct (call attempt) as [fl|e]; simpl.
    + exists 0%nat. simpl. rewrite app_nil_r. repeat split; lia.
    + assert (Hgo : forall fx',
        sleeps fx' = sleeps fx ++ [backoff attempt] ->
        attempts fx' = S (attempts fx) ->
        exists m,
          (m <= S n)%nat /\
          sleeps (retry_loop call n (S attempt) fx').2
          = sleeps fx ++ (backoff <$> seq attempt m) /\
          (attempts fx + m <= attempts (retry_loop call n (S attempt) fx').2
                           <= attempts fx + m + 1)%nat).
      { intros fx' Hs Ha. destruct (IH (S attempt) fx') as (m & Hm & Hs' & Ha').
        exists (S m). rewrite Hs', Hs, <- app_assoc. simpl.
        repeat split; lia. }
      destruct (rate_limited e); [by apply Hgo|].
      destruct (attempt <? _)%nat; [by apply Hgo|].
      exists 0%nat. simpl. rewrite app_nil_r. repeat split; lia.
Qed.

(** X6: whatever the upstream answers, one run of [executeWithRetry] sleeps
    for an initial segment of the delays 1 s, 2 s, 4 s, 8 s, 16 s, so for
    at most 31 s in all, and makes at most one attempt more than it
    sleeps. *)
Theorem executeWithRetry_sleeps_bounded (call : nat -> Drive.outcome) :
  sleeps (executeWithRetry call).2
    `prefix_of` [1 * second; 2 * second; 4 * second; 8 * second; 16 * second] /\
  foldr Z.add 0 (sleeps (executeWithRetry call).2) <= 31 * second /\
  (length (sleeps (executeWithRetry call).2)
   <= attempts (executeWithRetry call).2
   <= length (sleeps (executeWithRetry call).2) + 1)%nat.
Proof.
  unfold executeWithRetry.
  destruct (retry_loop_sleeps call maxRetries 0 no_effects) as (m & Hm & Hs & Ha).
  rewrite Hs. simpl in *. rewrite length_fmap, length_seq.
  unfold maxRetries in Hm.
  do 6 (destruct m as [|m];
        [split; [by eexists|]; split; [vm_compute; congruence|lia]|]).
  lia.
Qed.
(** ** The orchestrator: what every crawl keeps *)

(** One iteration of the sink's loop keeps the records it holds, in order. *)
Lemma dbWriter_select_keeps E batchSize ev st k st' k' :
  done k = false ->
  dbWriter_select E batchSize ev (st, k) = (st', k') ->
  handed_over k' ++ batch k' = handed_over k ++ pending_after ev (batch k).
Proof.
  intros Hd. rewrite dbWriter_select_spec by done. cbv zeta. unfold handed_over.
  destruct (flush_due _ _ _); intros [= <- <-]; simpl; [|done].
  by rewrite fmap_app, concat_app, app_nil_r; simpl; rewrite app_nil_r.
Qed.

Section Pipeline.
Variables (config : ScanConfig) (up : Upstream) (p : ServiceAccountPool)
          (t : Database.Table).

Lemma in_pipeline_step a s s' :
  in_pipeline s = emitted s ->
  step config up (jobQueueCap config p) a s = Some s' ->
  in_pipeline s' = emitted s'.
Proof.
  unfold in_pipeline. intros Hi H.
  step_cases H; simpl.
  all: try exact Hi.
  all: try (rewrite <- Hi, <- !app_assoc; reflexivity).
  all: match goal with
       | Hs : dbWriter_select _ _ _ _ = _ |- _ =>
           apply dbWriter_select_keeps in Hs; [|done]; simpl in Hs;
           rewrite <- Hi, !app_assoc, Hs
       end.
  all: repeat match goal with Hq : resultQueue _ = _ |- _ => rewrite Hq end.
  all: by rewrite <- ?app_assoc.
Qed.

(** X7: at every moment of a crawl, the records sent on the result channel
    so far are, in the order in which they were sent, the records of the
    batches the sink has handed to [BatchInsert], then those of its pending
    batch, then those still in the channel: the sink neither drops, nor
    duplicates, nor reorders a record. *)
Theorem sink_keeps_emission_order s :
  reachable config up p t s ->
  handed_over (sink s) ++ batch (sink s) ++ resultQueue s = emitted s.
Proof.
  revert s. apply reachable_ind; [done|].
  intros a s s' Hs Hstep. by eapply in_pipeline_step.
Qed.

End Pipeline.

Section TreeShape.
Variables (config : ScanConfig) (up : Upstream) (p : ServiceAccountPool)
          (t : Database.Table).

Lemma from_queue_init : from_queue (ScanTeamDrive_init config p t).
Proof.
  unfold from_queue, ScanTeamDrive_init. simpl. repeat split; try done.
  apply Forall_replicate. done.
Qed.

Lemma from_queue_more s ids :
  from_queue s ->
  Forall (fun id => id ∈ enqueued s ++ ids) (jobQueue s) /\
  Forall (fun ws => Forall (fun id => id ∈ enqueued s ++ ids) (listed_folder ws))
         (workers s) /\
  Forall (fun item => item.1 ∈ enqueued s ++ ids) (fetched s).
Proof.
  intros (Hq & Hw & Hf). repeat split.
  - eapply Forall_impl; [exact Hq|]. intros id Hid. apply elem_of_app. by left.
  - eapply Forall_impl; [exact Hw|]. intros ws Hws.
    eapply Forall_impl; [exact Hws|]. intros id Hid. apply elem_of_app. by left.
  - eapply Forall_impl; [exact Hf|]. intros id Hid. apply elem_of_app. by left.
Qed.

Lemma from_queue_step a s s' :
  from_queue s -> step config up (jobQueueCap config p) a s = Some s' ->
  from_queue s'.
Proof.
  intros Hfq H. pose proof Hfq as (Hq & Hw & Hf).
  unfold from_queue. step_cases H; simpl.
  all: try exact Hfq.
  all: try match goal with
           | |- context [enqueued _ ++ [?id]] =>
               destruct (from_queue_more s [id] Hfq) as (Hq' & Hw' & Hf')
           end.
  all: try match goal with
           | Hl : workers _ !! _ = Some _ |- _ =>
               pose proof (Forall_lookup_1 _ _ _ _ Hw Hl) as Hmine;
               simpl in Hmine
           end.
  all: try match type of Hq with
           | Forall _ (_ :: _) => apply Forall_cons in Hq; destruct Hq
           end.
  all: repeat split.
  all: rewrite ?Forall_app, ?Forall_singleton.
  all: try done.
  all: try (apply Forall_insert; [done|]; simpl).
  all: try (split; [done|]).
  all: try (apply elem_of_app; right; by left).
  all: try by apply Forall_singleton.
  all: try done.
  all: try (by apply proj1 in Hfq).
  rewrite Forall_fmap. apply Forall_forall. intros file _. simpl.
  by inversion Hmine.
Qed.

Lemma reachable_from_queue s : reachable config up p t s -> from_queue s.
Proof.
  revert s. apply reachable_ind; [apply from_queue_init|].
  intros a s s' Hs Hstep. by eapply from_queue_step.
Qed.

(** A step emits nothing, or a worker emits the record of the next item of
    the page it holds. *)
Lemma emitted_step a s s' :
  step config up (jobQueueCap config p) a s = Some s' ->
  emitted s' = emitted s \/
  exists w folderID svc lim file rest next,
    workers s !! w = Some (Ranging folderID svc lim (file :: rest) next) /\
    emitted s' = emitted s ++ [record_for config folderID file].
Proof.
  intros H. step_cases H; simpl; try (by left).
  all: right; by eexists _, _, _, _, _, _, _.
Qed.

Lemma parents_first_snoc root records r :
  parents_first root records ->
  (Database.ParentID r = root \/
   exists r', r' ∈ records /\ Database.IsFolder r' = true /\
              Database.ID r' = Database.ParentID r) ->
  parents_first root (records ++ [r]).
Proof.
  intros Hrecords Hr before x after Heq.
  destruct after as [|y after _] using rev_ind.
  - apply (app_inj_2 _ _ [r] [x]) in Heq as [<- [= <-]]; done.
  - rewrite app_comm_cons, app_assoc in Heq.
    apply (app_inj_2 _ _ [r] [y]) in Heq as [-> _]; [|done].
    by apply (Hrecords before x after).
Qed.

Lemma parents_first_prefix root l1 l2 :
  parents_first root (l1 ++ l2) -> parents_first root l1.
Proof.
  intros H before r after ->. apply (H before r (after ++ l2)).
  by rewrite <- app_assoc.
Qed.

Lemma hangs_under_more root l1 l2 id :
  hangs_under root l1 id -> hangs_under root (l1 ++ l2) id.
Proof.
  induction 1 as [|r Hin Hfolder _ IH]; [constructor|].
  apply hangs_below; [|done|done]. apply elem_of_app. by left.
Qed.

(** With the parents first, no record is an orphan. *)
Lemma parents_first_hang root records r :
  parents_first root records -> r ∈ records ->
  hangs_under root records (Database.ParentID r).
Proof.
  revert r. induction records as [|x records IH] using rev_ind; intros r Hpf Hin.
  { by apply elem_of_nil in Hin. }
  pose proof (parents_first_prefix _ _ _ Hpf) as Hpf'.
  assert (Hx : hangs_under root (records ++ [x]) (Database.ParentID x)).
  { destruct (Hpf records x [] eq_refl) as [->|(r' & Hr' & Hfolder & <-)];
      [constructor|].
    apply hangs_below; [apply elem_of_app; by left|done|].
    apply hangs_under_more. by apply IH. }
  apply elem_of_app in Hin as [Hin|Hin].
  - apply hangs_under_more. by apply IH.
  - apply list_elem_of_singleton in Hin. by subst.
Qed.

Lemma position_from_end_skip l1 l2 id :
  id ∉ l1 -> position_from_end (l1 ++ id :: l2) id = S (length l2).
Proof.
  induction l1 as [|x l1 IH]; simpl; intros Hnot.
  - by rewrite String.eqb_refl.
  - apply not_elem_of_cons in Hnot as [Hne Hnot].
    destruct (String.eqb_spec x id); [congruence|]. by apply IH.
Qed.

Lemma position_from_end_before l1 l2 id :
  id ∈ l1 -> (length l2 < position_from_end (l1 ++ l2) id)%nat.
Proof.
  induction l1 as [|x l1 IH]; simpl; intros Hin; [by apply elem_of_nil in Hin|].
  destruct (String.eqb_spec x id) as [_|Hne].
  - rewrite length_app. lia.
  - apply elem_of_cons in Hin as [->|Hin]; [done|]. by apply IH.
Qed.

(** When the ids are pairwise distinct, and none is the root's, the rank
    falls from every record's parent to the record. *)
Lemma parents_first_rank root records r :
  parents_first root records ->
  NoDup (root :: (Database.ID <$> records)) -> r ∈ records ->
  (emission_rank root records (Database.ID r)
   < emission_rank root records (Database.ParentID r))%nat.
Proof.
  intros Hpf Hnd Hin. apply NoDup_cons in Hnd as [Hroot Hnd].
  apply list_elem_of_split in Hin as (before & after & ->).
  rewrite fmap_app, fmap_cons in Hnd, Hroot.
  assert (Hmine : Database.ID r ∉ Database.ID <$> before).
  { apply NoDup_app in Hnd as (_ & Hdisj & _). intros Hb.
    apply (Hdisj _ Hb). by left. }
  assert (Hrank : emission_rank root (before ++ r :: after) (Database.ID r)
                  = S (length after)).
  { unfold emission_rank.
    destruct (String.eqb_spec (Database.ID r) root) as [Heq|_].
    - exfalso. apply Hroot. rewrite <- Heq. apply elem_of_app. right. by left.
    - rewrite fmap_app, fmap_cons, position_from_end_skip by done.
      by rewrite length_fmap. }
  rewrite Hrank. unfold emission_rank.
  destruct (Hpf before r after eq_refl) as [->|(r' & Hr' & _ & <-)].
  - rewrite String.eqb_refl, length_app. simpl. lia.
  - destruct (String.eqb_spec (Database.ID r') root) as [_|_].
    + rewrite length_app. simpl. lia.
    + rewrite fmap_app.
      pose proof (position_from_end_before (Database.ID <$> before)
                    (Database.ID <$> r :: after) (Database.ID r')
                    ltac:(by apply list_elem_of_fmap_2)) as Hpos.
      rewrite length_fmap in Hpos. simpl in Hpos. simpl. lia.
Qed.

Lemma reachable_parents_first s :
  reachable config up p t s -> parents_first (TeamDriveID config) (emitted s).
Proof.
  intros Hr.
  cut (accounted config s /\ from_queue s
       /\ parents_first (TeamDriveID config) (emitted s)); [tauto|].
  revert s Hr. apply reachable_ind.
  { split; [apply accounted_init|]. split; [apply from_queue_init|].
    intros before r after Heq. by destruct before. }
  intros a s s' (Hacc & Hfq & IH) Hstep.
  split; [by eapply accounted_step|]. split; [by eapply from_queue_step|].
  destruct (emitted_step a s s' Hstep)
    as [->|(w & folderID & svc & lim & file & rest & next & Hw & ->)]; [done|].
  apply parents_first_snoc; [done|]. simpl.
  destruct Hacc as (_ & _ & Henq & _).
  destruct Hfq as (_ & Hlisted & _).
  pose proof (Forall_lookup_1 _ _ _ _ Hlisted Hw) as Hmine. simpl in Hmine.
  rewrite Forall_singleton in Hmine.
  assert (Hsrc : folderID ∈ root_sent config s ++ folder_ids (emitted s)).
  { rewrite <- Henq. apply elem_of_app. by left. }
  apply elem_of_app in Hsrc as [Hroot|Hfolder].
  - left. unfold root_sent in Hroot.
    destruct (main s); try (by apply list_elem_of_singleton in Hroot).
    by apply elem_of_nil in Hroot.
  - right. unfold folder_ids in Hfolder. apply list_elem_of_fmap in Hfolder.
    destruct Hfolder as (r' & -> & Hr'). apply list_elem_of_filter in Hr'.
    destruct Hr' as [Hfold Hr']. by exists r'.
Qed.

(** X8: every record a crawl emits carries the drive's id and name, has
    its name as its path, is marked as a folder exactly when its MIME type
    is the folder type, and has no aggregate filled in. Its parent is the
    root of the drive or a folder whose record was emitted before it, so no
    record is an orphan: every one hangs under the root through folders
    that have been emitted. When the ids emitted are pairwise distinct and
    none is the root's, the records form a tree: a rank falls from every
    parent to its children, no record is its own ancestor, and the table
    that holds these records is one on which [GetFolderSize] ends. (An
    upstream that lists an id twice, or a folder inside itself, breaks
    that.) *)
Theorem emitted_records_hang_under_root s :
  reachable config up p t s ->
  Forall (fun r =>
            Database.TeamDriveID r = TeamDriveID config /\
            Database.TeamDriveName r = TeamDriveName config /\
            Database.Path r = Database.Name r /\
            Database.IsFolder r
            = String.eqb (Database.MimeType r) Drive.folderMimeType /\
            Database.TotalSize r = 0 /\ Database.ChildCount r = 0)
         (emitted s) /\
  parents_first (TeamDriveID config) (emitted s) /\
  (forall r, r ∈ emitted s ->
     hangs_under (TeamDriveID config) (emitted s) (Database.ParentID r)) /\
  (NoDup (TeamDriveID config :: (Database.ID <$> emitted s)) ->
   (forall r, r ∈ emitted s ->
      (emission_rank (TeamDriveID config) (emitted s) (Database.ID r)
       < emission_rank (TeamDriveID config) (emitted s) (Database.ParentID r))%nat) /\
   forall now,
     Database.keyed (Database.upsert_all now (emitted s) ∅) /\
     Database.acyclic (Database.upsert_all now (emitted s) ∅)).
Proof.
  intros Hr. pose proof (reachable_parents_first s Hr) as Hpf.
  split; [|split; [done|split]].
  - destruct (reachable_accounted config up p t s Hr) as (_ & _ & _ & Hfet).
    apply Forall_forall. intros r Hin.
    assert (Hin' : r ∈ fetched_records config s).
    { rewrite Hfet. apply elem_of_app. by left. }
    unfold fetched_records in Hin'. apply list_elem_of_fmap in Hin'.
    by destruct Hin' as ([folderID file] & -> & _).
  - intros r Hin. by apply parents_first_hang.
  - intros Hnd. split; [intros r Hin; by apply parents_first_rank|].
    intros now. split.
    + apply upsert_all_keyed. intros k row Hk. by rewrite lookup_empty in Hk.
    + exists (emission_rank (TeamDriveID config) (emitted s)).
      intros k row. rewrite lookup_upsert_all.
      destruct (Database.last_with_id k (emitted s)) as [r|] eqn:Hlast;
        [|by rewrite lookup_empty].
      intros [= <-]. simpl. apply last_with_id_Some in Hlast as [Hin _].
      by apply parents_first_rank.
Qed.

End TreeShape.

(** The theorem at the end of the crawl of the small drive: the folder "B"
    hangs under the root "A", and the table of the four records is one on
    which the recursive query ends. *)
Lemma emitted_records_hang_under_root_witness :
  hangs_under "A" (emitted Scenario.small_drive_end) "B" /\
  Database.acyclic (Database.upsert_all 0 (emitted Scenario.small_drive_end) ∅).
Proof.
  destruct (emitted_records_hang_under_root (Scenario.drive_config 1)
              Scenario.small_drive Scenario.one_account ∅
              Scenario.small_drive_end small_drive_end_reachable)
    as (_ & _ & Hhang & Htree).
  split.
  - apply (Hhang (record_for (Scenario.drive_config 1) "B" Scenario.file3)).
    vm_compute. do 3 right. left.
  - apply Htree. vm_compute.
    repeat (apply NoDup_cons; split;
            [rewrite ?elem_of_cons, elem_of_nil; intros H;
             repeat destruct H as [H|H]; try discriminate H; done|]).
    apply NoDup_nil_2.
Defined.


(** The theorem on the pipeline at the end of the crawl of the small drive,
    where the four records are still in the channel. *)
Lemma sink_keeps_emission_order_witness :
  resultQueue Scenario.small_drive_end = emitted Scenario.small_drive_end.
Proof.
  exact (sink_keeps_emission_order (Scenario.drive_config 1) Scenario.small_drive
           Scenario.one_account ∅ Scenario.small_drive_end
           small_drive_end_reachable).
Defined.

Section WaitGroup.
Variables (config : ScanConfig) (up : Upstream) (p : ServiceAccountPool)
          (t : Database.Table).


End WaitGroup.


Lemma wrap64_add_m a b c : wrap64 (a + wrap64 b + c) = wrap64 (a + b + c).
Proof.
  replace (a + wrap64 b + c) with (wrap64 b + (a + c)) by lia.
  rewrite wrap64_add_l. f_equal. lia.
Qed.

Lemma wrap64_add_ll a b c : wrap64 (wrap64 a + b + c) = wrap64 (a + b + c).
Proof.
  replace (wrap64 a + b + c) with (wrap64 a + (b + c)) by lia.
  rewrite wrap64_add_l. f_equal. lia.
Qed.

Lemma wrap64_cong a b c : wrap64 a = wrap64 b -> wrap64 (a + c) = wrap64 (b + c).
Proof. intros H. by rewrite <- (wrap64_add_l a), H, wrap64_add_l. Qed.

(** What a page request does to the API-call counters. *)
Lemma fetch_page_counts up req svc lim folderID pageToken st r st' fx :
  fetch_page up req svc lim folderID pageToken st = (r, st', fx) ->
  APICallsTotal st'
  = match wait_err up req lim with
    | Some _ => APICallsTotal st
    | None => add64 (APICallsTotal st) 1
    end /\
  APICallsSuccess st'
  = match r with
    | inl _ => APICallsSuccess st
    | inr _ => add64 (APICallsSuccess st) 1
    end.
Proof.
  unfold fetch_page. destruct (wait_err up req lim); [by intros [= <- <- <-]|].
  destruct (executeWithRetry _) as [[e|fl] fx']; by intros [= <- <- <-].
Qed.

Lemma call_reachable_ind config up p t (Inv : Calls -> Prop) :
  Inv (mkCalls (ScanTeamDrive_init config p t) ∅) ->
  (forall a c c', Inv c -> call_step config up (jobQueueCap config p) a c = Some c' ->
                  Inv c') ->
  forall c, call_reachable config up p t c -> Inv c.
Proof.
  intros Hinit Hstep c [schedule Hrun]. revert Hrun Hinit.
  generalize (mkCalls (ScanTeamDrive_init config p t) ∅). revert c.
  induction schedule as [|a rest IH]; intros c c0 Hrun H0; simpl in Hrun.
  - by injection Hrun as <-.
  - destruct (call_step config up (jobQueueCap config p) a c0) as [c1|] eqn:Ha;
      [|done].
    simpl in Hrun. eapply IH; [exact Hrun|]. by eapply Hstep.
Qed.

Lemma call_run_app config up cap l1 l2 c :
  call_run config up cap (l1 ++ l2) c
  = c' ← call_run config up cap l1 c; call_run config up cap l2 c'.
Proof.
  revert c. induction l1 as [|a l1 IH]; intros c; simpl; [done|].
  destruct (call_step config up cap a c); simpl; [apply IH|done].
Qed.

(** A step of the crawl other than a page request leaves the counters of
    API calls, the number of requests and the number of workers alone. *)
Lemma step_api_frame config up cap a s s' :
  (forall w, a <> WorkerPage w) ->
  step config up cap a s = Some s' ->
  APICallsTotal (stats s') = APICallsTotal (stats s) /\
  APICallsSuccess (stats s') = APICallsSuccess (stats s) /\
  APICallsFailed (stats s') = APICallsFailed (stats s) /\
  requests s' = requests s /\
  length (workers s') = length (workers s).
Proof.
  intros Ha H. step_cases H; simpl.
  all: try (exfalso; by eapply Ha).
  all: try match goal with
           | Hs : dbWriter_select _ _ _ _ = _ |- _ =>
               apply dbWriter_select_frame in Hs;
               destruct Hs as (_ & _ & -> & -> & -> & _)
           end.
  all: by rewrite ?length_insert.
Qed.

(** One pass through the head of the page loop, as the step relation takes
    it, is the two halves one after the other. *)
Lemma listFolder_page_halves config up cap w s s' :
  step config up cap (WorkerPage w) s = Some s' ->
  exists schedule,
    call_run config up cap schedule (mkCalls s ∅) = Some (mkCalls s' ∅).
Proof.
  unfold step. destruct (panicked s) eqn:Hp; [done|].
  unfold listFolder_page, fetch_page.
  destruct (workers s !! w) as [[|folderID svc lim pageToken| |]|] eqn:Hw;
    try done.
  destruct (wait_err up (requests s) lim) as [e|] eqn:Hwait.
  - intros [= <-]. exists [Crawl (WorkerPage w)]. simpl.
    unfold call_step, listFolder_wait. simpl.
    by rewrite Hp, Hw, Hwait, lookup_empty.
  - intros H. exists [Crawl (WorkerPage w); CallReturns w]. simpl.
    unfold call_step, listFolder_wait. simpl. rewrite Hp, Hw, Hwait.
    rewrite lookup_empty. simpl. rewrite Hp. unfold listFolder_call. simpl.
    rewrite Hw, lookup_insert_eq.
    destruct (executeWithRetry _) as [[err|fileList] fx];
      injection H as <-; simpl; by rewrite insert_empty, delete_singleton_eq.
Qed.

Section ApiCounters.
Variables (config : ScanConfig) (up : Upstream) (p : ServiceAccountPool)
          (t : Database.Table).

(** Every state of the crawl is one of the finer crawl, with no call in
    flight. *)
Lemma reachable_call_reachable s :
  reachable config up p t s -> call_reachable config up p t (mkCalls s ∅).
Proof.
  revert s. apply reachable_ind; [by exists []|].
  intros a s s' [schedule Hrun] Hstep.
  assert (Hmore : exists more,
    call_run config up (jobQueueCap config p) more (mkCalls s ∅)
    = Some (mkCalls s' ∅)).
  { destruct a; try (by eapply listFolder_page_halves).
    all: eexists [Crawl _]; simpl; unfold call_step; simpl.
    all: pose proof Hstep as Hp; unfold step in Hp.
    all: destruct (panicked s); [done|].
    all: by rewrite Hstep. }
  destruct Hmore as [more Hmore]. exists (schedule ++ more).
  by rewrite call_run_app, Hrun.
Qed.

(** X10: the counters of API calls, at every moment of a crawl, the
    moments between [limiter.Wait] and the return of [executeWithRetry]
    included (the crawl with the page request in two halves has every
    state of the crawl that takes it as one step). Every pass through the head of the page loop that has ended
    is counted exactly once, in [APICallsSuccess] when the page came back
    and in [APICallsFailed] when the listing was given up; the others are
    calls in flight, one per worker at most. As long as the limiter never
    returns an error, [APICallsTotal] counts the passes that have ended and
    the calls in flight: it is ahead of
    [APICallsSuccess + APICallsFailed] by the number of calls in flight,
    and equal to it when none is. *)
Theorem api_calls_accounted :
  (forall s, reachable config up p t s ->
             call_reachable config up p t (mkCalls s ∅)) /\
  (forall c, call_reachable config up p t c ->
     let st := stats (crawl c) in
     let calls := Z.of_nat (size (in_flight c)) in
     wrap64 (APICallsSuccess st + APICallsFailed st + calls)
       = wrap64 (Z.of_nat (requests (crawl c))) /\
     calls <= Z.of_nat (length (workers (crawl c))) /\
     length (workers (crawl c)) = Z.to_nat (totalWorkers config p) /\
     ((forall req lim, wait_err up req lim = None) ->
      APICallsTotal st = wrap64 (Z.of_nat (requests (crawl c))) /\
      APICallsTotal st
      = wrap64 (APICallsSuccess st + APICallsFailed st + calls) /\
      (in_flight c = ∅ ->
       APICallsTotal st = wrap64 (APICallsSuccess st + APICallsFailed st)))).
Proof.
  split; [exact reachable_call_reachable|].
  intros c Hr. cbv zeta.
  assert (Hinv :
    wrap64 (APICallsSuccess (stats (crawl c)) + APICallsFailed (stats (crawl c))
            + Z.of_nat (size (in_flight c)))
      = wrap64 (Z.of_nat (requests (crawl c))) /\
    (forall w, is_Some (in_flight c !! w) ->
               (w < length (workers (crawl c)))%nat) /\
    length (workers (crawl c)) = Z.to_nat (totalWorkers config p) /\
    ((forall req lim, wait_err up req lim = None) ->
     APICallsTotal (stats (crawl c)) = wrap64 (Z.of_nat (requests (crawl c))))).
  { revert c Hr. apply call_reachable_ind.
    { simpl. split; [done|]. split; [intros w [? Hw]; by rewrite lookup_empty in Hw|].
      split; [by rewrite length_replicate|done]. }
    intros a c c' (Hsum & Hdom & Hlen & Htot) H.
    unfold call_step in H. destruct (panicked (crawl c)); [done|].
    assert (Hother : forall a0, (forall w, a0 <> WorkerPage w) ->
      (s' ← step config up (jobQueueCap config p) a0 (crawl c);
       Some (mkCalls s' (in_flight c))) = Some c' ->
      wrap64 (APICallsSuccess (stats (crawl c')) + APICallsFailed (stats (crawl c'))
              + Z.of_nat (size (in_flight c')))
        = wrap64 (Z.of_nat (requests (crawl c'))) /\
      (forall w, is_Some (in_flight c' !! w) ->
                 (w < length (workers (crawl c')))%nat) /\
      length (workers (crawl c')) = Z.to_nat (totalWorkers config p) /\
      ((forall req lim, wait_err up req lim = None) ->
       APICallsTotal (stats (crawl c'))
       = wrap64 (Z.of_nat (requests (crawl c'))))).
    { intros a0 Ha0 H0.
      destruct (step config up (jobQueueCap config p) a0 (crawl c)) as [s'|] eqn:Hs;
        [|done].
      simpl in H0. injection H0 as <-. simpl.
      destruct (step_api_frame _ _ _ _ _ _ Ha0 Hs) as (-> & -> & -> & -> & ->).
      done. }
    destruct a as [a|w].
    - destruct a as [| | | |w'|w'|w|w'|i|E|E|E];
        try (eapply Hother; [|exact H]; intros ?; discriminate).
      (* [limiter.Wait] returns *)
      unfold listFolder_wait in H.
      destruct (workers (crawl c) !! w)
        as [[|folderID svc lim pageToken| |]|] eqn:Hw; try done.
      destruct (in_flight c !! w) eqn:Hfl; [done|].
      apply lookup_lt_Some in Hw.
      destruct (wait_err up (requests (crawl c)) lim) eqn:Hwait;
        injection H as <-; simpl.
      + rewrite length_insert. split; [|split; [done|split; [done|]]].
        * unfold add64. rewrite wrap64_add_m, Nat2Z.inj_succ, <- Z.add_1_r.
          rewrite <- (wrap64_cong _ _ 1 Hsum). f_equal. lia.
        * intros Hnever. by rewrite Hnever in Hwait.
      + rewrite map_size_insert_None by done.
        split; [|split; [|split; [done|]]].
        * rewrite !Nat2Z.inj_succ, <- !Z.add_1_r.
          rewrite <- (wrap64_cong _ _ 1 Hsum). f_equal. lia.
        * intros w' Hw'. destruct (decide (w' = w)) as [->|Hne]; [done|].
          rewrite lookup_insert_ne in Hw' by done. by apply Hdom.
        * intros Hnever. unfold add64. rewrite (Htot Hnever), wrap64_add_l.
          f_equal. lia.
    - (* [executeWithRetry] returns *)
      unfold listFolder_call in H.
      destruct (workers (crawl c) !! w)
        as [[|folderID svc lim pageToken| |]|] eqn:Hw; try done.
      destruct (in_flight c !! w) as [req|] eqn:Hfl; [|done].
      assert (Hsize : size (in_flight c) = S (size (delete w (in_flight c)))).
      { rewrite map_size_delete_Some by done.
        assert (size (in_flight c) <> 0%nat); [|lia].
        intros Hz. apply map_size_empty_inv in Hz. by rewrite Hz in Hfl. }
      assert (Hdom' : forall w', is_Some (delete w (in_flight c) !! w') ->
                                 (w' < length (workers (crawl c)))%nat).
      { intros w' Hw'. apply Hdom.
        destruct (decide (w' = w)) as [->|Hne]; [done|].
        by rewrite lookup_delete_ne in Hw'. }
      rewrite Hsize in Hsum.
      destruct (executeWithRetry _) as [[err|fileList] fx];
        injection H as <-; simpl; rewrite length_insert.
      all: split; [|split; [done|split; [done|done]]].
      all: rewrite <- Hsum; unfold add64.
      + rewrite wrap64_add_m. f_equal. lia.
      + rewrite wrap64_add_ll. f_equal. lia. }
  destruct Hinv as (Hsum & Hdom & Hlen & Htot).
  split; [done|]. split; [|split; [done|]].
  - assert (Hsub : dom (in_flight c) ⊆ set_seq 0 (length (workers (crawl c)))).
    { intros w Hw. apply elem_of_dom in Hw. apply elem_of_set_seq.
      specialize (Hdom w Hw). lia. }
    apply subseteq_size in Hsub. rewrite size_dom, size_set_seq in Hsub. lia.
  - intros Hnever. split; [by apply Htot|]. split; [by rewrite Htot, Hsum|].
    intros Hnone. rewrite Htot, <- Hsum, Hnone by done.
    rewrite map_size_empty. f_equal. simpl. lia.
Qed.

End ApiCounters.

(** The theorem on the crawl of the small drive, once its worker has been
    let through by the limiter for the first page: the call is counted in
    [APICallsTotal] and in neither of the other two. *)
Lemma api_calls_accounted_witness :
  exists c,
    call_run (Scenario.drive_config 1) Scenario.small_drive
      (jobQueueCap (Scenario.drive_config 1) Scenario.one_account)
      Scenario.call_in_flight
      (mkCalls (ScanTeamDrive_init (Scenario.drive_config 1)
                  Scenario.one_account ∅) ∅)
    = Some c /\
    size (in_flight c) = 1%nat /\
    APICallsTotal (stats (crawl c)) = 1 /\
    APICallsSuccess (stats (crawl c)) = 0 /\
    APICallsFailed (stats (crawl c)) = 0.
Proof.
  destruct (call_run (Scenario.drive_config 1) Scenario.small_drive
              (jobQueueCap (Scenario.drive_config 1) Scenario.one_account)
              Scenario.call_in_flight
              (mkCalls (ScanTeamDrive_init (Scenario.drive_config 1)
                          Scenario.one_account ∅) ∅)) as [c|] eqn:Hrun;
    [|vm_compute in Hrun; discriminate Hrun].
  exists c. split; [reflexivity|].
  destruct (api_calls_accounted (Scenario.drive_config 1) Scenario.small_drive
              Scenario.one_account ∅) as [_ Hcalls].
  destruct (Hcalls c ltac:(by eexists)) as (_ & _ & _ & H).
  destruct (H ltac:(reflexivity)) as (_ & Htot & _).
  assert (Hc : size (in_flight c) = 1%nat /\
               APICallsSuccess (stats (crawl c)) = 0 /\
               APICallsFailed (stats (crawl c)) = 0).
  { vm_compute in Hrun. injection Hrun as <-. by vm_compute. }
  destruct Hc as (Hsize & Hsucc & Hfail).
  split; [exact Hsize|]. split; [|by split].
  rewrite Htot, Hsize, Hsucc, Hfail. reflexivity.
Defined.

(** X11: with no worker at all ([WorkersPerAccount] is 0, or the pool is
    empty) nothing ever happens: the job queue has no buffer and nobody
    receives from it, so [ScanTeamDrive] stays blocked on sending the root
    id; no request is issued and no record is emitted, and the ticks of the
    sink find nothing to write. *)
Theorem no_workers_no_crawl config up p t s :
  totalWorkers config p = 0 ->
  reachable config up p t s ->
  s = ScanTeamDrive_init config p t.
Proof.
  intros Hz. revert s. apply reachable_ind; [done|].
  intros a s s' -> H. unfold jobQueueCap in H. rewrite Hz in H.
  unfold ScanTeamDrive_init in *. rewrite Hz in *.
  change (mul64 0 10) with 0 in *. simpl in *.
  step_cases H; simpl in *; try discriminate.
  all: repeat match goal with
              | Hs : (_, _) = (_, _) |- _ => injection Hs as <- <-
              end.
  all: reflexivity.
Qed.

(** The theorem at a configuration with [WorkersPerAccount = 0], after two
    ticks of the sink. *)
Lemma no_workers_no_crawl_witness :
  run (Scenario.drive_config 0) Scenario.small_drive
      (jobQueueCap (Scenario.drive_config 0) Scenario.one_account)
      [SinkTick (Database.healthy 0); SinkTick (Database.healthy 1)]
      (ScanTeamDrive_init (Scenario.drive_config 0) Scenario.one_account ∅)
  = Some (ScanTeamDrive_init (Scenario.drive_config 0) Scenario.one_account ∅).
Proof.
  assert (Hr : exists s,
    run (Scenario.drive_config 0) Scenario.small_drive
        (jobQueueCap (Scenario.drive_config 0) Scenario.one_account)
        [SinkTick (Database.healthy 0); SinkTick (Database.healthy 1)]
        (ScanTeamDrive_init (Scenario.drive_config 0) Scenario.one_account ∅)
    = Some s) by (eexists; reflexivity).
  destruct Hr as [s Hs]. rewrite Hs. f_equal.
  apply (no_workers_no_crawl (Scenario.drive_config 0) Scenario.small_drive
           Scenario.one_account ∅ s); [reflexivity|].
  by exists [SinkTick (Database.healthy 0); SinkTick (Database.healthy 1)].
Defined.
(** ** The orchestrator: the work of a crawl comes to an end *)

Lemma sum_nat_app l1 l2 : sum_nat (l1 ++ l2) = (sum_nat l1 + sum_nat l2)%nat.
Proof. induction l1 as [|x l1 IH]; simpl; [done|]. rewrite IH. lia. Qed.

Lemma sum_nat_insert {A} (f : A -> nat) l i old new :
  l !! i = Some old ->
  (sum_nat (f <$> <[i:=new]> l) + f old = sum_nat (f <$> l) + f new)%nat.
Proof.
  revert i. induction l as [|x l IH]; intros [|i] Hi; simpl in *; try done.
  - injection Hi as ->. unfold fmap in *. lia.
  - specialize (IH i Hi). unfold fmap in *. lia.
Qed.

Lemma sum_nat_delete {A} (f : A -> nat) l i x :
  l !! i = Some x ->
  (sum_nat (f <$> delete i l) + f x = sum_nat (f <$> l))%nat.
Proof.
  revert i. induction l as [|y l IH]; intros [|i] Hi; simpl in *; try done.
  - injection Hi as ->. unfold fmap in *. lia.
  - specialize (IH i Hi). unfold fmap in *. lia.
Qed.

Lemma sum_nat_replicate n x : sum_nat (replicate n x) = (n * x)%nat.
Proof. induction n as [|n IH]; simpl; [done|]. rewrite IH. lia. Qed.

Section Termination.
Variables (config : ScanConfig) (up : Upstream) (cap : Z)
          (cost : string -> string -> nat).
Hypothesis Hcost : bounds up cost.

(** Every step of [main], of a worker or of a sender uses up some of the
    potential; the steps of the sink leave it alone. *)
Lemma potential_step a s s' :
  step config up cap a s = Some s' ->
  (potential cost config s' + (if sink_action a then 0 else 1)
   <= potential cost config s)%nat.
Proof.
  intros H. unfold potential.
  step_cases H; simpl.
  all: repeat match goal with
              | Hp : panicked _ = _ |- _ => rewrite Hp; clear Hp
              | Hm : main _ = _ |- _ => rewrite Hm; clear Hm
              | Hj : jobQueue _ = _ |- _ => rewrite Hj; clear Hj
              end.
  all: try match goal with
           | Hs : fetch_page _ ?req ?svc ?lim ?f ?tok ?st = _ |- _ =>
               let Hb := fresh "Hb" in
               pose proof (Hcost req svc lim f tok st) as Hb;
               rewrite Hs in Hb; simpl in Hb
           end.
  all: try match goal with
           | Hw : workers ?s !! ?w = Some ?old |- context [<[?w:=?new]> _] =>
               pose proof (sum_nat_insert (worker_cost cost) (workers s) w old new Hw)
                 as Hswap; simpl in Hswap
           end.
  all: try match goal with
           | Hi : senders ?s !! ?i = Some ?id |- _ =>
               pose proof (sum_nat_delete (fun id => 4 + cost id "")%nat
                             (senders s) i id Hi) as Hdel; simpl in Hdel
           end.
  all: rewrite ?fmap_app, ?sum_nat_app; simpl.
  all: repeat match goal with
              | Hf : isFolder _ = _ |- _ => rewrite Hf in *; clear Hf
              | He : String.eqb _ "" = _ |- _ => rewrite He in *; clear He
              end.
  all: simpl in *; unfold fmap in *; lia.
Qed.

Lemma potential_run schedule s s' :
  run config up cap schedule s = Some s' ->
  (crawl_steps schedule + potential cost config s' <= potential cost config s)%nat.
Proof.
  revert s. induction schedule as [|a rest IH]; intros s Hrun; simpl in Hrun.
  - injection Hrun as <-. unfold crawl_steps. simpl. lia.
  - destruct (step config up cap a s) as [s1|] eqn:Hs; [|discriminate].
    simpl in Hrun. specialize (IH s1 Hrun).
    pose proof (potential_step a s s1 Hs) as Hp.
    unfold crawl_steps in *. rewrite filter_cons.
    destruct (sink_action a); case_decide; simpl in *; try done; lia.
Qed.

End Termination.

(** X12: when the folder tree is finite (some [cost] bounds every listing),
    an execution of a crawl, however it is scheduled and whatever the sink
    does, contains at most [8 + cost root + workers] steps of
    [ScanTeamDrive], of its workers and of its senders: the work of the
    crawl always comes to an end. *)
Theorem crawl_steps_bounded config up p t cost schedule s :
  bounds up cost ->
  run config up (jobQueueCap config p) schedule (ScanTeamDrive_init config p t)
  = Some s ->
  (crawl_steps schedule
   <= 8 + cost (TeamDriveID config) "" + Z.to_nat (totalWorkers config p))%nat.
Proof.
  intros Hcost Hrun.
  pose proof (potential_run config up _ cost Hcost schedule _ s Hrun) as Hp.
  assert (Hinit : (potential cost config (ScanTeamDrive_init config p t)
                   <= 8 + cost (TeamDriveID config) ""
                        + Z.to_nat (totalWorkers config p))%nat).
  { unfold potential, ScanTeamDrive_init. simpl.
    rewrite fmap_replicate, sum_nat_replicate. simpl.
    destruct (_ || _); lia. }
  lia.
Qed.

Lemma small_drive_bounded : bounds Scenario.small_drive Scenario.small_drive_cost.
Proof.
  intros req svc lim folderID pageToken st.
  unfold fetch_page, Scenario.small_drive, Scenario.small_drive_cost,
    Scenario.children. simpl.
  destruct (String.eqb_spec folderID "A") as [->|HA]; [simpl; lia|].
  destruct (String.eqb_spec folderID "B") as [->|HB]; simpl; lia.
Defined.

(** The theorem at the crawl of the small drive by one worker, which takes
    12 steps; the bound is 19. *)
Lemma crawl_steps_bounded_witness :
  crawl_steps Scenario.crawl_small_drive = 12%nat /\
  (crawl_steps Scenario.crawl_small_drive <= 8 + 10 + 1)%nat.
Proof.
  split; [reflexivity|].
  apply (crawl_steps_bounded (Scenario.drive_config 1) Scenario.small_drive
           Scenario.one_account ∅ Scenario.small_drive_cost
           Scenario.crawl_small_drive Scenario.small_drive_end
           small_drive_bounded).
  vm_compute. reflexivity.
Defined.

(** ** The orchestrator: no deadlock while work is left *)

Lemma workers_idle_or_busy (ws : list WorkerState) :
  Forall (fun st => st = Idle) ws \/
  exists w st, ws !! w = Some st /\ st <> Idle.
Proof.
  induction ws as [|st ws [IH|(w & st' & Hw & Hst)]].
  - by left.
  - destruct st; try (right; exists 0%nat; eexists; split; [done|discriminate]).
    left. by constructor.
  - right. by exists (S w), st'.
Qed.

Section Progress.
Variables (config : ScanConfig) (up : Upstream) (p : ServiceAccountPool)
          (t : Database.Table).

(** Until [main] has sent the root id, nothing else has happened. *)
Lemma before_root s :
  reachable config up p t s -> main s = SendRoot ->
  jobQueue s = [] /\ senders s = [] /\ Forall (fun st => st = Idle) (workers s).
Proof.
  intros Hr.
  assert (Hinv : jobQueueClosed s = false /\
                 (main s = SendRoot ->
                  jobQueue s = [] /\ senders s = [] /\
                  Forall (fun st => st = Idle) (workers s))); [|by destruct Hinv].
  revert s Hr. apply reachable_ind.
  - split; [done|]. intros _. unfold ScanTeamDrive_init. simpl. repeat split.
    by apply Forall_replicate.
  - intros a s s' [Hjc IH] H. step_cases H; simpl in *.
    all: try congruence.
    all: split; [done|]; intros Hm.
    all: try discriminate.
    all: try (by apply IH).
    all: destruct (IH Hm) as (Hq & Hs & Hw).
    all: try congruence.
    all: try match goal with
             | Hl : workers _ !! _ = Some _ |- _ =>
                 apply (Forall_lookup_1 _ _ _ _ Hw) in Hl; discriminate Hl
             end.
    all: match goal with
         | Hl : senders _ !! _ = Some _ |- _ => rewrite Hs in Hl; discriminate Hl
         end.
Qed.

Hypothesis Hsane : sane config p.
Hypothesis Hworkers : 0 < totalWorkers config p.


End Progress.


(** The lemma [quiescent_only_sink_moves] at the end of the crawl of the
    small drive: the sink takes a record, and the crawl stays quiescent. *)
Lemma quiescent_only_sink_moves_witness :
  exists s',
    step (Scenario.drive_config 1) Scenario.small_drive
         (jobQueueCap (Scenario.drive_config 1) Scenario.one_account)
         (SinkReceive (Database.healthy 0)) Scenario.small_drive_end = Some s' /\
    quiescent s'.
Proof.
  destruct (step (Scenario.drive_config 1) Scenario.small_drive
              (jobQueueCap (Scenario.drive_config 1) Scenario.one_account)
              (SinkReceive (Database.healthy 0)) Scenario.small_drive_end)
    as [s'|] eqn:Hs; [|vm_compute in Hs; discriminate Hs].
  exists s'. split; [reflexivity|].
  apply (quiescent_only_sink_moves (Scenario.drive_config 1) Scenario.small_drive
           Scenario.one_account ∅ small_drive_sane
           (SinkReceive (Database.healthy 0)) Scenario.small_drive_end s'
           small_drive_end_reachable); [|exact Hs].
  unfold quiescent. vm_compute. repeat split; auto.
Defined.
(** ** From the crawl to the table *)

Section Stored.
Import Database.

(** What the stored records are after a run of upserts does not depend on
    the time of the writes. *)
Lemma stored_upsert_all now now' records (t t' : Table) :
  stored t = stored t' ->
  stored (upsert_all now records t) = stored (upsert_all now' records t').
Proof.
  intros Ht. apply map_eq. intros k. unfold stored in *.
  rewrite !lookup_fmap, !lookup_upsert_all.
  destruct (last_with_id k records); [done|].
  by rewrite <- !lookup_fmap, Ht.
Qed.

Lemma upsert_all_app now rs1 rs2 (t : Table) :
  upsert_all now (rs1 ++ rs2) t = upsert_all now rs2 (upsert_all now rs1 t).
Proof. apply foldl_app. Qed.

Lemma size_upsert_all now records (t : Table) :
  (size (upsert_all now records t) <= size t + length records)%nat.
Proof.
  revert t. induction records as [|r rs IH]; intros t; simpl; [lia|].
  unfold upsert_all in *. simpl. etrans; [apply IH|].
  unfold insert_or_replace.
  destruct (t !! ID r) eqn:Hk.
  - rewrite map_size_insert_Some by done. lia.
  - rewrite map_size_insert_None by done. lia.
Qed.



(** X16: batching is transparent. When the writes succeed, writing a batch
    in one call or splitting it into two successive calls leaves the same
    stored records; the tables are equal when the writes read the same
    time. *)
Theorem BatchInsert_split E E1 E2 (rs1 rs2 : list FileRecord) (t : Table) :
  succeeds E -> succeeds E1 -> succeeds E2 ->
  let whole := table (BatchInsert E (rs1 ++ rs2) t) in
  let parts := table (BatchInsert E2 rs2 (table (BatchInsert E1 rs1 t))) in
  stored whole = stored parts /\
  (current_timestamp E1 = current_timestamp E ->
   current_timestamp E2 = current_timestamp E -> whole = parts).
Proof.
  intros [HC HX] [HC1 HX1] [HC2 HX2]. cbv zeta.
  rewrite !BatchInsert_commits by done. simpl.
  rewrite !executed_all by done. rewrite upsert_all_app. split.
  - apply stored_upsert_all. by apply stored_upsert_all.
  - by intros -> ->.
Qed.

Lemma BatchInsert_split_witness :
  stored (table (BatchInsert (healthy 5) (Scenario.numbered 0 3) ∅))
  = stored (table (BatchInsert (healthy 7) (Scenario.numbered 1 2)
                     (table (BatchInsert (healthy 6) (Scenario.numbered 0 1) ∅)))).
Proof.
  apply (BatchInsert_split (healthy 5) (healthy 6) (healthy 7)
           (Scenario.numbered 0 1) (Scenario.numbered 1 2) ∅);
    by repeat split.
Defined.

End Stored.
(** ** From the crawl to the table: the whole pipeline *)

(** Induction over a schedule whose actions all satisfy [P]. *)
Lemma run_invariant config up cap (P : Action -> Prop) (Inv : State -> Prop)
    schedule s0 s :
  Inv s0 ->
  (forall a s s', P a -> Inv s -> step config up cap a s = Some s' -> Inv s') ->
  Forall P schedule ->
  run config up cap schedule s0 = Some s -> Inv s.
Proof.
  intros H0 Hstep. revert s0 H0.
  induction schedule as [|a rest IH]; intros s0 H0 HP Hrun; simpl in Hrun.
  - by injection Hrun as <-.
  - apply Forall_cons in HP as [Ha HP].
    destruct (step config up cap a s0) as [s1|] eqn:Hs; [|discriminate].
    simpl in Hrun. eapply IH; [|exact HP|exact Hrun]. by eapply Hstep.
Qed.

Lemma reachable_in_pipeline config up p t s :
  reachable config up p t s -> in_pipeline s = emitted s.
Proof.
  revert s. apply reachable_ind; [done|].
  intros a s s' Hs Hstep. by eapply in_pipeline_step.
Qed.

Section EndToEnd.
Import Database.
Variables (config : ScanConfig) (up : Upstream) (p : ServiceAccountPool)
          (t : Table).

Lemma stored_so_far_step a s s' :
  writes_succeed a -> stored_so_far t s ->
  step config up (jobQueueCap config p) a s = Some s' -> stored_so_far t s'.
Proof.
  unfold stored_so_far. intros Ha [Hst Hn] H.
  step_cases H; simpl.
  all: try match goal with
           | Hs : fetch_page _ _ _ _ _ _ _ = _ |- _ =>
               apply fetch_page_frame in Hs; destruct Hs as (_ & _ & _ & ->)
           end.
  all: try (by split).
  all: match goal with
       | Hs : dbWriter_select _ _ _ _ = _ |- _ =>
           rewrite dbWriter_select_spec in Hs by done; cbv zeta in Hs;
           simpl in Hs
       end.
  all: destruct Ha as [HC HX].
  all: match goal with
       | Hs : (if flush_due ?b ?ev ?pending then _ else _) = _ |- _ =>
           destruct (flush_due b ev pending);
           [rewrite BatchInsert_commits in Hs by done; simpl in Hs;
            rewrite executed_all in Hs by done|];
           injection Hs as <- <-; simpl
       end.
  all: try (by split).
  all: unfold handed_over in *; simpl.
  all: rewrite fmap_app, concat_app; simpl; rewrite app_nil_r.
  all: rewrite (upsert_all_app 0 (concat _)).
  all: split; [by apply stored_upsert_all|].
  all: rewrite Hn, add64_wrap; f_equal; unfold len; rewrite !length_app; lia.
Qed.

(** X17: the whole pipeline. In an execution in which every write of the
    sink succeeds, the table always holds, on top of what it held before,
    the upserts of the records handed over so far in emission order, and
    [DBInserts] counts them; so once the sink has drained the channel and
    flushed, the table holds the last record emitted for each id, and
    [DBInserts] equals [FilesProcessed]. *)
Theorem crawl_result_stored schedule s :
  run config up (jobQueueCap config p) schedule (ScanTeamDrive_init config p t)
  = Some s ->
  Forall writes_succeed schedule ->
  stored (db (sink s)) = stored (upsert_all 0 (handed_over (sink s)) t) /\
  DBInserts (stats s) = wrap64 (len (handed_over (sink s))) /\
  (resultQueue s = [] -> batch (sink s) = [] ->
   stored (db (sink s)) = stored (upsert_all 0 (emitted s) t) /\
   DBInserts (stats s) = FilesProcessed (stats s) /\
   forall k, stored (db (sink s)) !! k
             = match last_with_id k (emitted s) with
               | Some r => Some (record_of (row_of 0 r))
               | None => stored t !! k
               end).
Proof.
  intros Hrun Hok.
  assert (Hinv : stored_so_far t s).
  { eapply (run_invariant config up _ writes_succeed (stored_so_far t));
      [| |exact Hok|exact Hrun].
    - split; [done|]. reflexivity.
    - intros a s1 s2 Ha Hs Hstep. by eapply stored_so_far_step. }
  destruct Hinv as [Hst Hn]. split; [done|]. split; [done|].
  intros Hq Hb.
  assert (Hr : reachable config up p t s) by (by exists schedule).
  pose proof (reachable_in_pipeline _ _ _ _ _ Hr) as Hpipe.
  unfold in_pipeline in Hpipe. rewrite Hq, Hb, !app_nil_r in Hpipe.
  rewrite Hpipe in *.
  destruct (reachable_accounted config up p t s Hr) as (Hfp & _).
  split; [done|]. split; [by rewrite Hn, Hfp|].
  intros k. rewrite Hst. unfold stored.
  rewrite lookup_fmap, lookup_upsert_all.
  destruct (last_with_id k (emitted s)); [done|]. by rewrite lookup_fmap.
Qed.

End EndToEnd.

Lemma small_drive_stored_run :
  run (Scenario.drive_config 1) Scenario.small_drive
      (jobQueueCap (Scenario.drive_config 1) Scenario.one_account)
      Scenario.store_small_drive
      (ScanTeamDrive_init (Scenario.drive_config 1) Scenario.one_account ∅)
  = Some Scenario.small_drive_stored.
Proof. vm_compute. reflexivity. Defined.

(** The theorem at the crawl of the small drive followed by the sink taking
    the four records and a tick: the four records are in the table. *)
Lemma crawl_result_stored_witness :
  dom (db (sink Scenario.small_drive_stored)) = {["f1"; "f2"; "B"; "f3"]} /\
  DBInserts (stats Scenario.small_drive_stored) = 4 /\
  Database.stored (db (sink Scenario.small_drive_stored))
  = Database.stored
      (Database.upsert_all 0 (emitted Scenario.small_drive_stored) ∅).
Proof.
  split; [vm_compute; reflexivity|]. split; [reflexivity|].
  destruct (crawl_result_stored (Scenario.drive_config 1) Scenario.small_drive
              Scenario.one_account ∅ Scenario.store_small_drive
              Scenario.small_drive_stored small_drive_stored_run)
    as (_ & _ & H).
  - unfold Scenario.store_small_drive, Scenario.crawl_small_drive.
    repeat (apply Forall_cons; split; [by repeat split|]). by apply Forall_nil.
  - destruct H as (H & _); [reflexivity|reflexivity|exact H].
Defined.

(** ** The crawl emits the tree, once *)

(** X18: for a finite, acyclic folder tree (described by [rest]), whatever
    the number of workers and the schedule, the records emitted so far and
    those that the jobs, senders and workers in flight will still cause to
    be emitted are together exactly the records of the tree: nothing is
    lost and nothing is emitted twice; once nothing is left to crawl,
    exactly the records of the tree have been emitted, each once. *)
Theorem crawl_emits_tree_once config up p t rest s :
  describes config up rest ->
  reachable config up p t s ->
  emitted s ++ yet_to_come config rest s ≡ₚ rest (TeamDriveID config) "" /\
  (NoDup (rest (TeamDriveID config) "") -> NoDup (emitted s)) /\
  (quiescent s ->
   emitted s ≡ₚ rest (TeamDriveID config) "" /\
   FilesProcessed (stats s) = wrap64 (len (rest (TeamDriveID config) ""))).
Proof.
  intros Hrest Hr.
  pose proof (reachable_conserved config up p t rest Hrest s Hr) as Hc.
  unfold conserved in Hc. split; [exact Hc|]. split.
  - intros Hnd. rewrite <- Hc in Hnd. by apply NoDup_app in Hnd as [? _].
  - intros Hq.
    pose proof (quiescent_emitted config up p t rest Hrest s Hr Hq) as He.
    split; [exact He|].
    destruct (reachable_accounted config up p t s Hr) as (-> & _).
    unfold len. by rewrite (Permutation_length He).
Qed.

(** The theorem at the end of the crawl of the small drive. *)
Lemma crawl_emits_tree_once_witness :
  emitted Scenario.small_drive_end
    ≡ₚ Scenario.small_drive_records (Scenario.drive_config 1) /\
  NoDup (emitted Scenario.small_drive_end).
Proof.
  destruct (crawl_emits_tree_once (Scenario.drive_config 1) Scenario.small_drive
              Scenario.one_account ∅
              (Scenario.small_drive_rest (Scenario.drive_config 1))
              Scenario.small_drive_end (small_drive_described 1)
              small_drive_end_reachable) as (_ & Hnd & Hq).
  split.
  - apply Hq. unfold quiescent. vm_compute. repeat split; auto.
  - apply Hnd. vm_compute.
    repeat (apply NoDup_cons; split;
            [rewrite ?elem_of_cons, elem_of_nil; intros H;
             repeat destruct H as [H|H]; try discriminate H; done|]).
    apply NoDup_nil_2.
Defined.
(** ** The result sink with the smallest thresholds *)

(** X19: with a [BatchInsertSize] of 0 (what a configuration that leaves
    the field out gives) or 1, the sink writes every record in a batch of
    its own as soon as it arrives, whether or not the writes succeed; its
    pending batch is always empty, and a tick never finds anything to
    write. *)
Theorem dbWriter_unit_batches batchSize t events :
  0 <= batchSize <= 1 -> Closed ∉ events.*1 ->
  let r := dbWriter batchSize events (zero_stats, new_sink t) in
  done r.2 = false /\
  batch r.2 = [] /\
  (written r.2).*1 = (fun record => [record]) <$> received events.
Proof.
  intros Hsize. induction events as [|[ev E] evs IH] using rev_ind; intros Hnc.
  - by repeat split.
  - rewrite fmap_app, not_elem_of_app in Hnc. destruct Hnc as [Hnc Hev].
    specialize (IH Hnc). cbv zeta in *.
    rewrite dbWriter_app, dbWriter_single.
    destruct (dbWriter batchSize evs (zero_stats, new_sink t)) as [st k].
    simpl in IH. destruct IH as (Hd & Hb & Hw).
    cbn [fst snd]. rewrite dbWriter_select_spec by done. cbv zeta.
    unfold received in *. rewrite omap_app, fmap_app, Hb.
    destruct ev as [record| |]; simpl.
    + unfold flush_due.
      destruct (Z.leb_spec batchSize (len [record])) as [_|Hlt];
        [|unfold len in Hlt; simpl in Hlt; lia].
      simpl. rewrite fmap_app, Hw. by repeat split.
    + exfalso. apply Hev. by left.
    + rewrite app_nil_r. by repeat split.
Qed.

(** The theorem at a threshold of 0 for three records and a tick. *)
Lemma dbWriter_unit_batches_witness :
  (written
     (dbWriter 0 (Scenario.arrivals (Scenario.numbered 0 3)
                    ++ [(Tick, Database.healthy 0)])
        (zero_stats, new_sink ∅)).2).*1
  = [[Scenario.numbered_record 0]; [Scenario.numbered_record 1];
     [Scenario.numbered_record 2]].
Proof.
  destruct (dbWriter_unit_batches 0 ∅
              (Scenario.arrivals (Scenario.numbered 0 3)
                 ++ [(Tick, Database.healthy 0)])) as (_ & _ & H).
  - lia.
  - vm_compute. intros H. repeat (apply elem_of_cons in H as [H|H]; [discriminate H|]).
    by apply elem_of_nil in H.
  - rewrite H. reflexivity.
Defined.
(** ** A listing that fails *)

(** X20: a listing that cannot get a page is given up, not retried. When
    the limiter returns an error, or when all five attempts of the executor
    fail, [listFolder] returns the error, [start] counts one
    [APICallsFailed] and goes back to its [range]: the worker is idle again,
    nothing is emitted or enqueued for the folder, whose remaining pages and
    subfolders are never visited. The call counts in [APICallsTotal] only
    when the limiter let it through. *)
Theorem failed_listing_is_abandoned config up cap s w folderID svc lim pageToken :
  panicked s = false ->
  workers s !! w = Some (Listing folderID svc lim pageToken) ->
  is_Some (wait_err up (requests s) lim) \/
  (forall k, (k < 5)%nat ->
     failed (respond up (requests s) svc folderID pageToken k) = true) ->
  exists s',
    step config up cap (WorkerPage w) s = Some s' /\
    workers s' = <[w := Idle]> (workers s) /\
    APICallsFailed (stats s') = add64 (APICallsFailed (stats s)) 1 /\
    APICallsSuccess (stats s') = APICallsSuccess (stats s) /\
    APICallsTotal (stats s')
    = match wait_err up (requests s) lim with
      | Some _ => APICallsTotal (stats s)
      | None => add64 (APICallsTotal (stats s)) 1
      end /\
    jobQueue s' = jobQueue s /\ senders s' = senders s /\
    enqueued s' = enqueued s /\ emitted s' = emitted s /\
    fetched s' = fetched s /\ wg s' = wg s.
Proof.
  intros Hp Hw Hfail.
  assert (Hfetch : exists err st fx,
    fetch_page up (requests s) svc lim folderID pageToken (stats s)
    = (inl err, st, fx)).
  { unfold fetch_page. destruct (wait_err up (requests s) lim) as [err|] eqn:Hwait.
    - by eexists _, _, _.
    - destruct Hfail as [[? ?]|Hfail]; [done|].
      pose proof (Hfail 4%nat ltac:(lia)) as H4.
      destruct (respond up (requests s) svc folderID pageToken 4) as [?|e] eqn:He;
        [discriminate|].
      destruct (retry_loop_exhausted
                  (respond up (requests s) svc folderID pageToken)
                  maxRetries 0 no_effects e)
        as (Hr & _); [done | unfold maxRetries; lia | | exact He |].
      { intros j Hj. apply Hfail. unfold maxRetries in Hj. lia. }
      unfold executeWithRetry.
      destruct (retry_loop (respond up (requests s) svc folderID pageToken)
                  maxRetries 0 no_effects) as [r fx]. simpl in Hr.
      subst r. by eexists _, _, _. }
  destruct Hfetch as (err & st & fx & Hfetch).
  pose proof (fetch_page_frame _ _ _ _ _ _ _ _ _ _ Hfetch) as (_ & _ & Hf & _).
  pose proof (fetch_page_counts _ _ _ _ _ _ _ _ _ _ Hfetch) as (Ht & Hs).
  unfold step, listFolder_page. rewrite Hp, Hw, Hfetch.
  eexists. split; [reflexivity|]. simpl. rewrite Hf, Ht, Hs. by repeat split.
Qed.

(** The theorem at the first page of "X" on an upstream that always
    answers 500. *)
Lemma failed_listing_is_abandoned_witness :
  exists s',
    step Scenario.flaky_config
         (mkUpstream (fun _ _ _ _ => Scenario.always_fails (GoogleApiError 500))
                     (fun _ _ => None))
         (jobQueueCap Scenario.flaky_config Scenario.one_account)
         (WorkerPage 0) Scenario.flaky_listing = Some s' /\
    workers s' = [Idle] /\
    APICallsFailed (stats s') = 1 /\ APICallsTotal (stats s') = 1.
Proof.
  destruct (failed_listing_is_abandoned Scenario.flaky_config
              (mkUpstream (fun _ _ _ _ => Scenario.always_fails (GoogleApiError 500))
                          (fun _ _ => None))
              (jobQueueCap Scenario.flaky_config Scenario.one_account)
              Scenario.flaky_listing 0%nat "X" 0%nat 0%nat "")
    as (s' & Hs & Hw & Hf & _ & Ht & _).
  - reflexivity.
  - reflexivity.
  - right. intros k _. reflexivity.
  - exists s'. split; [exact Hs|]. rewrite Hw, Hf, Ht. by repeat split.
Defined.
(** ** Sizes for display *)

Section FormatBytes.
Import Database.

(** The loop multiplies [div] by 1024 once for every time [n] can be divided
    by 1024 before it drops below 1024, as long as the fuel lasts and [div]
    fits an [int64]. *)
Lemma formatBytes_loop_spec (k fuel : nat) (n div exp : Z) :
  (k < fuel)%nat ->
  n < 1024 ^ (Z.of_nat k + 1) -> ((0 < k)%nat -> 1024 ^ Z.of_nat k <= n) ->
  0 < div -> div * 1024 ^ Z.of_nat k < 2 ^ 63 ->
  formatBytes_loop fuel n div exp = (div * 1024 ^ Z.of_nat k, exp + Z.of_nat k).
Proof.
  revert fuel n div exp. induction k as [|k IH]; intros fuel n div exp Hf Hhi Hlo Hd Hfit.
  - destruct fuel as [|fuel]; [lia|]. simpl in *.
    destruct (Z.geb_spec n 1024); [lia|]. f_equal; lia.
  - destruct fuel as [|fuel]; [lia|].
    assert (Hpow : 1024 ^ Z.of_nat (S k) = 1024 * 1024 ^ Z.of_nat k).
    { rewrite Nat2Z.inj_succ, Z.pow_succ_r by lia. done. }
    assert (Hpow' : 1024 ^ (Z.of_nat (S k) + 1) = 1024 * 1024 ^ (Z.of_nat k + 1)).
    { rewrite Nat2Z.inj_succ. replace (Z.succ (Z.of_nat k) + 1)
        with (Z.succ (Z.of_nat k + 1)) by lia. rewrite Z.pow_succ_r by lia. done. }
    assert (Hk : 0 < 1024 ^ Z.of_nat k) by (apply Z.pow_pos_nonneg; lia).
    specialize (Hlo ltac:(lia)). rewrite Hpow in Hlo, Hfit. rewrite Hpow' in Hhi.
    cbn [formatBytes_loop]. destruct (Z.geb_spec n 1024) as [_|Hlt]; [|nia].
    rewrite Z.quot_div_nonneg by lia.
    unfold Go.mul64. rewrite wrap64_id by nia.
    rewrite (IH fuel (n / 1024) (div * 1024) (exp + 1)).
    + f_equal; [rewrite Hpow|]; lia.
    + lia.
    + apply Z.div_lt_upper_bound; lia.
    + intros _. apply Z.div_le_lower_bound; lia.
    + lia.
    + nia.
Qed.

Lemma round_half_even_between num den a b :
  0 < den -> a * den <= num <= b * den ->
  a <= round_half_even num den <= b.
Proof.
  intros Hden [Ha Hb]. unfold round_half_even.
  pose proof (Z.div_mod num den ltac:(lia)) as Hdm.
  pose proof (Z.mod_pos_bound num den Hden) as Hr.
  assert (Hq : a <= num / den) by (apply Z.div_le_lower_bound; lia).
  assert (Hq' : num / den <= b) by (apply Z.div_le_upper_bound; lia).
  destruct (Z.ltb_spec (2 * (num mod den)) den); [lia|].
  assert (num / den + 1 <= b) by nia.
  destruct (Z.ltb_spec den (2 * (num mod den))); [lia|].
  destruct (Z.even (num / den)); lia.
Qed.

(** [float64(z)] stays between the powers of two that enclose [z]. *)
Lemma float64_of_int_between z :
  0 < z ->
  2 ^ Z.log2 z <= float64_of_int z <= 2 ^ (Z.log2 z + 1).
Proof.
  intros Hz. pose proof (Z.log2_spec z Hz) as [Hlo Hhi].
  rewrite <- Z.add_1_r in Hhi.
  unfold float64_of_int. destruct (Z.leb_spec (Z.log2 z + 1) 53) as [_|Hbig]; [lia|].
  set (a := Z.log2 z) in *.
  assert (Hulp : 0 < 2 ^ (a + 1 - 53)) by (apply Z.pow_pos_nonneg; lia).
  assert (Ha : 2 ^ a = 2 ^ 52 * 2 ^ (a + 1 - 53)).
  { rewrite <- Z.pow_add_r by lia. f_equal. lia. }
  assert (Ha' : 2 ^ (a + 1) = 2 ^ 53 * 2 ^ (a + 1 - 53)).
  { rewrite <- Z.pow_add_r by lia. f_equal. lia. }
  pose proof (round_half_even_between z (2 ^ (a + 1 - 53)) (2 ^ 52) (2 ^ 53) Hulp
                ltac:(lia)) as Hr.
  rewrite Ha, Ha'. nia.
Qed.

(** From 1024 on: the scale, the unit letter and the number printed. *)
Lemma formatBytes_large (bytes : Z) :
  - 2 ^ 63 <= bytes < 2 ^ 63 -> 1024 <= bytes ->
  exists (e : nat) (c : Ascii.ascii),
    (e <= 5)%nat /\
    1024 ^ (Z.of_nat e + 1) <= bytes < 1024 ^ (Z.of_nat e + 2) /\
    String.list_ascii_of_string "KMGTPE" !! e = Some c /\
    formatBytes bytes
    = Some (Sprintf_2f (float64_of_int bytes) (1024 ^ (Z.of_nat e + 1))
              +:+ " " +:+ String c "B") /\
    100 <= round_half_even (100 * float64_of_int bytes) (1024 ^ (Z.of_nat e + 1))
        <= 102400.
Proof.
  intros Hrange Hge.
  assert (He : exists e : nat,
    (e <= 5)%nat /\ 1024 ^ (Z.of_nat e + 1) <= bytes < 1024 ^ (Z.of_nat e + 2)).
  { destruct (Z.lt_ge_cases bytes (1024 ^ 2)); [exists 0%nat; simpl; lia|].
    destruct (Z.lt_ge_cases bytes (1024 ^ 3)); [exists 1%nat; simpl; lia|].
    destruct (Z.lt_ge_cases bytes (1024 ^ 4)); [exists 2%nat; simpl; lia|].
    destruct (Z.lt_ge_cases bytes (1024 ^ 5)); [exists 3%nat; simpl; lia|].
    destruct (Z.lt_ge_cases bytes (1024 ^ 6)); [exists 4%nat; simpl; lia|].
    exists 5%nat. simpl. lia. }
  destruct He as (e & He & Hlo & Hhi).
  assert (Hc : exists c, String.list_ascii_of_string "KMGTPE" !! e = Some c).
  { apply lookup_lt_is_Some_2. simpl. lia. }
  destruct Hc as [c Hc]. exists e, c.
  assert (Hpe : 0 < 1024 ^ Z.of_nat e) by (apply Z.pow_pos_nonneg; lia).
  assert (Hp1 : 1024 ^ (Z.of_nat e + 1) = 1024 * 1024 ^ Z.of_nat e).
  { rewrite Z.add_1_r, Z.pow_succ_r by lia. done. }
  assert (Hp2 : 1024 ^ (Z.of_nat e + 2) = 1024 * 1024 ^ (Z.of_nat e + 1)).
  { replace (Z.of_nat e + 2) with (Z.succ (Z.of_nat e + 1)) by lia.
    rewrite Z.pow_succ_r by lia. done. }
  assert (Hloop : formatBytes_loop 64 (Z.quot bytes 1024) 1024 0
                  = (1024 ^ (Z.of_nat e + 1), Z.of_nat e)).
  { rewrite (formatBytes_loop_spec e 64 (Z.quot bytes 1024) 1024 0).
    - f_equal; rewrite ?Hp1; lia.
    - lia.
    - rewrite Z.quot_div_nonneg by lia. apply Z.div_lt_upper_bound; lia.
    - intros _. rewrite Z.quot_div_nonneg by lia.
      apply Z.div_le_lower_bound; lia.
    - lia.
    - rewrite <- Hp1. lia. }
  split; [done|]. split; [done|]. split; [done|]. split.
  - unfold formatBytes. destruct (Z.ltb_spec bytes 1024); [lia|].
    rewrite Hloop. unfold Go.index.
    destruct (Z.ltb_spec (Z.of_nat e) 0); [lia|].
    rewrite Nat2Z.id, Hc. done.
  - pose proof (float64_of_int_between bytes ltac:(lia)) as [Hf1 Hf2].
    pose proof (Z.log2_spec bytes ltac:(lia)) as [Hl1 Hl2].
    rewrite <- Z.add_1_r in Hl2.
    assert (H1024 : forall x, 0 <= x -> 1024 ^ x = 2 ^ (10 * x)).
    { intros x Hx. change 1024 with (2 ^ 10). by rewrite <- Z.pow_mul_r by lia. }
    rewrite H1024 in Hlo, Hhi by lia. rewrite H1024 by lia.
    assert (Ha1 : 10 * (Z.of_nat e + 1) <= Z.log2 bytes).
    { apply Z.log2_le_pow2; lia. }
    assert (Ha2 : Z.log2 bytes + 1 <= 10 * (Z.of_nat e + 2)).
    { assert (Z.log2 bytes < 10 * (Z.of_nat e + 2)); [|lia].
      apply Z.log2_lt_pow2; [lia|]. exact Hhi. }
    assert (Hd : 0 < 2 ^ (10 * (Z.of_nat e + 1))) by (apply Z.pow_pos_nonneg; lia).
    assert (Hg1 : 2 ^ (10 * (Z.of_nat e + 1)) <= float64_of_int bytes).
    { etrans; [|exact Hf1]. apply Z.pow_le_mono_r; lia. }
    assert (Hg2 : float64_of_int bytes <= 1024 * 2 ^ (10 * (Z.of_nat e + 1))).
    { etrans; [exact Hf2|]. change 1024 with (2 ^ 10).
      rewrite <- Z.pow_add_r by lia. apply Z.pow_le_mono_r; lia. }
    apply round_half_even_between; [done|]. lia.
Qed.

Lemma formatBytes_returns (bytes : Z) :
  - 2 ^ 63 <= bytes < 2 ^ 63 -> is_Some (formatBytes bytes).
Proof.
  intros Hrange. destruct (Z.lt_ge_cases bytes 1024) as [Hlt|Hge].
  - unfold formatBytes. destruct (Z.ltb_spec bytes 1024); [by eexists|lia].
  - destruct (formatBytes_large bytes Hrange Hge) as (e & c & _ & _ & _ & -> & _).
    by eexists.
Qed.

(** X21: [formatBytes] never panics on an [int64]. Below 1024 (negative
    sizes included) it prints the number itself, followed by " B". From
    1024 on it scales by the largest power of 1024 that is not above the
    size: the loop ends within five passes with [div = 1024^(e+1)], which
    fits an [int64], and [e <= 5], which is within "KMGTPE"; the number
    printed, with two decimals, is between 1.00 and 1024.00. *)
Theorem formatBytes_scale (bytes : Z) :
  - 2 ^ 63 <= bytes < 2 ^ 63 ->
  is_Some (formatBytes bytes) /\
  (bytes < 1024 -> formatBytes bytes = Some (pretty bytes +:+ " B")) /\
  (1024 <= bytes ->
   exists (e : nat) (c : Ascii.ascii),
     (e <= 5)%nat /\
     1024 ^ (Z.of_nat e + 1) <= bytes < 1024 ^ (Z.of_nat e + 2) /\
     String.list_ascii_of_string "KMGTPE" !! e = Some c /\
     formatBytes bytes
     = Some (Sprintf_2f (float64_of_int bytes) (1024 ^ (Z.of_nat e + 1))
               +:+ " " +:+ String c "B") /\
     100 <= round_half_even (100 * float64_of_int bytes) (1024 ^ (Z.of_nat e + 1))
         <= 102400).
Proof.
  intros Hrange. split; [by apply formatBytes_returns|]. split.
  - intros Hlt. unfold formatBytes. by destruct (Z.ltb_spec bytes 1024); [|lia].
  - intros Hge. by apply formatBytes_large.
Qed.

(** The theorem at one byte less than a mebibyte, which is shown as
    "1024.00 KB". *)
Lemma formatBytes_scale_witness :
  formatBytes 1048575 = Some "1024.00 KB" /\ is_Some (formatBytes 1048575).
Proof.
  split; [reflexivity|].
  apply (formatBytes_scale 1048575). lia.
Defined.

End FormatBytes.
(** ** Reading the table *)

Section Reading.
Import Database.

Lemma limit_offset_length {A} limit offset (l : list A) :
  0 <= limit -> Z.of_nat (length (limit_offset limit offset l)) <= limit.
Proof.
  intros Hl. unfold limit_offset. destruct (Z.ltb_spec limit 0); [lia|].
  rewrite length_take. lia.
Qed.

Lemma limit_offset_sublist {A} limit offset (l : list A) :
  limit_offset limit offset l `sublist_of` l.
Proof.
  unfold limit_offset. destruct (limit <? 0).
  - apply sublist_drop.
  - etrans; [apply sublist_take|apply sublist_drop].
Qed.

Lemma limit_offset_all {A} (l : list A) : limit_offset (-1) 0 l = l.
Proof. reflexivity. Qed.

Lemma limit_offset_fmap {A B} (f : A -> B) limit offset (l : list A) :
  f <$> limit_offset limit offset l = limit_offset limit offset (f <$> l).
Proof.
  unfold limit_offset. destruct (limit <? 0).
  - by rewrite fmap_drop.
  - by rewrite fmap_take, fmap_drop.
Qed.

Lemma mapM_limit_offset {A B} (f : A -> option B) limit offset l k :
  mapM f l = Some k ->
  mapM f (limit_offset limit offset l) = Some (limit_offset limit offset k).
Proof.
  rewrite !mapM_Some. intros H. unfold limit_offset. destruct (limit <? 0).
  - by apply Forall2_drop.
  - by apply Forall2_take, Forall2_drop.
Qed.

(** What the loop that ends [Search] leaves of a record: the ten stored
    fields, and for a file its own size as total. *)
Lemma Search_totals_keeps R t record f :
  Search_totals R t record = Some f ->
  record_of (row_of 0 f) = record_of (row_of 0 record) /\
  (IsFolder record = false -> TotalSize f = Size record).
Proof.
  unfold Search_totals. destruct (IsFolder record) eqn:Hf.
  - destruct (GetFolderSize R (ID record) t) as [[total count]|]; [|done].
    simpl. intros [= <-]. unfold record_of, row_of. simpl. rewrite Hf. by split.
  - intros [= <-]. unfold record_of, row_of. simpl. rewrite Hf. by split.
Qed.

(** X22: browsing ([Search] without a query). Whatever the limit and the
    offset, every record returned is a row of the table that satisfies the
    filters (the drive, if one is given; the parent, if one is given, and
    otherwise, within a drive, the rows whose parent is the drive itself),
    with its ten stored fields, and with its own size as [TotalSize] when it
    is a file; a non-negative limit bounds the number of records; and
    [TotalCount] is the number of all the rows that satisfy the filters,
    independent of limit and offset (0 when the count query fails). *)
Theorem Search_browse R teamDriveID parentID limit offset t res :
  scans_table R ->
  Search R "" teamDriveID parentID limit offset t = Some (inr res) ->
  (0 <= limit -> Z.of_nat (length (Files res)) <= limit) /\
  (forall f, f ∈ Files res ->
     exists row, row ∈ rows_of t /\
       list_where teamDriveID parentID row = true /\
       record_of (row_of 0 f) = record_of row /\
       (col_is_folder row = false -> TotalSize f = col_size row)) /\
  TotalCount res
  = match row_err R CountQuery with
    | Some _ => 0
    | None => len (filter (fun r => list_where teamDriveID parentID r = true)
                          (rows_of t))
    end /\
  (row_err R CountQuery = None -> Z.of_nat (length (Files res)) <= TotalCount res).
Proof.
  intros Hscan. unfold Search.
  destruct (query_err R); [done|].
  unfold Search_query. simpl.
  set (sorted := merge_sort _ (filter _ (scan R t))).
  destruct (mapM _ _) as [records|] eqn:Hm; [|done].
  simpl. intros [= <-]. simpl.
  pose proof (length_mapM _ _ _ Hm) as Hlen.
  unfold scanRows in Hlen. rewrite length_fmap in Hlen.
  assert (Hsorted : sorted ≡ₚ filter (fun r => list_where teamDriveID parentID r = true)
                                   (rows_of t)).
  { unfold sorted. rewrite merge_sort_Permutation. by rewrite (Hscan t). }
  split; [|split; [|split]].
  - intros Hl. rewrite <- Hlen. by apply limit_offset_length.
  - intros f Hf. apply mapM_Some in Hm.
    apply list_elem_of_lookup in Hf as [i Hi].
    destruct (Forall2_lookup_r _ _ _ _ _ Hm Hi) as (record & Hrec & Htot).
    unfold scanRows in Hrec. rewrite list_lookup_fmap in Hrec.
    destruct (limit_offset limit offset sorted !! i) as [row|] eqn:Hrow; [|done].
    simpl in Hrec. injection Hrec as <-.
    assert (Hin : row ∈ sorted).
    { eapply elem_of_sublist; [|apply limit_offset_sublist].
      by eapply list_elem_of_lookup_2. }
    rewrite Hsorted in Hin. apply list_elem_of_filter in Hin as [Hw Hin].
    destruct (Search_totals_keeps _ _ _ _ Htot) as [Hkeep Hsize].
    exists row. split; [done|]. split; [done|]. split; [|done].
    rewrite Hkeep. by destruct row.
  - by destruct (row_err R CountQuery).
  - intros ->. rewrite <- Hlen. unfold len.
    rewrite <- (Permutation_length Hsorted).
    pose proof (sublist_length _ _ (limit_offset_sublist limit offset sorted)).
    lia.
Qed.

Lemma plain_reader_scans : scans_table plain_reader.
Proof. intros t. reflexivity. Defined.

(** The theorem at the top level of the small drive, two records a page:
    the first page holds the folder and the first file, out of three. *)
Lemma Search_browse_witness :
  exists res,
    Search plain_reader "" "A" "" 2 0 Scenario.small_drive_table = Some (inr res) /\
    ID <$> Files res = ["B"; "f1"] /\ TotalCount res = 3 /\
    Z.of_nat (length (Files res)) <= 2.
Proof.
  destruct (Search plain_reader "" "A" "" 2 0 Scenario.small_drive_table)
    as [[e|res]|] eqn:Hs; try (vm_compute in Hs; discriminate Hs).
  exists res. split; [reflexivity|].
  destruct (Search_browse plain_reader "A" "" 2 0 Scenario.small_drive_table res
              plain_reader_scans Hs) as (Hlen & _ & _ & _).
  vm_compute in Hs. injection Hs as <-.
  split; [reflexivity|]. split; [reflexivity|]. apply Hlen. lia.
Defined.

(** X23: a page is a slice of the whole listing. When the search with no
    limit and no offset returns, the search with any limit and offset
    returns too, and its records are exactly the records of the whole
    listing from [offset] on, [limit] of them at most, with the same
    [TotalCount]; so consecutive pages of a table that does not change
    neither overlap nor skip a record. *)
Theorem Search_page_is_slice R query teamDriveID parentID limit offset t all :
  Search R query teamDriveID parentID (-1) 0 t = Some (inr all) ->
  Search R query teamDriveID parentID limit offset t
  = Some (inr (mkSearchResult (limit_offset limit offset (Files all))
                              (TotalCount all))) /\
  (0 <= limit -> 0 <= offset ->
   limit_offset limit offset (Files all)
     ++ limit_offset limit (offset + limit) (Files all)
   = limit_offset (2 * limit) offset (Files all)).
Proof.
  unfold Search. destruct (query_err R); [done|].
  assert (Hq : forall limit offset,
    Search_query R query teamDriveID parentID limit offset t
    = (limit_offset limit offset
         (Search_query R query teamDriveID parentID (-1) 0 t).1,
       (Search_query R query teamDriveID parentID (-1) 0 t).2)).
  { intros l o. unfold Search_query. destruct (negb _); by rewrite limit_offset_all. }
  rewrite (Hq limit offset).
  destruct (Search_query R query teamDriveID parentID (-1) 0 t) as [rows count].
  simpl. destruct (mapM _ (scanRows rows)) as [records|] eqn:Hm; [|done].
  simpl. intros [= <-]. simpl. split.
  - unfold scanRows in *. rewrite limit_offset_fmap.
    by rewrite (mapM_limit_offset _ _ _ _ _ Hm).
  - intros Hl Ho. unfold limit_offset.
    destruct (Z.ltb_spec limit 0); [lia|]. destruct (Z.ltb_spec (2 * limit) 0); [lia|].
    rewrite Z2Nat.inj_add by lia. rewrite <- drop_drop.
    replace (Z.to_nat (2 * limit)) with (Z.to_nat limit + Z.to_nat limit)%nat by lia.
    generalize (drop (Z.to_nat offset) records). intros l.
    by rewrite take_take_drop.
Qed.

(** The theorem at the top level of the small drive: the second page of
    two holds the third record. *)
Lemma Search_page_is_slice_witness :
  exists res,
    Search plain_reader "" "A" "" 2 2 Scenario.small_drive_table = Some (inr res) /\
    ID <$> Files res = ["f2"].
Proof.
  destruct (Search plain_reader "" "A" "" (-1) 0 Scenario.small_drive_table)
    as [[e|all]|] eqn:Hall; try (vm_compute in Hall; discriminate Hall).
  destruct (Search_page_is_slice plain_reader "" "A" "" 2 2
              Scenario.small_drive_table all Hall) as [Hpage _].
  eexists. split; [exact Hpage|].
  vm_compute in Hall. injection Hall as <-. reflexivity.
Defined.

Lemma Sorted_adjacent {A} (R : relation A) l i a b :
  Sorted R l -> l !! i = Some a -> l !! S i = Some b -> R a b.
Proof.
  intros Hs. revert i. induction Hs as [|x l Hs IH Hhd]; intros i Ha Hb; [done|].
  destruct i as [|i]; simpl in *.
  - injection Ha as ->. destruct Hhd as [|y l' Hxy]; [done|].
    simpl in Hb. by injection Hb as ->.
  - by eapply IH.
Qed.

Lemma limit_offset_adjacent {A} limit offset (l : list A) i a b :
  limit_offset limit offset l !! i = Some a ->
  limit_offset limit offset l !! S i = Some b ->
  exists j, l !! j = Some a /\ l !! S j = Some b.
Proof.
  unfold limit_offset. intros Ha Hb.
  exists (Z.to_nat offset + i)%nat.
  destruct (limit <? 0).
  - rewrite lookup_drop in Ha, Hb. split; [done|].
    by replace (S (Z.to_nat offset + i)) with (Z.to_nat offset + S i)%nat by lia.
  - apply lookup_take_Some in Ha as [Ha _]. apply lookup_take_Some in Hb as [Hb _].
    rewrite lookup_drop in Ha, Hb. split; [done|].
    by replace (S (Z.to_nat offset + i)) with (Z.to_nat offset + S i)%nat by lia.
Qed.

Lemma listing_order_total r1 r2 :
  listing_order r1 r2 = true \/ listing_order r2 r1 = true.
Proof.
  unfold listing_order.
  destruct (col_is_folder r1), (col_is_folder r2); simpl; auto;
    apply String.leb_total.
Qed.



End Reading.
(** ** Folder sizes *)

Section FolderSize.
Import Database.

(** [SUM] returns the sum when it returns; which it does, for values that
    are not negative, exactly when the sum fits an [int64], whatever their
    order. *)
Lemma SUM_total acc values s : SUM acc values = Some s -> s = acc + total values.
Proof.
  revert acc. induction values as [|v values IH]; intros acc; simpl.
  - intros [= <-]. lia.
  - destruct ((- 2 ^ 63 <=? acc + v) && (acc + v <? 2 ^ 63)); [|done].
    intros H. apply IH in H. lia.
Qed.

Lemma total_nonneg values : Forall (fun v => 0 <= v) values -> 0 <= total values.
Proof. induction 1 as [|v values Hv _ IH]; simpl; lia. Qed.

Lemma total_Permutation l1 l2 : l1 ≡ₚ l2 -> total l1 = total l2.
Proof. induction 1; simpl; lia. Qed.

Lemma SUM_nonneg acc values :
  - 2 ^ 63 <= acc < 2 ^ 63 -> Forall (fun v => 0 <= v) values ->
  SUM acc values
  = if acc + total values <? 2 ^ 63 then Some (acc + total values) else None.
Proof.
  intros Hacc Hall. revert acc Hacc.
  induction Hall as [|v values Hv Hall IH]; intros acc Hacc; simpl.
  - rewrite Z.add_0_r. by destruct (Z.ltb_spec acc (2 ^ 63)); [|lia].
  - pose proof (total_nonneg values Hall) as Hnn.
    destruct (Z.leb_spec (- 2 ^ 63) (acc + v)); [|lia]. simpl.
    destruct (Z.ltb_spec (acc + v) (2 ^ 63)) as [Hlt|Hge].
    + rewrite IH by lia. by rewrite Z.add_assoc.
    + by destruct (Z.ltb_spec (acc + (v + total values)) (2 ^ 63)); [lia|].
Qed.


Lemma elem_of_rows_of (t : Table) row :
  row ∈ rows_of t <-> exists k, t !! k = Some row.
Proof.
  unfold rows_of. rewrite list_elem_of_fmap. split.
  - intros ([k r] & -> & Hin). exists k. by apply elem_of_map_to_list.
  - intros [k Hk]. exists (k, row). split; [done|]. by apply elem_of_map_to_list.
Qed.

Lemma elem_of_children_of rows id row :
  row ∈ children_of rows id <-> col_parent_id row = id /\ row ∈ rows.
Proof. unfold children_of. by rewrite list_elem_of_filter. Qed.

(** More fuel does not change the result. *)
Lemma folder_tree_fuel n m rows level tree :
  folder_tree n rows level = Some tree -> (n <= m)%nat ->
  folder_tree m rows level = Some tree.
Proof.
  revert m level tree. induction n as [|n IH]; intros m level tree H Hm.
  - destruct level; [|done]. by destruct m.
  - destruct level as [|r level]; [by destruct m|].
    destruct m as [|m]; [lia|]. simpl in *.
    destruct (folder_tree n rows _) as [deeper|] eqn:Hd; [|done].
    by rewrite (IH m _ deeper Hd ltac:(lia)).
Qed.

(** The rows under two lists of rows are those under each of them. *)
Lemma folder_tree_app n rows l1 l2 tree :
  folder_tree n rows (l1 ++ l2) = Some tree ->
  exists t1 t2,
    folder_tree n rows l1 = Some t1 /\ folder_tree n rows l2 = Some t2 /\
    tree ≡ₚ t1 ++ t2.
Proof.
  revert l1 l2 tree. induction n as [|n IH]; intros l1 l2 tree H.
  - destruct l1, l2; try done. injection H as <-. by exists [], [].
  - destruct l1 as [|r1 l1].
    { exists [], tree. by destruct n. }
    destruct l2 as [|r2 l2].
    { rewrite app_nil_r in H. exists tree, []. by rewrite app_nil_r. }
    cbn [folder_tree app] in H.
    change (r1 :: l1 ++ r2 :: l2) with ((r1 :: l1) ++ (r2 :: l2)) in H.
    rewrite bind_app in H.
    destruct (folder_tree n rows _) as [deeper|] eqn:Hd; [|done].
    simpl in H. injection H as <-.
    destruct (IH _ _ _ Hd) as (d1 & d2 & H1 & H2 & Hp).
    exists ((r1 :: l1) ++ d1), ((r2 :: l2) ++ d2).
    cbn [folder_tree]. rewrite H1, H2. simpl. split; [done|]. split; [done|].
    rewrite Hp. solve_Permutation.
Qed.

(** The rows under a list of rows are those under each row. *)
Lemma folder_tree_bind {A} n rows (f : A -> list Row) (l : list A) tree :
  folder_tree n rows (l ≫= f) = Some tree ->
  exists subtrees,
    Forall2 (fun x sub => folder_tree n rows (f x) = Some sub) l subtrees /\
    tree ≡ₚ concat subtrees.
Proof.
  revert tree. induction l as [|x l IH]; intros tree H.
  - exists []. split; [constructor|]. destruct n; simpl in H; by injection H as <-.
  - rewrite bind_cons in H.
    destruct (folder_tree_app _ _ _ _ _ H) as (t1 & t2 & H1 & H2 & Hp).
    destruct (IH _ H2) as (subs & Hsubs & Hp2).
    exists (t1 :: subs). split; [by constructor|]. simpl. by rewrite Hp, Hp2.
Qed.

(** [k] rounds of the recursive step, from [level]. *)
Lemma folder_tree_rounds k fuel rows level :
  Nat.iter k (fun l => l ≫= (fun ft => children_of rows (col_id ft))) level = [] ->
  (k <= fuel)%nat ->
  is_Some (folder_tree fuel rows level).
Proof.
  revert fuel level. induction k as [|k IH]; intros fuel level Hk Hf.
  - simpl in Hk. subst. by destruct fuel.
  - destruct level as [|r level]; [by destruct fuel|].
    destruct fuel as [|fuel]; [lia|]. cbn [folder_tree].
    rewrite Nat.iter_succ_r in Hk.
    destruct (IH fuel _ Hk ltac:(lia)) as [deeper ->]. by eexists.
Qed.

Section Acyclic.
Variable t : Table.
Hypothesis Hkeyed : keyed t.
Variable rank : string -> nat.
Hypothesis Hrank : forall k row, t !! k = Some row ->
  (rank (col_id row) < rank (col_parent_id row))%nat.

(** A row met in round [k] is the end of a chain of [k + 1] rows with
    different ids. *)
Lemma round_chain k level row :
  Forall (fun r => r ∈ rows_of t) level ->
  row ∈ Nat.iter k (fun l => l ≫= (fun ft => children_of (rows_of t) (col_id ft)))
                 level ->
  row ∈ rows_of t /\
  exists ids,
    length ids = S k /\ NoDup ids /\
    Forall (fun id => id ∈ dom t /\ (rank (col_id row) <= rank id)%nat) ids.
Proof.
  intros Hlevel. revert row. induction k as [|k IH]; intros row Hin.
  - simpl in Hin. rewrite Forall_forall in Hlevel. specialize (Hlevel _ Hin).
    split; [done|]. exists [col_id row]. split; [done|].
    split; [apply NoDup_singleton|]. apply Forall_singleton. split; [|lia].
    apply elem_of_rows_of in Hlevel as [key Hkey].
    rewrite (Hkeyed _ _ Hkey). by apply elem_of_dom.
  - simpl in Hin. apply list_elem_of_bind in Hin as (parent & Hchild & Hparent).
    destruct (IH _ Hparent) as (Hprow & ids & Hlen & Hnd & Hids).
    apply elem_of_children_of in Hchild as [Hpid Hrow].
    split; [done|].
    pose proof Hrow as Hrow'. apply elem_of_rows_of in Hrow' as [key Hkey].
    pose proof (Hrank _ _ Hkey) as Hlt. rewrite Hpid in Hlt.
    exists (col_id row :: ids). split; [simpl; lia|]. split.
    + apply NoDup_cons. split; [|done]. intros Hmem.
      rewrite Forall_forall in Hids. destruct (Hids _ Hmem) as [_ Hle]. lia.
    + apply Forall_cons. split.
      * split; [|lia]. rewrite (Hkeyed _ _ Hkey). by apply elem_of_dom.
      * eapply Forall_impl; [exact Hids|]. intros id [? ?]. split; [done|lia].
Qed.

(** So the recursive query ends within as many rounds as the table has
    rows. *)
Lemma folder_tree_ends level :
  Forall (fun r => r ∈ rows_of t) level ->
  is_Some (folder_tree (S (size t)) (rows_of t) level).
Proof.
  intros Hlevel. apply (folder_tree_rounds (size t)); [|lia].
  destruct (Nat.iter (size t) _ level) as [|row l] eqn:Hiter; [done|].
  exfalso.
  destruct (round_chain (size t) level row Hlevel) as (_ & ids & Hlen & Hnd & Hids).
  { rewrite Hiter. by left. }
  assert (Hsub : ids ⊆+ elements (dom t)).
  { apply NoDup_submseteq; [done|]. intros id Hid.
    rewrite Forall_forall in Hids. destruct (Hids _ Hid) as [Hdom _].
    by apply elem_of_elements. }
  apply submseteq_length in Hsub.
  assert (length (elements (dom t)) = size t) by (by rewrite <- size_dom).
  lia.
Qed.

Lemma children_of_rows id :
  Forall (fun r => r ∈ rows_of t) (children_of (rows_of t) id).
Proof.
  apply Forall_forall. intros r Hr. by apply elem_of_children_of in Hr as [_ ?].
Qed.

Lemma folder_rows_ends folderID : is_Some (folder_rows t folderID).
Proof. apply folder_tree_ends, children_of_rows. Qed.

End Acyclic.

(** X25: [GetFolderSize] on a table keyed by id in which no row is its own
    ancestor. The recursive query ends; the rows it aggregates are the rows
    whose parent is the folder together with, for each of them, the rows
    that the query for that row aggregates: all the descendants of the
    folder, at any depth. The result is the sum of their sizes and their
    number, so [ChildCount] counts descendants, not only direct children;
    both are 0 when the query fails or the sum overflows on the way. Where
    it overflows depends on the order in which the engine meets the rows
    only when a size is negative: when none is, the sum overflows exactly
    when the total does not fit an [int64]. *)
Theorem GetFolderSize_descendants R t folderID :
  keyed t -> acyclic t -> visits_all R ->
  exists tree subtrees,
    folder_rows t folderID = Some tree /\
    Forall2 (fun child sub => folder_rows t (col_id child) = Some sub)
            (children_of (rows_of t) folderID) subtrees /\
    tree ≡ₚ children_of (rows_of t) folderID ++ concat subtrees /\
    GetFolderSize R folderID t
    = Some (match row_err R (FolderSizeQuery folderID),
                  SUM 0 (col_size <$> visit R (FolderSizeQuery folderID) tree) with
            | None, Some _ => (total (col_size <$> tree), len tree)
            | _, _ => (0, 0)
            end) /\
    (Forall (fun row => 0 <= col_size row) tree ->
     SUM 0 (col_size <$> visit R (FolderSizeQuery folderID) tree)
     = if total (col_size <$> tree) <? 2 ^ 63
       then Some (total (col_size <$> tree)) else None) /\
    len (children_of (rows_of t) folderID) <= len tree.
Proof.
  intros Hkeyed [rank Hrank] Hvisit.
  destruct (folder_rows_ends t Hkeyed rank Hrank folderID) as [tree Htree].
  exists tree.
  assert (Hsubs : exists subtrees,
    Forall2 (fun child sub => folder_rows t (col_id child) = Some sub)
            (children_of (rows_of t) folderID) subtrees /\
    tree ≡ₚ children_of (rows_of t) folderID ++ concat subtrees).
  { unfold folder_rows in Htree.
    destruct (children_of (rows_of t) folderID) as [|c cs] eqn:Hc.
    - exists []. split; [constructor|]. simpl in Htree. by injection Htree as <-.
    - cbn [folder_tree] in Htree.
      destruct (folder_tree (size t) _ _) as [deeper|] eqn:Hd; [|done].
      simpl in Htree. injection Htree as <-.
      destruct (folder_tree_bind _ _ _ _ _ Hd) as (subs & Hsubs & Hp).
      exists subs. split; [|by rewrite Hp].
      eapply Forall2_impl; [exact Hsubs|]. intros child sub Hsub. simpl in Hsub.
      unfold folder_rows. eapply folder_tree_fuel; [exact Hsub|lia]. }
  destruct Hsubs as (subtrees & Hsubs & Hp).
  pose proof (Hvisit (FolderSizeQuery folderID) tree) as Hv.
  assert (Htotal : total (col_size <$> visit R (FolderSizeQuery folderID) tree)
                   = total (col_size <$> tree)).
  { apply total_Permutation. by rewrite Hv. }
  exists subtrees. split; [done|]. split; [done|]. split; [done|]. split.
  - unfold GetFolderSize. rewrite Htree. cbn [mbind option_bind]. f_equal.
    destruct (row_err R (FolderSizeQuery folderID)); [done|].
    destruct (SUM 0 _) as [totalSize|] eqn:Hsum; [|done].
    apply SUM_total in Hsum. rewrite Htotal in Hsum.
    unfold len. rewrite (Permutation_length Hv). f_equal. lia.
  - split.
    + intros Hnn. rewrite SUM_nonneg; [by rewrite Htotal|lia|].
      rewrite Forall_fmap. rewrite Hv. exact Hnn.
    + unfold len. rewrite (Permutation_length Hp), length_app. lia.
Qed.

End FolderSize.
(** ** Drive statistics, the search handler, and the way back from a write *)

Section Stats.
Import Database.

Lemma SUM_range acc values total :
  SUM acc values = Some total -> - 2 ^ 63 <= acc < 2 ^ 63 ->
  - 2 ^ 63 <= total < 2 ^ 63.
Proof.
  revert acc. induction values as [|v values IH]; intros acc H Hacc; simpl in H.
  - by injection H as <-.
  - destruct (Z.leb_spec (- 2 ^ 63) (acc + v)); simpl in H; [|done].
    destruct (Z.ltb_spec (acc + v) (2 ^ 63)); [|done].
    apply (IH _ H). lia.
Qed.

Lemma filter_none {A} (P Q : A -> Prop) `{!forall x, Decision (P x)} (l : list A) :
  Forall (fun x => ~ Q x) l -> (forall x, P x -> Q x) -> filter P l = [].
Proof.
  intros Hl HPQ. induction Hl as [|x l Hx Hl IH]; [done|].
  rewrite filter_cons. case_decide as HP; [|done]. exfalso. by apply Hx, HPQ.
Qed.

Lemma filter_folder_split (rows : list Row) teamDriveID :
  (length (filter (fun r => col_teamdrive_id r = teamDriveID /\ col_is_folder r = false)
                  rows)
   + length (filter (fun r => col_teamdrive_id r = teamDriveID /\ col_is_folder r = true)
                    rows)
   = length (filter (fun r => col_teamdrive_id r = teamDriveID) rows))%nat.
Proof.
  induction rows as [|r rows IH]; [done|].
  rewrite !filter_cons.
  destruct (decide (col_teamdrive_id r = teamDriveID /\ col_is_folder r = false))
    as [[Htd Hf]|Hn1];
    destruct (decide (col_teamdrive_id r = teamDriveID /\ col_is_folder r = true))
      as [[Htd' Hf']|Hn2];
    destruct (decide (col_teamdrive_id r = teamDriveID)) as [Htd''|Hn3];
    simpl; try congruence; try lia.
  - exfalso. destruct (col_is_folder r); [apply Hn2|apply Hn1]; by split.
Qed.

(** X26: [GetTeamDriveStats] never panics: it returns a map with the four
    keys "total_files", "total_folders", "total_size" and
    "total_size_human", the last being [formatBytes] of the third. A query
    that fails, or a sum that overflows on the way, leaves zeros. When the
    two queries succeed, files and folders together are the rows of the
    drive, and the size is the sum of the sizes of its files (the sizes
    that folder rows carry are left out); when no size is negative the sum
    overflows exactly when the total does not fit an [int64], whatever the
    order in which the engine meets the rows; a drive with no row gives 0,
    0, 0 and "0 B". *)
Theorem GetTeamDriveStats_spec R teamDriveID t :
  let file_rows :=
    filter (fun r => col_teamdrive_id r = teamDriveID /\ col_is_folder r = false)
           (rows_of t) in
  let sum := SUM 0 (col_size <$> visit R FileStatsQuery file_rows) in
  exists files folders size human,
    GetTeamDriveStats R teamDriveID t
    = Some (<["total_files" := IntStat files]>
            (<["total_folders" := IntStat folders]>
             (<["total_size" := IntStat size]>
              (<["total_size_human" := TextStat human]> ∅)))) /\
    formatBytes size = Some human /\
    (row_err R FileStatsQuery <> None \/ sum = None ->
     files = 0 /\ size = 0 /\ human = "0 B") /\
    (row_err R FolderStatsQuery <> None -> folders = 0) /\
    (visits_all R ->
     (row_err R FileStatsQuery = None -> row_err R FolderStatsQuery = None ->
      is_Some sum ->
      size = total (col_size <$> file_rows) /\
      files + folders
      = len (filter (fun r => col_teamdrive_id r = teamDriveID) (rows_of t))) /\
     (Forall (fun r => 0 <= col_size r) file_rows ->
      sum = if total (col_size <$> file_rows) <? 2 ^ 63
            then Some (total (col_size <$> file_rows)) else None) /\
     (Forall (fun r => col_teamdrive_id r <> teamDriveID) (rows_of t) ->
      files = 0 /\ folders = 0 /\ size = 0 /\ human = "0 B")).
Proof.
  cbv zeta. unfold GetTeamDriveStats.
  set (file_rows := filter (fun r => col_teamdrive_id r = teamDriveID /\
                                     col_is_folder r = false) (rows_of t)).
  set (files := visit R FileStatsQuery file_rows).
  set (folders := filter (fun r => col_teamdrive_id r = teamDriveID /\
                                   col_is_folder r = true) (rows_of t)).
  destruct (match row_err R FileStatsQuery, SUM 0 (col_size <$> files) with
            | None, Some totalSize => (len files, totalSize)
            | _, _ => (0, 0)
            end) as [totalFiles totalSize] eqn:Hfiles.
  assert (Hrange : - 2 ^ 63 <= totalSize < 2 ^ 63).
  { destruct (row_err R FileStatsQuery); [injection Hfiles as <- <-; lia|].
    destruct (SUM 0 (col_size <$> files)) as [sum|] eqn:Hsum;
      injection Hfiles as <- <-; [|lia].
    apply (SUM_range _ _ _ Hsum). lia. }
  destruct (formatBytes_returns totalSize Hrange) as [human Hhuman].
  rewrite Hhuman. simpl.
  eexists _, _, _, _. split; [reflexivity|]. split; [done|].
  split; [|split].
  - intros Hfail.
    assert (Hz : totalFiles = 0 /\ totalSize = 0).
    { destruct (row_err R FileStatsQuery); [by injection Hfiles as <- <-|].
      destruct Hfail as [?|Hsum]; [done|].
      rewrite Hsum in Hfiles. by injection Hfiles as <- <-. }
    destruct Hz as [-> ->]. split; [done|]. split; [done|].
    by injection Hhuman as <-.
  - intros Hfail. by destruct (row_err R FolderStatsQuery).
  - intros Hvisit. pose proof (Hvisit FileStatsQuery file_rows) as Hv.
    fold files in Hv.
    assert (Htotal : total (col_size <$> files) = total (col_size <$> file_rows)).
    { apply total_Permutation. by rewrite Hv. }
    split; [|split].
    + intros Hf1 Hf2 [sum Hsum]. rewrite Hf1, Hsum in Hfiles. rewrite Hf2.
      injection Hfiles as <- <-. split.
      * apply SUM_total in Hsum. rewrite Htotal in Hsum. lia.
      * unfold len. rewrite (Permutation_length Hv).
        unfold file_rows, folders. rewrite <- Nat2Z.inj_add. f_equal.
        apply filter_folder_split.
    + intros Hnn. rewrite SUM_nonneg; [by rewrite Htotal|lia|].
      rewrite Forall_fmap. rewrite Hv. exact Hnn.
    + intros Hnone.
      assert (Hfiles0 : file_rows = []).
      { unfold file_rows. apply (filter_none _ _ _ Hnone). by intros r [? _]. }
      assert (Hfolders0 : folders = []).
      { unfold folders. apply (filter_none _ _ _ Hnone). by intros r [? _]. }
      rewrite Hfiles0 in Hv. apply Permutation_nil_r in Hv.
      rewrite Hv in Hfiles. rewrite Hfolders0. simpl in Hfiles.
      assert (Hz : totalFiles = 0 /\ totalSize = 0).
      { destruct (row_err R FileStatsQuery); by injection Hfiles as <- <-. }
      destruct Hz as [-> ->].
      split; [done|]. split; [by destruct (row_err R FolderStatsQuery)|].
      split; [done|]. by injection Hhuman as <-.
Qed.

End Stats.

(** The theorem at the small drive's table: three files of 60 bytes in all,
    and one folder. *)
Lemma GetTeamDriveStats_spec_witness :
  Database.GetTeamDriveStats Database.plain_reader "A" Scenario.small_drive_table
  = Some (<["total_files" := Database.IntStat 3]>
          (<["total_folders" := Database.IntStat 1]>
           (<["total_size" := Database.IntStat 60]>
            (<["total_size_human" := Database.TextStat "60 B"]> ∅)))) /\
  exists files folders size human,
    Database.GetTeamDriveStats Database.plain_reader "A"
      Scenario.small_drive_table
    = Some (<["total_files" := Database.IntStat files]>
            (<["total_folders" := Database.IntStat folders]>
             (<["total_size" := Database.IntStat size]>
              (<["total_size_human" := Database.TextStat human]> ∅)))).
Proof.
  split; [reflexivity|].
  destruct (GetTeamDriveStats_spec Database.plain_reader "A"
              Scenario.small_drive_table)
    as (files & folders & size & human & H & _).
  by exists files, folders, size, human.
Defined.
(** ** Searches that return, and the way back from a write *)

Section Returns.
Import Database.

(** X27: on a table keyed by id in which no row is its own ancestor,
    [Search] always returns. It returns an error exactly when the query
    for the rows fails, and then that error; an error of the count query
    or of a folder size query is swallowed. *)
Theorem Search_returns R query teamDriveID parentID limit offset t :
  keyed t -> acyclic t ->
  exists res,
    Search R query teamDriveID parentID limit offset t
    = Some (match query_err R with
            | Some err => inl err
            | None => inr res
            end) /\
    (query_err R = None ->
     length (Files res)
     = length (Search_query R query teamDriveID parentID limit offset t).1).
Proof.
  intros Hkeyed [rank Hrank]. unfold Search.
  destruct (query_err R) as [err|].
  { exists (mkSearchResult [] 0). by split. }
  destruct (Search_query R query teamDriveID parentID limit offset t)
    as [rows count].
  assert (Hall : is_Some (mapM (Search_totals R t) (scanRows rows))).
  { apply mapM_is_Some, Forall_forall. intros record _. simpl.
    unfold Search_totals. destruct (IsFolder record); [|by eexists].
    unfold GetFolderSize.
    destruct (folder_rows_ends t Hkeyed rank Hrank (ID record)) as [tree ->].
    cbn [mbind option_bind].
    destruct (match row_err R _ with Some _ => _ | None => _ end)
      as [totalSize childCount].
    by eexists. }
  destruct Hall as [records Hrecords]. rewrite Hrecords. simpl.
  eexists. split; [reflexivity|]. intros _. simpl.
  apply length_mapM in Hrecords. unfold scanRows in Hrecords.
  by rewrite length_fmap in Hrecords.
Qed.

(** X28: from a write back to a listing. After a [BatchInsert] that goes
    through, the table is still keyed by id, and browsing the drive and the
    parent of a record of the batch (the last one written under its id)
    finds the row of that record; so every [Search] for that drive and
    parent, with no limit, returns a record with the same ten stored
    fields. *)
Theorem BatchInsert_then_browse E R (records : list FileRecord) (t : Table) r :
  succeeds E -> scans_table R -> keyed t ->
  last_with_id (ID r) records = Some r ->
  TeamDriveID r <> "" -> ParentID r <> "" ->
  let t' := table (BatchInsert E records t) in
  keyed t' /\
  t' !! ID r = Some (row_of (current_timestamp E) r) /\
  row_of (current_timestamp E) r
    ∈ (Search_query R "" (TeamDriveID r) (ParentID r) (-1) 0 t').1 /\
  (forall res,
     Search R "" (TeamDriveID r) (ParentID r) (-1) 0 t' = Some (inr res) ->
     exists f, f ∈ Files res /\ record_of (row_of 0 f) = record_of (row_of 0 r)).
Proof.
  intros [HC HX] Hscan Hkeyed Hlast Htd Hparent. cbv zeta.
  rewrite BatchInsert_commits by done. cbn [table].
  rewrite executed_all by done.
  set (t' := upsert_all (current_timestamp E) records t).
  assert (Hrow : t' !! ID r = Some (row_of (current_timestamp E) r)).
  { unfold t'. by rewrite lookup_upsert_all, Hlast. }
  assert (Hfound : row_of (current_timestamp E) r
            ∈ (Search_query R "" (TeamDriveID r) (ParentID r) (-1) 0 t').1).
  { unfold Search_query. simpl. rewrite limit_offset_all, merge_sort_Permutation.
    apply list_elem_of_filter. split.
    - unfold list_where. simpl.
      destruct (String.eqb_spec (TeamDriveID r) ""); [done|].
      destruct (String.eqb_spec (ParentID r) ""); [done|]. simpl.
      by rewrite !String.eqb_refl.
    - rewrite (Hscan t'). apply elem_of_rows_of. by exists (ID r). }
  split; [by apply upsert_all_keyed|]. split; [done|]. split; [done|].
  intros res. unfold Search. destruct (query_err R); [done|].
  destruct (Search_query R "" (TeamDriveID r) (ParentID r) (-1) 0 t')
    as [rows count]. simpl in Hfound.
  destruct (mapM _ _) as [found|] eqn:Hm; [|done]. simpl. intros [= <-]. simpl.
  apply mapM_Some in Hm.
  apply list_elem_of_lookup in Hfound as [i Hi].
  assert (Hrec : scanRows rows !! i = Some (record_of (row_of (current_timestamp E) r))).
  { unfold scanRows. by rewrite list_lookup_fmap, Hi. }
  destruct (Forall2_lookup_l _ _ _ _ _ Hm Hrec) as (f & Hf & Htot).
  exists f. split; [by eapply list_elem_of_lookup_2|].
  by apply Search_totals_keeps in Htot as [-> _].
Qed.

End Returns.

(** The small drive's table is keyed by id, and no row of it is its own
    ancestor. *)
Lemma small_drive_table_keyed : Database.keyed Scenario.small_drive_table.
Proof.
  apply (upsert_all_keyed 0
           (Scenario.small_drive_records (Scenario.drive_config 1)) ∅).
  intros k row Hk. by rewrite lookup_empty in Hk.
Defined.

Lemma small_drive_table_acyclic : Database.acyclic Scenario.small_drive_table.
Proof.
  exists (fun id => if String.eqb id "A" then 2%nat
                    else if String.eqb id "B" then 1%nat else 0%nat).
  apply (map_Forall_to_list
           (fun (_ : string) (row : Database.Row) =>
              ((if String.eqb (Database.col_id row) "A" then 2
                else if String.eqb (Database.col_id row) "B" then 1 else 0)
               < (if String.eqb (Database.col_parent_id row) "A" then 2
                  else if String.eqb (Database.col_parent_id row) "B" then 1
                  else 0))%nat)).
  vm_compute. repeat constructor.
Defined.

Lemma plain_reader_visits : Database.visits_all Database.plain_reader.
Proof. by intros q rows. Qed.

(** The theorem on folder sizes at the root of the small drive: four
    descendants, 60 bytes. *)
Lemma GetFolderSize_descendants_witness :
  Database.GetFolderSize Database.plain_reader "A" Scenario.small_drive_table
  = Some (60, 4) /\
  exists tree, Database.folder_rows Scenario.small_drive_table "A" = Some tree.
Proof.
  split; [reflexivity|].
  destruct (GetFolderSize_descendants Database.plain_reader
              Scenario.small_drive_table "A" small_drive_table_keyed
              small_drive_table_acyclic plain_reader_visits)
    as (tree & subtrees & Htree & _).
  by exists tree.
Defined.

(** The theorem on returning searches at the small drive's table. *)
Lemma Search_returns_witness :
  exists res,
    Database.Search Database.plain_reader "" "A" "B" 10 0
                    Scenario.small_drive_table = Some (inr res) /\
    length (Database.Files res) = 1%nat.
Proof.
  destruct (Search_returns Database.plain_reader "" "A" "B" 10 0
              Scenario.small_drive_table small_drive_table_keyed
              small_drive_table_acyclic) as (res & Hres & Hlen).
  exists res. split; [exact Hres|]. rewrite Hlen by done. reflexivity.
Defined.

(** The theorem on the way back from a write, for the record of
    "three.txt" written with the records of the small drive. *)
Lemma BatchInsert_then_browse_witness :
  Database.row_of 9 (record_for (Scenario.drive_config 1) "B" Scenario.file3)
  ∈ (Database.Search_query Database.plain_reader "" "A" "B" (-1) 0
       (Database.table
          (Database.BatchInsert (Database.healthy 9)
             (Scenario.small_drive_records (Scenario.drive_config 1)) ∅))).1.
Proof.
  destruct (BatchInsert_then_browse (Database.healthy 9) Database.plain_reader
              (Scenario.small_drive_records (Scenario.drive_config 1)) ∅
              (record_for (Scenario.drive_config 1) "B" Scenario.file3))
    as (_ & _ & H & _).
  - by repeat split.
  - apply plain_reader_scans.
  - intros k row Hk. by rewrite lookup_empty in Hk.
  - reflexivity.
  - discriminate.
  - discriminate.
  - exact H.
Defined.

(** ** The search handler of the web server *)

Lemma Search_query_length R query teamDriveID parentID limit offset t :
  0 <= limit ->
  Z.of_nat (length (Database.Search_query R query teamDriveID parentID
                      limit offset t).1) <= limit.
Proof.
  intros Hl. unfold Database.Search_query.
  destruct (negb _); simpl; by apply limit_offset_length.
Qed.

Lemma search_limit_range (args : gmap string string) :
  1 <= Web.search_limit args <= 1000.
Proof.
  unfold Web.search_limit. destruct (Go.Atoi _) as [limit|]; [|lia].
  destruct (Z.leb_spec limit 0); simpl; [lia|].
  destruct (Z.ltb_spec 1000 limit); lia.
Qed.

(** X29: whatever the request says, the handler [search] passes [Search]
    a limit between 1 and 1000 and an offset that is not negative: a limit that
    parses to a number in that range is kept, every other (missing, empty,
    not a number, zero, negative, too large) becomes 100, and an offset that
    does not parse or is negative becomes 0. So a page that the handler
    returns never holds more than [limit] records, 1000 at most, and a
    failure is answered with status 500 and is the error of the query for
    the rows. *)
Theorem search_page_bounded (R : Database.Reader) (args : gmap string string)
    (t : Database.Table) :
  1 <= Web.search_limit args <= 1000 /\
  0 <= Web.search_offset args /\
  (forall n, Go.Atoi (Web.Query args "limit" "100") = Some n ->
     Web.search_limit args = if (1 <=? n) && (n <=? 1000) then n else 100) /\
  (Go.Atoi (Web.Query args "limit" "100") = None -> Web.search_limit args = 100) /\
  (forall resp, Web.search R args t = Some resp ->
     match resp with
     | Web.JSON result =>
         Z.of_nat (length (Database.Files result)) <= Web.search_limit args
         /\ Database.query_err R = None
     | Web.SearchFailed status err =>
         status = 500 /\ Database.query_err R = Some err
     end).
Proof.
  split; [apply search_limit_range|].
  split.
  { unfold Web.search_offset. destruct (Go.Atoi _) as [offset|]; [|lia].
    destruct (Z.ltb_spec offset 0); lia. }
  split.
  { intros n Hn. unfold Web.search_limit. rewrite Hn.
    destruct (Z.leb_spec n 0), (Z.ltb_spec 1000 n), (Z.leb_spec 1 n),
      (Z.leb_spec n 1000); simpl; lia. }
  split.
  { intros Hn. unfold Web.search_limit. by rewrite Hn. }
  intros resp. unfold Web.search, Database.Search.
  pose proof (search_limit_range args) as Hrange.
  destruct (Database.query_err R) as [err|]; [by intros [= <-]|].
  pose proof (Search_query_length R (Web.Query args "q" "")
                (Web.Query args "teamdrive" "") (Web.Query args "parent" "")
                (Web.search_limit args) (Web.search_offset args) t
                ltac:(lia)) as Hlen.
  destruct (Database.Search_query _ _ _ _ _ _ _) as [rows count].
  destruct (mapM _ _) as [records|] eqn:Hm; [|done].
  simpl. intros [= <-]. simpl. split; [|done].
  apply length_mapM in Hm. unfold Database.scanRows in Hm.
  rewrite length_fmap in Hm. simpl in Hlen. lia.
Qed.

(** The theorem at a request for 5000 results from the small drive's table:
    the limit is 100, and the page holds the four rows of the drive. *)
Lemma search_page_bounded_witness :
  Web.search_limit {["limit" := "5000"]} = 100 /\
  exists result,
    Web.search Database.plain_reader {["limit" := "5000"]}
               Scenario.small_drive_table = Some (Web.JSON result) /\
    Z.of_nat (length (Database.Files result)) <= 100.
Proof.
  destruct (search_page_bounded Database.plain_reader {["limit" := "5000"]}
              Scenario.small_drive_table) as (_ & _ & Hkeep & _ & Hpage).
  split; [exact (Hkeep 5000 eq_refl)|].
  destruct (Web.search Database.plain_reader {["limit" := "5000"]}
              Scenario.small_drive_table) as [[result|status err]|] eqn:Hs.
  - exists result. split; [reflexivity|].
    destruct (Hpage _ eq_refl) as [Hlen _].
    rewrite (Hkeep 5000 eq_refl) in Hlen. exact Hlen.
  - exfalso. vm_compute in Hs. discriminate.
  - exfalso. vm_compute in Hs. discriminate.
Defined.
